(** * DT-BASE causal model execution: a shallow embedding of [dt_base.ipynb]

    The notebook is a straight-line script over a handful of global
    variables.  Each code cell is embedded as one function from the globals
    it reads to the globals it writes; Python dictionaries are
    insertion-ordered association lists, exceptions are an error monad, the
    process-wide NumPy generator is threaded explicitly, and floating-point
    numbers are idealised as exact rationals. *)

From Stdlib Require Import QArith Qabs Qminmax Lqa List String Bool Arith Lia.
Import ListNotations.

(** ** Exceptions *)

Inductive error : Type :=
| KeyError
| IndexError
| TypeError.

Inductive result (A : Type) : Type :=
| Ok (a : A)
| Raise (e : error).

Arguments Ok {A} a.
Arguments Raise {A} e.

Definition bind {A B : Type} (r : result A) (k : A -> result B) : result B :=
  match r with
  | Ok a => k a
  | Raise e => Raise e
  end.

Notation "x <- c ;; k" := (bind c (fun x => k))
  (at level 61, c at next level, right associativity).

(** A Python [for] loop whose body may raise: the loop state is threaded
    through the iterations and the first exception aborts the loop. *)
Fixpoint for_each {A S : Type} (l : list A) (body : A -> S -> result S)
  (s : S) : result S :=
  match l with
  | [] => Ok s
  | x :: l' => s' <- body x s ;; for_each l' body s'
  end.

(** A list comprehension whose element expression may raise. *)
Fixpoint comprehension {A B : Type} (f : A -> result B) (l : list A)
  : result (list B) :=
  match l with
  | [] => Ok []
  | x :: l' => y <- f x ;; ys <- comprehension f l' ;; Ok (y :: ys)
  end.

(** ** Dictionaries

    A Python [dict] keeps its keys in insertion order; assigning to a key
    that is already present replaces the value and keeps the position. *)

Class Key (K : Type) : Type := {
  keqb : K -> K -> bool;
  keqb_spec : forall x y : K, reflect (x = y) (keqb x y)
}.

#[export] Instance Key_string : Key string :=
  {| keqb := String.eqb; keqb_spec := String.eqb_spec |}.

#[export] Instance Key_nat : Key nat :=
  {| keqb := Nat.eqb; keqb_spec := Nat.eqb_spec |}.

Definition pair_eqb {A B : Type} `{Key A} `{Key B} (x y : A * B) : bool :=
  keqb (fst x) (fst y) && keqb (snd x) (snd y).

#[export] Instance Key_pair {A B : Type} `{Key A} `{Key B} : Key (A * B).
Proof.
  refine {| keqb := pair_eqb |}.
  intros [a b] [a' b']; unfold pair_eqb; simpl.
  destruct (keqb_spec a a'), (keqb_spec b b'); simpl; constructor; congruence.
Defined.

Definition dict (K V : Type) : Type := list (K * V).

Section Dict.
Context {K V : Type} `{Key K}.

Definition keys (d : dict K V) : list K := map fst d.
Definition values (d : dict K V) : list V := map snd d.

(** [d.get(k)] *)
Fixpoint get (d : dict K V) (k : K) : option V :=
  match d with
  | [] => None
  | (k', v) :: d' => if keqb k k' then Some v else get d' k
  end.

(** [d.get(k, default)] *)
Definition get_default (d : dict K V) (k : K) (default : V) : V :=
  match get d k with
  | Some v => v
  | None => default
  end.

(** [d[k]] *)
Definition subscript (d : dict K V) (k : K) : result V :=
  match get d k with
  | Some v => Ok v
  | None => Raise KeyError
  end.

(** [k in d] *)
Definition contains (d : dict K V) (k : K) : bool :=
  match get d k with
  | Some _ => true
  | None => false
  end.

(** [d[k] = v] *)
Fixpoint set (d : dict K V) (k : K) (v : V) : dict K V :=
  match d with
  | [] => [(k, v)]
  | (k', v') :: d' =>
      if keqb k k' then (k', v) :: d' else (k', v') :: set d' k v
  end.

(** [{ k : v for k in ks }] *)
Definition fromkeys (ks : list K) (v : V) : dict K V :=
  fold_left (fun d k => set d k v) ks [].
End Dict.

(** ** Numbers, arrays and broadcasting

    A NumPy array or pandas Series of per-sample values is a list of
    rationals; arithmetic between a scalar and a Series broadcasts the
    scalar, arithmetic between two Series is element-wise. *)

Definition series : Type := list Q.

Inductive num : Type :=
| Scalar (q : Q)
| Series (l : series).

Fixpoint zip_with (f : Q -> Q -> Q) (l r : series) : series :=
  match l, r with
  | x :: l', y :: r' => f x y :: zip_with f l' r'
  | _, _ => []
  end.

Definition broadcast (f : Q -> Q -> Q) (a b : num) : num :=
  match a, b with
  | Scalar x, Scalar y => Scalar (f x y)
  | Scalar x, Series r => Series (map (fun y => f x y) r)
  | Series l, Scalar y => Series (map (fun x => f x y) l)
  | Series l, Series r => Series (zip_with f l r)
  end.

Definition nadd : num -> num -> num := broadcast Qplus.
Definition nsub : num -> num -> num := broadcast Qminus.
Definition nmul : num -> num -> num := broadcast Qmult.
(** Where pandas yields [inf] or [NaN] for a zero divisor, [Qdiv] yields 0;
    every property below that depends on a quotient assumes the divisor
    nonzero. *)
Definition ndiv : num -> num -> num := broadcast Qdiv.

(** [p[sample]] *)
Definition item (p : num) (sample : nat) : result Q :=
  match p with
  | Scalar _ => Raise TypeError
  | Series l =>
      match nth_error l sample with
      | Some q => Ok q
      | None => Raise IndexError
      end
  end.

(** ** The random source

    The generator is the sequence of unit variates in [[0, 1)] it is still to
    produce.  [np.random.uniform(low, high, size)] consumes [size] of them
    and scales each one as [low + (high - low) * u]. *)

Definition rng : Type := nat -> Q.

Definition uniform (low high : Q) (size : nat) (g : rng) : series * rng :=
  (map (fun i => low + (high - low) * g i) (seq 0 size),
   fun i => g (size + i)%nat).

(** ** Input tables

    A data frame indexed by an id column is an association list from ids to
    rows; [t.col[id]] looks the row up by label. *)

Record ref_row : Type := {
  m1A : Q;
  m1B : Q
}.

Record node_row : Type := {
  label : string
}.

Record edge_row : Type := {
  parent_id : string;
  child_id : string;
  ref_id : string;
  m2A : Q;
  m2B : Q;
  m3A : Q;
  m3B : Q
}.

Definition table (Row : Type) : Type := dict string Row.

Definition index {Row : Type} (t : table Row) : list string := keys t.

Definition col {Row A : Type} (t : table Row) (field : Row -> A) (id : string)
  : result A :=
  r <- subscript t id ;; Ok (field r).

(** ** Uncertainty characterization

    The frames [m1], [m2] and [m3] are created with their columns declared
    and no rows; the loops then assign every declared column, in index
    order, so each frame is the dictionary of the assigned columns. *)

Definition frame : Type := dict string series.

Definition sample_m1 (refs : table ref_row) (numSamples : nat)
  (st : frame * rng) : result (frame * rng) :=
  for_each (index refs)
    (fun ref_id '(m1, g) =>
       a <- col refs m1A ref_id ;;
       b <- col refs m1B ref_id ;;
       let '(v, g') := uniform a b numSamples g in
       Ok (set m1 ref_id v, g'))
    st.

Definition sample_m2_m3 (edges : table edge_row) (numSamples : nat)
  (st : frame * frame * rng) : result (frame * frame * rng) :=
  for_each (index edges)
    (fun edge_id '(m2, m3, g) =>
       a2 <- col edges m2A edge_id ;;
       b2 <- col edges m2B edge_id ;;
       let '(v2, g2) := uniform a2 b2 numSamples g in
       a3 <- col edges m3A edge_id ;;
       b3 <- col edges m3B edge_id ;;
       let '(v3, g3) := uniform a3 b3 numSamples g2 in
       Ok (set m2 edge_id v2, set m3 edge_id v3, g3))
    st.

(** ** Aggregating edges *)

Definition edge_of (edges : table edge_row) (edge_id : string)
  : result (string * string) :=
  p <- col edges parent_id edge_id ;;
  c <- col edges child_id edge_id ;;
  Ok (p, c).

(** [m1[edges.ref_id[edge_id]] * m3[edge_id]] *)
Definition raw_weight (edges : table edge_row) (m1 m3 : frame)
  (edge_id : string) : result num :=
  r <- col edges ref_id edge_id ;;
  a <- subscript m1 r ;;
  b <- subscript m3 edge_id ;;
  Ok (nmul (Series a) (Series b)).

Definition normWeights_step (edges : table edge_row) (m1 m3 : frame)
  (edge_id : string) (normWeights : dict (string * string) num)
  : result (dict (string * string) num) :=
  edge <- edge_of edges edge_id ;;
  w <- raw_weight edges m1 m3 edge_id ;;
  Ok (set normWeights edge
        (nadd (get_default normWeights edge (Scalar 0)) w)).

Definition normWeights_cell (edges : table edge_row) (m1 m3 : frame)
  : result (dict (string * string) num) :=
  for_each (index edges) (normWeights_step edges m1 m3) [].

Definition weights_step (edges : table edge_row) (m1 m3 : frame)
  (normWeights : dict (string * string) num) (edge_id : string)
  (weights : dict string num) : result (dict string num) :=
  edge <- edge_of edges edge_id ;;
  w <- raw_weight edges m1 m3 edge_id ;;
  n <- subscript normWeights edge ;;
  Ok (set weights edge_id (ndiv w n)).

Definition weights_cell (edges : table edge_row) (m1 m3 : frame)
  (normWeights : dict (string * string) num) : result (dict string num) :=
  for_each (index edges) (weights_step edges m1 m3 normWeights) [].

Definition superEdges_step (edges : table edge_row) (m2 : frame)
  (weights : dict string num) (edge_id : string)
  (superEdges : dict (string * string) num)
  : result (dict (string * string) num) :=
  edge <- edge_of edges edge_id ;;
  w <- subscript weights edge_id ;;
  b <- subscript m2 edge_id ;;
  Ok (set superEdges edge
        (nadd (get_default superEdges edge (Scalar 0)) (nmul w (Series b)))).

Definition superEdges_cell (edges : table edge_row) (m2 : frame)
  (weights : dict string num) : result (dict (string * string) num) :=
  for_each (index edges) (superEdges_step edges m2 weights) [].

(** ** The causal graph ([networkx.DiGraph])

    Only the successor structure is kept: an ordered dictionary from each
    node to the ordered dictionary of its successors.  Nodes are created the
    first time they are mentioned. *)

Definition DiGraph : Type := dict string (dict string unit).

Definition nx_add_node (G : DiGraph) (n : string) : DiGraph :=
  if contains G n then G else set G n [].

Definition nx_add_edge (G : DiGraph) (e : string * string) : DiGraph :=
  let '(u, v) := e in
  let G1 := nx_add_node G u in
  let G2 := nx_add_node G1 v in
  set G2 u (set (get_default G2 u []) v tt).

Definition add_nodes_from (G : DiGraph) (ns : list string) : DiGraph :=
  fold_left nx_add_node ns G.

Definition add_edges_from (G : DiGraph) (es : list (string * string))
  : DiGraph :=
  fold_left nx_add_edge es G.

Definition nx_nodes (G : DiGraph) : list string := keys G.

Definition nx_edges (G : DiGraph) : list (string * string) :=
  flat_map (fun adj => map (fun nbr => (fst adj, nbr)) (keys (snd adj))) G.

Definition has_edge (G : DiGraph) (u v : string) : bool :=
  contains (get_default G u []) v.

(** [G.reverse()]: a fresh graph with the same nodes and every edge of [G],
    in [G]'s edge order, turned around. *)
Definition reverse (G : DiGraph) : DiGraph :=
  add_edges_from (add_nodes_from [] (nx_nodes G))
    (map (fun e => (snd e, fst e)) (nx_edges G)).

Definition adjacency (G : DiGraph) : list (string * dict string unit) := G.

(** Iterating over the dictionary [superEdges] yields its keys. *)
Definition G_cell {V : Type} (superEdges : dict (string * string) V)
  : DiGraph :=
  add_edges_from [] (keys superEdges).

(** ** CPT combinations ([itertools.product] and [pyeda] literals) *)

Inductive expr : Type :=
| ExprVariable (name : string)
| ExprComplement (name : string).

Definition exprvar (name : string) : expr := ExprVariable name.

(** [~e] *)
Definition invert (e : expr) : expr :=
  match e with
  | ExprVariable n => ExprComplement n
  | ExprComplement n => ExprVariable n
  end.

(** [isinstance(e, pyeda.boolalg.expr.Variable)] *)
Definition isinstance_Variable (e : expr) : bool :=
  match e with
  | ExprVariable _ => true
  | ExprComplement _ => false
  end.

Definition name (e : expr) : string :=
  match e with
  | ExprVariable n => n
  | ExprComplement n => n
  end.

(** [itertools.product(vals, repeat=k)]: the rightmost position advances
    fastest. *)
Fixpoint product {A : Type} (vals : list A) (k : nat) : list (list A) :=
  match k with
  | O => [[]]
  | S k' => flat_map (fun x => map (cons x) (product vals k')) vals
  end.

Definition combo_of (incoming : list string) (t : list bool) : list expr :=
  map (fun i =>
         if nth i t false
         then exprvar (nth i incoming EmptyString)
         else invert (exprvar (nth i incoming EmptyString)))
      (seq 0 (List.length t)).

Definition cptCombos_cell (G : DiGraph) : dict string (list (list expr)) :=
  fold_left
    (fun cptCombos adj =>
       let node := fst adj in
       let incoming := keys (snd adj) in
       let bools :=
         map (combo_of incoming)
             (product [true; false] (List.length incoming)) in
       set cptCombos node bools)
    (adjacency (reverse G)) [].

(** ** Leak and conditional probability tables *)

Definition leak_cell (numSamples : nat) (g : rng) : series * rng :=
  uniform 0.9 0.99 numSamples g.

(** One iteration of [for parent in combo]: the running product [tmp] and
    the dictionary [cpts] are the loop state. *)
Definition cpt_parent_step (superEdges : dict (string * string) num)
  (leak : series) (node : string) (parent : expr)
  (st : num * dict string (list num)) : result (num * dict string (list num)) :=
  let '(tmp, cpts) := st in
  tmp' <- (if isinstance_Variable parent
           then s <- subscript superEdges (name parent, node) ;;
                Ok (nmul tmp (nsub (Scalar 1) s))
           else Ok tmp) ;;
  l <- subscript cpts node ;;
  Ok (tmp',
      set cpts node
        (l ++ [nsub (Scalar 1) (nmul (Series leak) tmp');
               nmul (Series leak) tmp'])).

Definition cpt_combo_step (superEdges : dict (string * string) num)
  (leak : series) (node : string) (combo : list expr)
  (cpts : dict string (list num)) : result (dict string (list num)) :=
  st <- for_each combo (cpt_parent_step superEdges leak node)
          (Scalar 1, cpts) ;;
  Ok (snd st).

Definition cpts_cell (nodes : table node_row)
  (cptCombos : dict string (list (list expr)))
  (superEdges : dict (string * string) num) (leak : series)
  : result (dict string (list num)) :=
  for_each cptCombos
    (fun item cpts =>
       for_each (snd item) (cpt_combo_step superEdges leak (fst item)) cpts)
    (fromkeys (index nodes) []).

(** ** The belief network ([pybbn])

    [BbnNode] objects are mutable and shared between the dictionary
    [bbnNodes] and the network [dt_base], so they live in a heap and both
    structures hold references into it. *)

Record BbnVariable : Type := {
  var_id : nat;
  var_name : string;
  var_values : list string
}.

Record BbnNode : Type := {
  variable : BbnVariable;
  probs : list Q
}.

Definition ref : Type := nat.
Definition heap : Type := list BbnNode.

Definition null_node : BbnNode :=
  {| variable := {| var_id := 0; var_name := EmptyString; var_values := [] |};
     probs := [] |}.

Definition deref (h : heap) (r : ref) : BbnNode := nth r h null_node.

Fixpoint store (h : heap) (r : ref) (n : BbnNode) : heap :=
  match h, r with
  | [], _ => []
  | _ :: h', O => n :: h'
  | x :: h', S r' => x :: store h' r' n
  end.

(** [node.probs = probs] *)
Definition set_probs (h : heap) (r : ref) (p : list Q) : heap :=
  store h r {| variable := variable (deref h r); probs := p |}.

Inductive EdgeType : Type :=
| UNDIRECTED
| DIRECTED.

Record Edge : Type := {
  edge_i : string;
  edge_j : string;
  edge_type : EdgeType
}.

Record Bbn : Type := {
  bbn_nodes : dict nat ref;
  bbn_edges : list Edge
}.

Definition Bbn_new : Bbn := {| bbn_nodes := []; bbn_edges := [] |}.

Definition Bbn_add_node (h : heap) (b : Bbn) (r : ref) : Bbn :=
  let id := var_id (variable (deref h r)) in
  {| bbn_nodes := if contains (bbn_nodes b) id then bbn_nodes b
                  else set (bbn_nodes b) id r;
     bbn_edges := bbn_edges b |}.

(** The library method also refuses an edge that would close a directed
    cycle; the notebook never calls it. *)
Definition Bbn_add_edge (b : Bbn) (e : Edge) : Bbn :=
  {| bbn_nodes := bbn_nodes b; bbn_edges := bbn_edges b ++ [e] |}.

Definition enumerate {A : Type} (l : list A) : list (nat * A) :=
  combine (seq 0 (List.length l)) l.

(** Every element of the comprehension allocates a fresh node object. *)
Definition bbnNodes_cell (nodes : table node_row) : heap * dict string ref :=
  fold_left
    (fun st it =>
       let '(h, bbnNodes) := st in
       let '(i, node) := it in
       let n := {| variable := {| var_id := i;
                                  var_name := fst node;
                                  var_values := ["Good"; "Bad"]%string |};
                   probs := [1; 0] |} in
       (h ++ [n], set bbnNodes (fst node) (List.length h)))
    (enumerate nodes) ([], []).

Definition bbnEdges_cell {V : Type} (superEdges : dict (string * string) V)
  : list Edge :=
  map (fun k => {| edge_i := fst k; edge_j := snd k; edge_type := DIRECTED |})
      (keys superEdges).

(** The second loop evaluates the bound method [dt_base.add_edge] and
    discards it. *)
Definition dt_base_cell (h : heap) (bbnNodes : dict string ref)
  (bbnEdges : list Edge) : Bbn :=
  let dt_base := fold_left (Bbn_add_node h) (values bbnNodes) Bbn_new in
  fold_left (fun dt_base edge => let _ := Bbn_add_edge dt_base in dt_base)
            bbnEdges dt_base.

(** ** Everything up to the inference loop *)

Record notebook : Type := {
  nb_m1 : frame;
  nb_m2 : frame;
  nb_m3 : frame;
  nb_normWeights : dict (string * string) num;
  nb_weights : dict string num;
  nb_superEdges : dict (string * string) num;
  nb_G : DiGraph;
  nb_cptCombos : dict string (list (list expr));
  nb_leak : series;
  nb_cpts : dict string (list num);
  nb_heap : heap;
  nb_bbnNodes : dict string ref;
  nb_bbnEdges : list Edge;
  nb_dt_base : Bbn;
  nb_rng : rng
}.

Definition prepare (refs : table ref_row) (nodes : table node_row)
  (edges : table edge_row) (numSamples : nat) (g : rng) : result notebook :=
  s1 <- sample_m1 refs numSamples ([], g) ;;
  let '(m1, g1) := s1 in
  s2 <- sample_m2_m3 edges numSamples ([], [], g1) ;;
  let '(m2, m3, g2) := s2 in
  normWeights <- normWeights_cell edges m1 m3 ;;
  weights <- weights_cell edges m1 m3 normWeights ;;
  superEdges <- superEdges_cell edges m2 weights ;;
  let G := G_cell superEdges in
  let cptCombos := cptCombos_cell G in
  let '(leak, g3) := leak_cell numSamples g2 in
  cpts <- cpts_cell nodes cptCombos superEdges leak ;;
  let '(h, bbnNodes) := bbnNodes_cell nodes in
  let bbnEdges := bbnEdges_cell superEdges in
  let dt_base := dt_base_cell h bbnNodes bbnEdges in
  Ok {| nb_m1 := m1; nb_m2 := m2; nb_m3 := m3;
        nb_normWeights := normWeights; nb_weights := weights;
        nb_superEdges := superEdges; nb_G := G;
        nb_cptCombos := cptCombos; nb_leak := leak; nb_cpts := cpts;
        nb_heap := h; nb_bbnNodes := bbnNodes; nb_bbnEdges := bbnEdges;
        nb_dt_base := dt_base; nb_rng := g3 |}.

(** ** The inference loop

    Junction-tree inference is the library's; it is a parameter of the
    development.  It is given the network and the node objects as they are
    when it is called and builds a join tree of its own, from which the
    potential of the target is read; it leaves the network as it is. *)

Definition potential : Type := list Q.

Record env : Type := {
  env_heap : heap;
  env_dt_base : Bbn;
  env_target_probs : list potential
}.

(** [[p[sample] for p in cpts[node_id]] if cpts[node_id] else [1, 0]] *)
Definition probs_of (cpts : dict string (list num)) (node_id : string)
  (sample : nat) : result (list Q) :=
  l <- subscript cpts node_id ;;
  match l with
  | [] => Ok [1; 0]
  | _ :: _ => comprehension (fun p => item p sample) l
  end.

Definition install (cpts : dict string (list num))
  (bbnNodes : dict string ref) (sample : nat) (h : heap) : result heap :=
  for_each bbnNodes
    (fun it h =>
       p <- probs_of cpts (fst it) sample ;;
       Ok (set_probs h (snd it) p))
    h.

Section Inference.
Variable JoinTree : Type.
Variable InferenceController_apply : Bbn -> heap -> JoinTree.
Variable get_bbn_potential : JoinTree -> BbnNode -> potential.

Definition sample_step (cpts : dict string (list num))
  (bbnNodes : dict string ref) (target : ref) (sample : nat) (e : env)
  : result env :=
  h <- install cpts bbnNodes sample (env_heap e) ;;
  let join_tree := InferenceController_apply (env_dt_base e) h in
  Ok {| env_heap := h;
        env_dt_base := env_dt_base e;
        env_target_probs :=
          env_target_probs e
            ++ [get_bbn_potential join_tree (deref h target)] |}.

Definition inference_cell (nb : notebook) (numSamples : nat) : result env :=
  target <- subscript (nb_bbnNodes nb) "tq"%string ;;
  for_each (seq 0 numSamples)
    (sample_step (nb_cpts nb) (nb_bbnNodes nb) target)
    {| env_heap := nb_heap nb;
       env_dt_base := nb_dt_base nb;
       env_target_probs := [] |}.

(** [[t.entries[1].value for t in target_probs]] *)
Definition p_cell (target_probs : list potential) : result (list Q) :=
  comprehension
    (fun t => match nth_error t 1 with
              | Some v => Ok v
              | None => Raise IndexError
              end)
    target_probs.

Definition run (refs : table ref_row) (nodes : table node_row)
  (edges : table edge_row) (numSamples : nat) (g : rng) : result (list Q) :=
  nb <- prepare refs nodes edges numSamples g ;;
  e <- inference_cell nb numSamples ;;
  p_cell (env_target_probs e).
End Inference.

Arguments sample_step {JoinTree} _ _ _ _ _ _ _.
Arguments inference_cell {JoinTree} _ _ _ _.
Arguments run {JoinTree} _ _ _ _ _ _ _.


(** * Specification vocabulary *)

Local Open Scope Q_scope.

(** The generator only ever produces unit variates in [[0, 1)]. *)
Definition unit_variates (g : rng) : Prop := forall i, 0 <= g i /\ g i < 1.

Definition within (lo hi v : Q) : Prop := lo <= v /\ v <= hi.

(** What holds of a column of draws: it has one entry per sample and, when
    the bound pair of its row is valid, every entry is within the bounds. *)
Definition column_ok {Row : Type} (t : table Row) (lo hi : Row -> Q) (n : nat)
  (f : frame) : Prop :=
  forall id s, get f id = Some s ->
    List.length s = n /\
    exists r, get t id = Some r /\ (lo r <= hi r -> Forall (within (lo r) (hi r)) s).

(** The globals of a run whose preparation cells all succeeded, cell by
    cell. *)
Record prepared (refs : table ref_row) (nodes : table node_row)
  (edges : table edge_row) (numSamples : nat) (g prep_g1 prep_g2 : rng)
  (nb : notebook) : Prop := {
  prep_m1 : sample_m1 refs numSamples ([], g) = Ok (nb_m1 nb, prep_g1);
  prep_m23 : sample_m2_m3 edges numSamples ([], [], prep_g1)
             = Ok (nb_m2 nb, nb_m3 nb, prep_g2);
  prep_normWeights : normWeights_cell edges (nb_m1 nb) (nb_m3 nb)
                     = Ok (nb_normWeights nb);
  prep_weights : weights_cell edges (nb_m1 nb) (nb_m3 nb) (nb_normWeights nb)
                 = Ok (nb_weights nb);
  prep_superEdges : superEdges_cell edges (nb_m2 nb) (nb_weights nb)
                    = Ok (nb_superEdges nb);
  prep_G : nb_G nb = G_cell (nb_superEdges nb);
  prep_cptCombos : nb_cptCombos nb = cptCombos_cell (nb_G nb);
  prep_leak : nb_leak nb = fst (leak_cell numSamples prep_g2);
  prep_cpts : cpts_cell nodes (nb_cptCombos nb) (nb_superEdges nb) (nb_leak nb)
              = Ok (nb_cpts nb);
  prep_bbnNodes : bbnNodes_cell nodes = (nb_heap nb, nb_bbnNodes nb);
  prep_bbnEdges : nb_bbnEdges nb = bbnEdges_cell (nb_superEdges nb);
  prep_dt_base : nb_dt_base nb
                 = dt_base_cell (nb_heap nb) (nb_bbnNodes nb) (nb_bbnEdges nb)
}.

Arguments prep_G {refs nodes edges numSamples g prep_g1 prep_g2 nb} p.
Arguments prep_cptCombos {refs nodes edges numSamples g prep_g1 prep_g2 nb} p.
Arguments prep_leak {refs nodes edges numSamples g prep_g1 prep_g2 nb} p.
Arguments prep_bbnNodes {refs nodes edges numSamples g prep_g1 prep_g2 nb} p.
Arguments prep_bbnEdges {refs nodes edges numSamples g prep_g1 prep_g2 nb} p.
Arguments prep_dt_base {refs nodes edges numSamples g prep_g1 prep_g2 nb} p.

(** Every inner dictionary of a graph keeps distinct keys. *)
Definition nbrs_NoDup (G : DiGraph) : Prop :=
  forall n nbrs, get G n = Some nbrs -> NoDup (keys nbrs).

(** The parents of a node, in the order in which the CPT cells see them:
    the keys of the node's entry in the reversed graph. *)
Definition parents (G : DiGraph) (node : string) : list string :=
  keys (get_default (reverse G) node []).

(** The combinations generated for a list of incoming nodes. *)
Definition bools_of (incoming : list string) : list (list expr) :=
  map (combo_of incoming) (product [true; false] (List.length incoming)).

(** The running products of one combination, computed without the leak. *)
Fixpoint partial_products (superEdges : dict (string * string) num)
  (node : string) (combo : list expr) (tmp : num) : list num :=
  match combo with
  | [] => []
  | parent :: rest =>
      let tmp' :=
        if isinstance_Variable parent
        then nmul tmp (nsub (Scalar 1)
                         (get_default superEdges (name parent, node) (Scalar 0)))
        else tmp in
      tmp' :: partial_products superEdges node rest tmp'
  end.

Definition all_products (superEdges : dict (string * string) num)
  (node : string) (combos : list (list expr)) : list num :=
  flat_map (fun combo => partial_products superEdges node combo (Scalar 1))
           combos.

(** The pair of entries appended for one running product. *)
Definition emit (leak : series) (tmps : list num) : list num :=
  flat_map (fun t => [nsub (Scalar 1) (nmul (Series leak) t);
                      nmul (Series leak) t])
           tmps.

(** ** Per-sample views *)

(** A value fits a run of [n] samples when it is a scalar or a Series of
    [n] entries. *)
Definition has_len (n : nat) (v : num) : Prop :=
  match v with
  | Scalar _ => True
  | Series l => List.length l = n
  end.

Definition all_len {K : Type} `{Key K} (n : nat) (d : dict K num) : Prop :=
  forall k v, get d k = Some v -> has_len n v.

(** Every column of a frame has [n] entries. *)
Definition columns_len (n : nat) (f : frame) : Prop :=
  forall id s, get f id = Some s -> List.length s = n.

(** The value a scalar or Series contributes to sample [s]. *)
Definition at_sample (v : num) (s : nat) : Q :=
  match v with
  | Scalar q => q
  | Series l => nth s l 0
  end.

(** [d.get(k, 0)] at sample [s]. *)
Definition value_at {K : Type} `{Key K} (d : dict K num) (k : K) (s : nat) : Q :=
  at_sample (get_default d k (Scalar 0)) s.

(** The draw of column [id] at sample [s]. *)
Definition draw (f : frame) (id : string) (s : nat) : Q :=
  nth s (get_default f id []) 0.

(** The raw weight of an edge at sample [s]: m1 of the edge's source times
    the edge's m3. *)
Definition raw_at (edges : table edge_row) (m1 m3 : frame) (s : nat)
  (edge_id : string) : Q :=
  match get edges edge_id with
  | Some row => draw m1 (ref_id row) s * draw m3 edge_id s
  | None => 0
  end.

(** The pair an edge of the table supports. *)
Definition edge_at (edges : table edge_row) (edge_id : string)
  : string * string :=
  match get edges edge_id with
  | Some row => (parent_id row, child_id row)
  | None => (EmptyString, EmptyString)
  end.

(** The normalised weight of an edge at sample [s]. *)
Definition weight_at (edges : table edge_row) (m1 m3 : frame)
  (normWeights : dict (string * string) num) (s : nat) (edge_id : string) : Q :=
  raw_at edges m1 m3 s edge_id / value_at normWeights (edge_at edges edge_id) s.

Definition edge_is (edges : table edge_row) (e : string * string)
  (edge_id : string) : bool :=
  match get edges edge_id with
  | Some row => keqb (parent_id row, child_id row) e
  | None => false
  end.

(** The edges that contribute to the pair [e], in table order. *)
Definition ids_of (edges : table edge_row) (e : string * string)
  : list string :=
  filter (edge_is edges e) (index edges).

Definition qsum (l : list Q) : Q := fold_right Qplus 0 l.

Definition qmin_list (l : list Q) : Q :=
  match l with
  | [] => 0
  | x :: l' => fold_right Qmin x l'
  end.

Definition qmax_list (l : list Q) : Q :=
  match l with
  | [] => 0
  | x :: l' => fold_right Qmax x l'
  end.

(** The running products of a node at sample [s]; the leak does not occur
    in them. *)
Definition tmps_at (superEdges : dict (string * string) num)
  (cptCombos : dict string (list (list expr))) (node : string) (s : nat)
  : list Q :=
  map (fun t => at_sample t s)
      (all_products superEdges node (get_default cptCombos node [])).

(** The probabilities installed on a node for the leak value [L]. *)
Definition noisy_pairs (L : Q) (ts : list Q) : list Q :=
  match ts with
  | [] => [1; 0]
  | _ :: _ => flat_map (fun t => [1 - L * t; L * t]) ts
  end.

(** Every edge names a reference of the reference table and a child of the
    node table. *)
Definition well_formed (refs : table ref_row) (nodes : table node_row)
  (edges : table edge_row) : Prop :=
  forall id row, get edges id = Some row ->
    In (ref_id row) (index refs) /\ In (child_id row) (index nodes).

(** * A small model instance

    Two evidence streams support [A -> tq] and one supports [B -> tq]; the
    generator always produces [1/2]. *)

Module Example.
Definition refs : table ref_row :=
  [("r1"%string, {| m1A := 0.5; m1B := 0.5 |});
   ("r2"%string, {| m1A := 0.2; m1B := 0.6 |})].

Definition nodes : table node_row :=
  [("A"%string, {| label := "Program design"%string |});
   ("B"%string, {| label := "Procedure quality"%string |});
   ("tq"%string, {| label := "Training quality"%string |})].

Definition edge (p c r : string) (lo2 hi2 lo3 hi3 : Q) : edge_row :=
  {| parent_id := p; child_id := c; ref_id := r;
     m2A := lo2; m2B := hi2; m3A := lo3; m3B := hi3 |}.

Definition edges : table edge_row :=
  [("e1"%string, edge "A" "tq" "r1" 0.8 0.8 1 1);
   ("e2"%string, edge "B" "tq" "r2" 0.5 0.7 0.5 1);
   ("e3"%string, edge "A" "tq" "r2" 0.4 0.6 0.3 0.9)].

Definition numSamples : nat := 2.

Definition g : rng := fun _ => 1 # 2.
End Example.

(** One reference with m1 fixed at 1 and two streams for [A -> tq]: the
    first with m3 fixed at 2 and m2 at 1, the second with m3 fixed at -1 and
    m2 at 0.  Every bound pair is valid. *)
Module MixedSigns.
Definition refs : table ref_row :=
  [("r1"%string, {| m1A := 1; m1B := 1 |})].

Definition nodes : table node_row :=
  [("A"%string, {| label := "Program design"%string |});
   ("tq"%string, {| label := "Training quality"%string |})].

Definition edges : table edge_row :=
  [("e1"%string, Example.edge "A" "tq" "r1" 1 1 2 2);
   ("e2"%string, Example.edge "A" "tq" "r1" 0 0 (-1) (-1))].
End MixedSigns.

(** ** Consistency of a recorded potential *)

Definition potential_sum (t : potential) : Q := qsum t.

(** The entries sum to 1 within the tolerance 1e-9. *)
Definition consistent (t : potential) : Prop :=
  Qabs (potential_sum t - 1) <= 1 # 1000000000.

(** An inference backend that hands back a fixed, unnormalised potential
    whatever network it is given. *)
Module Unnormalised.
Definition JoinTree : Type := heap.
Definition InferenceController_apply (b : Bbn) (h : heap) : JoinTree := h.
Definition get_bbn_potential (t : JoinTree) (n : BbnNode) : potential :=
  [1 # 2; 1 # 4].
End Unnormalised.

(** ** Topological orders *)

(** [order] lists every node of [G] once and every edge goes forward in
    it. *)
Definition topological_order (G : DiGraph) (order : list string) : Prop :=
  NoDup order /\
  (forall n, In n (nx_nodes G) -> In n order) /\
  forall u v, has_edge G u v = true ->
    exists l1 l2 l3, order = l1 ++ u :: l2 ++ v :: l3.

(** A single self-loop on [A]. *)
Module SelfLoop.
Definition refs : table ref_row :=
  [("r1"%string, {| m1A := 0.5; m1B := 0.5 |})].

Definition nodes : table node_row :=
  [("A"%string, {| label := "Program design"%string |})].

Definition edges : table edge_row :=
  [("e1"%string, Example.edge "A" "A" "r1" 0.8 0.8 1 1)].
End SelfLoop.


(** ** Orders of insertion *)

(** Appending a key to a list of distinct keys unless it is there already:
    what assigning to a dictionary does to its list of keys. *)
Definition add_key {K : Type} `{Key K} (acc : list K) (k : K) : list K :=
  if existsb (keqb k) acc then acc else acc ++ [k].

(** The elements of a list without repetition, in the order of their first
    occurrence. *)
Fixpoint nub {K : Type} `{Key K} (l : list K) : list K :=
  match l with
  | [] => []
  | x :: l' => x :: filter (fun y => negb (keqb x y)) (nub l')
  end.

(** The two ends of every pair, parent first. *)
Definition endpoints (es : list (string * string)) : list string :=
  flat_map (fun e => [fst e; snd e]) es.

(** An edge table that names a reference the reference table lacks. *)
Module MissingRef.
Definition edges : table edge_row :=
  [("e1"%string, Example.edge "A" "tq" "r9" 0.8 0.8 1 1)].
End MissingRef.

(** ** Positions in a table of combinations *)

(** Whether combination number [j] of [k] parents asserts the parent at
    position [i]: the binary digit of weight [2 ^ (k - 1 - i)] of [j] is 0,
    so that the first parent is the most significant digit and combination 0
    asserts every parent. *)
Definition asserted (k j i : nat) : bool := Nat.even (j / 2 ^ (k - 1 - i)).

(** The literal of one parent in a combination. *)
Definition literal (b : bool) (parent : string) : expr :=
  if b then ExprVariable parent else ExprComplement parent.

(** ** The noisy-OR loop, one sample at a time *)

(** The running products of one combination at sample [s], computed on
    rationals as the loop [for parent in combo] computes them on Series. *)
Fixpoint running_at (superEdges : dict (string * string) num) (node : string)
  (s : nat) (combo : list expr) (tmp : Q) : list Q :=
  match combo with
  | [] => []
  | parent :: rest =>
      let tmp' :=
        if isinstance_Variable parent
        then tmp * (1 - value_at superEdges (name parent, node) s)
        else tmp in
      tmp' :: running_at superEdges node s rest tmp'
  end.

Definition qprod (l : list Q) : Q := fold_right Qmult 1 l.

(** The factors [1 - strength] of the parents a combination asserts. *)
Definition factors_at (superEdges : dict (string * string) num) (node : string)
  (s : nat) (combo : list expr) : list Q :=
  map (fun parent => 1 - value_at superEdges (name parent, node) s)
      (filter isinstance_Variable combo).

(** ** Bounds that make every quantity a probability *)

(** Every m1 and m3 bound pair is valid and strictly positive, and every m2
    bound pair is valid and within [[0, 1]]. *)
Definition probability_bounds (refs : table ref_row) (edges : table edge_row)
  : Prop :=
  (forall id row, get refs id = Some row ->
     0 < m1A row /\ m1A row <= m1B row) /\
  (forall id row, get edges id = Some row ->
     0 < m3A row /\ m3A row <= m3B row /\
     0 <= m2A row /\ m2A row <= m2B row /\ m2B row <= 1).
(** * Properties *)

(** ** The error monad and loops *)

Lemma bind_Ok {A B : Type} (r : result A) (k : A -> result B) (b : B) :
  bind r k = Ok b -> exists a, r = Ok a /\ k a = Ok b.
Proof.
  destruct r as [a | e]; simpl; intros Hk; [exists a; auto | discriminate].
Qed.

Ltac inv_bind H :=
  let a := fresh "x" in
  let Ha := fresh "Hx" in
  apply bind_Ok in H; destruct H as (a & Ha & H).

Ltac inv_ok H := injection H as H; try subst.

(** An invariant of the loop state that every iteration preserves holds
    when the loop ends. *)
Lemma for_each_inv {A S : Type} (P : S -> Prop) (body : A -> S -> result S)
  (l : list A) :
  (forall x s s', In x l -> P s -> body x s = Ok s' -> P s') ->
  forall s s', P s -> for_each l body s = Ok s' -> P s'.
Proof.
  induction l as [| x l IH]; simpl; intros Hbody s s' Hs Hrun.
  - inv_ok Hrun. assumption.
  - inv_bind Hrun. apply IH with (s := x0); auto.
    + intros y t t' Hy. apply Hbody. auto.
    + apply (Hbody x s); auto.
Qed.

(** A loop whose body never raises on states satisfying the invariant never
    raises. *)
Lemma for_each_total {A S : Type} (P : S -> Prop) (body : A -> S -> result S)
  (l : list A) :
  (forall x s, In x l -> P s -> exists s', body x s = Ok s' /\ P s') ->
  forall s, P s -> exists s', for_each l body s = Ok s' /\ P s'.
Proof.
  induction l as [| x l IH]; simpl; intros Hbody s Hs.
  - eauto.
  - destruct (Hbody x s) as (s1 & Hb & Hs1); auto.
    rewrite Hb; simpl. apply IH; auto.
Qed.

(** ** Dictionaries *)

Section DictFacts.
Context {K V : Type} `{Key K}.
Implicit Types (d : dict K V) (k : K) (v : V).

Lemma keqb_refl k : keqb k k = true.
Proof. destruct (keqb_spec k k); congruence. Qed.

Lemma keqb_neq k k' : k <> k' -> keqb k k' = false.
Proof. destruct (keqb_spec k k'); congruence. Qed.

Lemma get_set_eq d k v : get (set d k v) k = Some v.
Proof.
  induction d as [| [k' v'] d IH]; simpl.
  - rewrite keqb_refl. reflexivity.
  - destruct (keqb_spec k k') as [-> | Hne]; simpl.
    + rewrite keqb_refl. reflexivity.
    + rewrite keqb_neq by assumption. assumption.
Qed.

Lemma get_set_neq d k k' v : k <> k' -> get (set d k v) k' = get d k'.
Proof.
  intros Hne. induction d as [| [k0 v0] d IH]; simpl.
  - rewrite keqb_neq by congruence. reflexivity.
  - destruct (keqb_spec k k0) as [-> | Hne0]; simpl.
    + rewrite keqb_neq by congruence. reflexivity.
    + rewrite IH. reflexivity.
Qed.

Lemma get_set d k k' v :
  get (set d k v) k' = if keqb k k' then Some v else get d k'.
Proof.
  destruct (keqb_spec k k') as [-> | Hne].
  - apply get_set_eq.
  - apply get_set_neq; assumption.
Qed.

Lemma get_In d k v : get d k = Some v -> In (k, v) d.
Proof.
  induction d as [| [k' v'] d IH]; simpl; [discriminate |].
  destruct (keqb_spec k k') as [-> | Hne]; intros Hg.
  - inv_ok Hg. auto.
  - auto.
Qed.

Lemma get_None d k : get d k = None <-> ~ In k (keys d).
Proof.
  induction d as [| [k' v'] d IH]; simpl.
  - tauto.
  - destruct (keqb_spec k k') as [-> | Hne].
    + split; [discriminate | intros Hn; exfalso; auto].
    + rewrite IH. split; intros Hn; [intros [Heq | Hin]; congruence | tauto].
Qed.

Lemma get_Some_keys d k v : get d k = Some v -> In k (keys d).
Proof.
  intros Hg. apply get_In in Hg. apply (in_map fst) in Hg. assumption.
Qed.

Lemma keys_get d k : In k (keys d) -> exists v, get d k = Some v.
Proof.
  intros Hin. destruct (get d k) as [v |] eqn:Hg; [eauto |].
  apply get_None in Hg. contradiction.
Qed.

Lemma In_get d k v : NoDup (keys d) -> In (k, v) d -> get d k = Some v.
Proof.
  induction d as [| [k' v'] d IH]; simpl; intros Hnd Hin; [contradiction |].
  inversion Hnd as [| ? ? Hnotin Hnd']; subst.
  destruct Hin as [Heq | Hin].
  - inv_ok Heq. rewrite keqb_refl. reflexivity.
  - destruct (keqb_spec k k') as [-> | Hne]; [| auto].
    apply (in_map fst) in Hin. contradiction.
Qed.

Lemma contains_true d k : contains d k = true <-> In k (keys d).
Proof.
  unfold contains. destruct (get d k) as [v |] eqn:Hg.
  - split; [intros _; eapply get_Some_keys; eauto | reflexivity].
  - apply get_None in Hg. split; [discriminate | contradiction].
Qed.

Lemma keys_set d k v :
  keys (set d k v) = if contains d k then keys d else keys d ++ [k].
Proof.
  unfold contains. induction d as [| [k' v'] d IH]; simpl; [reflexivity |].
  destruct (keqb_spec k k') as [-> | Hne]; simpl; [reflexivity |].
  fold (keys (set d k v)). rewrite IH.
  destruct (get d k); reflexivity.
Qed.

Lemma In_keys_set d k v k' : In k' (keys (set d k v)) <-> k' = k \/ In k' (keys d).
Proof.
  rewrite keys_set. destruct (contains d k) eqn:Hc.
  - apply contains_true in Hc. split; [auto | intros [-> | Hin]; auto].
  - rewrite in_app_iff; simpl. split; intros Hin; intuition congruence.
Qed.

Lemma NoDup_keys_set d k v : NoDup (keys d) -> NoDup (keys (set d k v)).
Proof.
  intros Hnd. rewrite keys_set. destruct (contains d k) eqn:Hc; [assumption |].
  assert (Hnotin : ~ In k (keys d)).
  { intros Hin. apply contains_true in Hin. congruence. }
  clear Hc. induction (keys d) as [| a l IH]; simpl.
  - constructor; [simpl; tauto | constructor].
  - inversion Hnd as [| ? ? Ha Hnd']; subst. constructor.
    + rewrite in_app_iff; simpl. intros [Hin | [Heq | []]]; [auto |].
      subst. apply Hnotin. simpl; auto.
    + apply IH; [assumption |]. intros Hin. apply Hnotin. simpl; auto.
Qed.

Lemma fromkeys_get (ks : list K) v k :
  get (fromkeys ks v) k = if in_dec (fun x y => reflect_dec _ _ (keqb_spec x y)) k ks
                          then Some v else None.
Proof.
  unfold fromkeys.
  assert (Hgen : forall d0,
    (forall k', In k' (keys d0) -> get d0 k' = Some v) ->
    get (fold_left (fun d k0 => set d k0 v) ks d0) k =
    if in_dec (fun x y => reflect_dec _ _ (keqb_spec x y)) k ks
    then Some v else get d0 k).
  { induction ks as [| k0 ks IH]; intros d0 Hd0; simpl; [reflexivity |].
    rewrite IH.
    - destruct (in_dec _ k ks) as [Hin | Hnin].
      + destruct (reflect_dec _ _ (keqb_spec k0 k)); reflexivity.
      + rewrite get_set.
        destruct (keqb_spec k0 k) as [-> | Hne];
          destruct (reflect_dec _ _ _); try congruence; reflexivity.
    - intros k' Hin. rewrite get_set.
      destruct (keqb_spec k0 k') as [-> | Hne]; [reflexivity |].
      apply Hd0. apply In_keys_set in Hin. destruct Hin; congruence. }
  rewrite Hgen; [| simpl; tauto]. destruct (in_dec _ k ks); reflexivity.
Qed.
End DictFacts.

Lemma for_each_covers {A S : Type} (P : A -> S -> Prop)
  (body : A -> S -> result S) (l : list A) :
  (forall x s s', body x s = Ok s' -> P x s') ->
  (forall x y s s', P y s -> body x s = Ok s' -> P y s') ->
  forall s s', for_each l body s = Ok s' -> forall x, In x l -> P x s'.
Proof.
  intros Hnew Hkeep. induction l as [| a l IH]; simpl; intros s s' Hrun x Hin.
  - contradiction.
  - inv_bind Hrun. destruct Hin as [-> | Hin].
    + revert Hrun. apply for_each_inv with (P := P x); eauto.
    + eapply IH; eauto.
Qed.

Lemma col_Ok {Row A : Type} (t : table Row) (field : Row -> A) (id : string)
  (a : A) :
  col t field id = Ok a -> exists r, get t id = Some r /\ a = field r.
Proof.
  unfold col, subscript. destruct (get t id) as [r |]; simpl; intros Hc.
  - inv_ok Hc. eauto.
  - discriminate.
Qed.

Lemma subscript_Ok {K V : Type} `{Key K} (d : dict K V) (k : K) (v : V) :
  subscript d k = Ok v <-> get d k = Some v.
Proof.
  unfold subscript. destruct (get d k); split; intros Hs;
    try discriminate; inv_ok Hs; reflexivity.
Qed.

(** ** Uncertainty characterization *)




Lemma uniform_length (lo hi : Q) (n : nat) (g : rng) :
  List.length (fst (uniform lo hi n g)) = n.
Proof. simpl. rewrite length_map, length_seq. reflexivity. Qed.

Lemma uniform_within (lo hi : Q) (n : nat) (g : rng) :
  unit_variates g -> lo <= hi -> Forall (within lo hi) (fst (uniform lo hi n g)).
Proof.
  intros Hg Hle. simpl. apply Forall_map, Forall_forall. intros i _.
  destruct (Hg i) as [H0 H1]. unfold within. split; nra.
Qed.


Lemma column_ok_set {Row : Type} (t : table Row) (lo hi : Row -> Q) (n : nat)
  (f : frame) (id : string) (r : Row) (g : rng) :
  unit_variates g -> column_ok t lo hi n f -> get t id = Some r ->
  column_ok t lo hi n (set f id (fst (uniform (lo r) (hi r) n g))).
Proof.
  intros Hg Hf Hr id' s. rewrite get_set.
  destruct (keqb_spec id id') as [<- | Hne]; intros Hs.
  - inv_ok Hs. split; [apply uniform_length |].
    exists r. split; [assumption |]. apply uniform_within; assumption.
  - apply Hf; assumption.
Qed.

Lemma sample_m1_ok (refs : table ref_row) (n : nat) (g g' : rng) (m1 : frame) :
  unit_variates g -> sample_m1 refs n ([], g) = Ok (m1, g') ->
  unit_variates g' /\ column_ok refs m1A m1B n m1 /\
  forall id, In id (index refs) -> In id (keys m1).
Proof.
  intros Hg Hrun. unfold sample_m1 in Hrun.
  pose (body := fun (ref_id : string) (st : frame * rng) =>
       let '(m1, g) := st in
       a <- col refs m1A ref_id ;;
       b <- col refs m1B ref_id ;;
       let '(v, g') := uniform a b n g in
       Ok (set m1 ref_id v, g')).
  assert (Hstep : forall x s s', body x s = Ok s' ->
    exists r, get refs x = Some r /\
      s' = (set (fst s) x (fst (uniform (m1A r) (m1B r) n (snd s))),
            snd (uniform (m1A r) (m1B r) n (snd s)))).
  { intros x [f0 g0] s' Hb. unfold body in Hb.
    inv_bind Hb. inv_bind Hb.
    apply col_Ok in Hx as (r & Hr & ->). apply col_Ok in Hx0 as (r' & Hr' & ->).
    assert (r' = r) by congruence; subst r'.
    exists r. split; [assumption |]. simpl in *. inv_ok Hb. reflexivity. }
  change (for_each (index refs) body ([], g) = Ok (m1, g')) in Hrun.
  assert (Hinv : unit_variates (snd (m1, g')) /\
                 column_ok refs m1A m1B n (fst (m1, g'))).
  { revert Hrun.
    apply for_each_inv with
      (P := fun st : frame * rng =>
              unit_variates (snd st) /\ column_ok refs m1A m1B n (fst st)).
    - intros x s s' _ [Hu Hc] Hb. apply Hstep in Hb as (r & Hr & ->). simpl.
      split; [intros i; apply Hu | apply column_ok_set; assumption].
    - split; [assumption | intros id s; discriminate]. }
  destruct Hinv as [Hu Hc]. split; [assumption | split; [assumption |]].
  intros id Hin.
  apply (for_each_covers (fun x (st : frame * rng) => In x (keys (fst st)))
           body (index refs)) with (s := ([], g)) (s' := (m1, g')) in Hin;
    [assumption | | | assumption].
  - intros x s s' Hb. apply Hstep in Hb as (r & Hr & ->). simpl.
    apply In_keys_set. auto.
  - intros x y s s' Hy Hb. apply Hstep in Hb as (r & Hr & ->). simpl.
    apply In_keys_set. auto.
Qed.

Lemma sample_m2_m3_ok (edges : table edge_row) (n : nat) (g g' : rng)
  (m2 m3 : frame) :
  unit_variates g -> sample_m2_m3 edges n ([], [], g) = Ok (m2, m3, g') ->
  unit_variates g' /\
  column_ok edges m2A m2B n m2 /\ column_ok edges m3A m3B n m3 /\
  forall id, In id (index edges) -> In id (keys m2) /\ In id (keys m3).
Proof.
  intros Hg Hrun. unfold sample_m2_m3 in Hrun.
  pose (body := fun (edge_id : string) (st : frame * frame * rng) =>
       let '(m2, m3, g) := st in
       a2 <- col edges m2A edge_id ;;
       b2 <- col edges m2B edge_id ;;
       let '(v2, g2) := uniform a2 b2 n g in
       a3 <- col edges m3A edge_id ;;
       b3 <- col edges m3B edge_id ;;
       let '(v3, g3) := uniform a3 b3 n g2 in
       Ok (set m2 edge_id v2, set m3 edge_id v3, g3)).
  assert (Hstep : forall x s s', body x s = Ok s' ->
    exists r, get edges x = Some r /\
      let g0 := snd s in
      let g2 := snd (uniform (m2A r) (m2B r) n g0) in
      s' = (set (fst (fst s)) x (fst (uniform (m2A r) (m2B r) n g0)),
            set (snd (fst s)) x (fst (uniform (m3A r) (m3B r) n g2)),
            snd (uniform (m3A r) (m3B r) n g2))).
  { intros x [[f2 f3] g0] s' Hb. unfold body in Hb.
    inv_bind Hb. inv_bind Hb.
    apply col_Ok in Hx as (r & Hr & ->). apply col_Ok in Hx0 as (r' & Hr' & ->).
    assert (r' = r) by congruence; subst r'. simpl in Hb.
    inv_bind Hb. inv_bind Hb.
    apply col_Ok in Hx as (r1 & Hr1 & ->). apply col_Ok in Hx0 as (r2 & Hr2 & ->).
    assert (r1 = r) by congruence; subst r1.
    assert (r2 = r) by congruence; subst r2.
    exists r. split; [assumption |]. simpl in *. inv_ok Hb. reflexivity. }
  change (for_each (index edges) body ([], [], g) = Ok (m2, m3, g')) in Hrun.
  assert (Hinv : unit_variates (snd (m2, m3, g')) /\
                 column_ok edges m2A m2B n (fst (fst (m2, m3, g'))) /\
                 column_ok edges m3A m3B n (snd (fst (m2, m3, g')))).
  { revert Hrun.
    apply for_each_inv with
      (P := fun st : frame * frame * rng =>
              unit_variates (snd st) /\
              column_ok edges m2A m2B n (fst (fst st)) /\
              column_ok edges m3A m3B n (snd (fst st))).
    - intros x s s' _ (Hu & Hc2 & Hc3) Hb.
      apply Hstep in Hb as (r & Hr & ->). cbv zeta. simpl fst; simpl snd.
      split; [intros i; apply Hu |].
      split; [apply column_ok_set with (lo := m2A) (hi := m2B); assumption |].
      apply column_ok_set with (lo := m3A) (hi := m3B); try assumption.
      intros i. apply Hu.
    - split; [assumption |]. split; intros id s; discriminate. }
  destruct Hinv as (Hu & Hc2 & Hc3).
  split; [assumption |]. split; [assumption |]. split; [assumption |].
  intros id Hin.
  apply (for_each_covers
           (fun x (st : frame * frame * rng) =>
              In x (keys (fst (fst st))) /\ In x (keys (snd (fst st))))
           body (index edges)) with (s := ([], [], g)) (s' := (m2, m3, g'))
    in Hin; [assumption | | | assumption].
  - intros x s s' Hb. apply Hstep in Hb as (r & Hr & ->). cbv zeta. simpl.
    split; apply In_keys_set; auto.
  - intros x y s s' [Hy2 Hy3] Hb. apply Hstep in Hb as (r & Hr & ->).
    cbv zeta. simpl. split; apply In_keys_set; auto.
Qed.

(** ** The cells of a successful run *)


Lemma prepare_Ok (refs : table ref_row) (nodes : table node_row)
  (edges : table edge_row) (numSamples : nat) (g : rng) (nb : notebook) :
  prepare refs nodes edges numSamples g = Ok nb ->
  exists g1 g2, prepared refs nodes edges numSamples g g1 g2 nb.
Proof.
  unfold prepare. intros Hp.
  inv_bind Hp. destruct x as [m1 g1].
  inv_bind Hp. destruct x as [[m2 m3] g2].
  inv_bind Hp. inv_bind Hp. inv_bind Hp.
  destruct (leak_cell numSamples g2) as [leak g3] eqn:Hleak.
  inv_bind Hp.
  destruct (bbnNodes_cell nodes) as [h bbnNodes] eqn:Hnodes.
  inv_ok Hp.
  exists g1, g2. constructor; cbn [nb_m1 nb_m2 nb_m3 nb_normWeights nb_weights
    nb_superEdges nb_G nb_cptCombos nb_leak nb_cpts nb_heap nb_bbnNodes
    nb_bbnEdges nb_dt_base]; try assumption; try reflexivity.
  rewrite Hleak. reflexivity.
Qed.

Lemma column_ok_lookup {Row : Type} (t : table Row) (lo hi : Row -> Q)
  (n : nat) (f : frame) (id : string) (r : Row) :
  column_ok t lo hi n f -> In id (keys f) -> get t id = Some r ->
  lo r <= hi r ->
  exists s, get f id = Some s /\ List.length s = n /\
            Forall (within (lo r) (hi r)) s.
Proof.
  intros Hc Hin Hr Hle. apply keys_get in Hin as [s Hs].
  destruct (Hc id s Hs) as (Hlen & r' & Hr' & Hw).
  assert (r' = r) by congruence; subst r'. eauto.
Qed.

Lemma unit_variates_example : unit_variates Example.g.
Proof. intros i. unfold Example.g. split; [discriminate | reflexivity]. Qed.

(** C7.  When the generator produces unit variates and the preparation cells
    succeed, every reference with [m1A <= m1B] has a column of [numSamples]
    draws of m1, each within [[m1A, m1B]]; every edge has such columns for
    m2 within [[m2A, m2B]] and for m3 within [[m3A, m3B]], whenever the bound
    pair is valid; and the [numSamples] leak draws all lie within
    [[0.90, 0.99]]. *)
Theorem draws_within_bounds (refs : table ref_row) (nodes : table node_row)
  (edges : table edge_row) (numSamples : nat) (g : rng) (nb : notebook) :
  unit_variates g ->
  prepare refs nodes edges numSamples g = Ok nb ->
  (forall id r, get refs id = Some r -> m1A r <= m1B r ->
     exists s, get (nb_m1 nb) id = Some s /\ List.length s = numSamples /\
               Forall (within (m1A r) (m1B r)) s) /\
  (forall id r, get edges id = Some r -> m2A r <= m2B r ->
     exists s, get (nb_m2 nb) id = Some s /\ List.length s = numSamples /\
               Forall (within (m2A r) (m2B r)) s) /\
  (forall id r, get edges id = Some r -> m3A r <= m3B r ->
     exists s, get (nb_m3 nb) id = Some s /\ List.length s = numSamples /\
               Forall (within (m3A r) (m3B r)) s) /\
  List.length (nb_leak nb) = numSamples /\
  Forall (within 0.9 0.99) (nb_leak nb).
Proof.
  intros Hg Hp. apply prepare_Ok in Hp as (g1 & g2 & Hp).
  destruct Hp as [H1 H23 _ _ _ _ _ Hleak _ _ _ _].
  apply sample_m1_ok in H1 as (Hg1 & Hc1 & Hk1); [| assumption].
  apply sample_m2_m3_ok in H23 as (Hg2 & Hc2 & Hc3 & Hk23); [| assumption].
  repeat split.
  - intros id r Hr Hle. eapply column_ok_lookup; eauto.
    apply Hk1. eapply get_Some_keys; eauto.
  - intros id r Hr Hle. eapply column_ok_lookup; eauto.
    apply Hk23. eapply get_Some_keys; eauto.
  - intros id r Hr Hle. eapply column_ok_lookup; eauto.
    apply Hk23. eapply get_Some_keys; eauto.
  - rewrite Hleak. apply uniform_length.
  - rewrite Hleak. apply uniform_within; [assumption | discriminate].
Qed.

Lemma draws_within_bounds_witness :
  unit_variates Example.g /\
  exists nb,
    prepare Example.refs Example.nodes Example.edges Example.numSamples
      Example.g = Ok nb /\
    (forall id r, get Example.refs id = Some r -> m1A r <= m1B r ->
       exists s, get (nb_m1 nb) id = Some s /\
                 List.length s = Example.numSamples /\
                 Forall (within (m1A r) (m1B r)) s) /\
    (forall id r, get Example.edges id = Some r -> m2A r <= m2B r ->
       exists s, get (nb_m2 nb) id = Some s /\
                 List.length s = Example.numSamples /\
                 Forall (within (m2A r) (m2B r)) s) /\
    (forall id r, get Example.edges id = Some r -> m3A r <= m3B r ->
       exists s, get (nb_m3 nb) id = Some s /\
                 List.length s = Example.numSamples /\
                 Forall (within (m3A r) (m3B r)) s) /\
    List.length (nb_leak nb) = Example.numSamples /\
    Forall (within 0.9 0.99) (nb_leak nb).
Proof.
  split; [exact unit_variates_example |].
  eexists. split; [vm_compute; reflexivity |].
  apply (draws_within_bounds Example.refs Example.nodes Example.edges
           Example.numSamples Example.g _ unit_variates_example).
  vm_compute; reflexivity.
Defined.

(** ** The causal graph *)

Lemma get_default_get {K V : Type} `{Key K} (d : dict K V) (k : K) (v dflt : V) :
  get d k = Some v -> get_default d k dflt = v.
Proof. unfold get_default. intros ->. reflexivity. Qed.

Lemma has_edge_spec (G : DiGraph) (u v : string) :
  has_edge G u v = true <->
  exists nbrs, get G u = Some nbrs /\ In v (keys nbrs).
Proof.
  unfold has_edge, get_default. rewrite contains_true.
  destruct (get G u) as [nbrs |]; simpl.
  - split; [eauto | intros (n & Hn & Hin); congruence].
  - split; [contradiction | intros (n & Hn & _); discriminate].
Qed.

Lemma get_nx_add_node (G : DiGraph) (n m : string) :
  get (nx_add_node G n) m =
  match get G m with
  | Some nbrs => Some nbrs
  | None => if keqb n m then Some [] else None
  end.
Proof.
  unfold nx_add_node, contains.
  destruct (get G n) as [x |] eqn:Hn.
  - destruct (get G m) eqn:Hm; [reflexivity |].
    destruct (keqb_spec n m) as [-> | Hne]; [congruence | reflexivity].
  - rewrite get_set. destruct (keqb_spec n m) as [-> | Hne].
    + rewrite Hn. reflexivity.
    + destruct (get G m); reflexivity.
Qed.

Lemma keys_nx_add_node (G : DiGraph) (n m : string) :
  In m (keys (nx_add_node G n)) <-> m = n \/ In m (keys G).
Proof.
  unfold nx_add_node. destruct (contains G n) eqn:Hc.
  - apply contains_true in Hc. split; [auto | intros [-> | Hin]; auto].
  - apply In_keys_set.
Qed.

Lemma NoDup_nx_add_node (G : DiGraph) (n : string) :
  NoDup (keys G) -> NoDup (keys (nx_add_node G n)).
Proof.
  unfold nx_add_node. destruct (contains G n); [auto |].
  apply NoDup_keys_set.
Qed.

Lemma get_nx_add_edge (G : DiGraph) (a b m : string) :
  get (nx_add_edge G (a, b)) m =
  if keqb a m then Some (set (get_default G a []) b tt)
  else match get G m with
       | Some nbrs => Some nbrs
       | None => if keqb b m then Some [] else None
       end.
Proof.
  unfold nx_add_edge. rewrite get_set.
  destruct (keqb_spec a m) as [-> | Hne].
  - f_equal. f_equal. unfold get_default. rewrite !get_nx_add_node.
    rewrite keqb_refl. destruct (get G m); [reflexivity |].
    destruct (keqb b m); reflexivity.
  - rewrite !get_nx_add_node. rewrite (keqb_neq _ _ Hne).
    destruct (get G m); reflexivity.
Qed.

Lemma keys_nx_add_edge (G : DiGraph) (a b m : string) :
  In m (keys (nx_add_edge G (a, b))) <-> m = a \/ m = b \/ In m (keys G).
Proof.
  unfold nx_add_edge. rewrite In_keys_set, !keys_nx_add_node. tauto.
Qed.

Lemma NoDup_nx_add_edge (G : DiGraph) (e : string * string) :
  NoDup (keys G) -> NoDup (keys (nx_add_edge G e)).
Proof.
  destruct e as [a b]. intros Hnd. unfold nx_add_edge.
  apply NoDup_keys_set. do 2 apply NoDup_nx_add_node. assumption.
Qed.

Lemma has_edge_nx_add_edge (G : DiGraph) (a b u v : string) :
  has_edge (nx_add_edge G (a, b)) u v = true <->
  (u = a /\ v = b) \/ has_edge G u v = true.
Proof.
  rewrite !has_edge_spec. rewrite get_nx_add_edge.
  destruct (keqb_spec a u) as [-> | Hne].
  - split.
    + intros (nbrs & Hn & Hin). inv_ok Hn. apply In_keys_set in Hin.
      destruct Hin as [-> | Hin]; [auto |]. right.
      unfold get_default in Hin. destruct (get G u) as [x |]; [eauto |].
      simpl in Hin. contradiction.
    + intros [[_ ->] | (nbrs & Hn & Hin)].
      * eexists. split; [reflexivity |]. apply In_keys_set. auto.
      * eexists. split; [reflexivity |]. apply In_keys_set. right.
        rewrite (get_default_get _ _ _ _ Hn). assumption.
  - split.
    + intros (nbrs & Hn & Hin). right. destruct (get G u) as [x |].
      * inv_ok Hn. eauto.
      * destruct (keqb b u); [| discriminate]. inv_ok Hn. contradiction.
    + intros [[-> _] | (nbrs & Hn & Hin)]; [congruence |].
      rewrite Hn. eauto.
Qed.

Lemma nbrs_NoDup_nx_add_node (G : DiGraph) (n : string) :
  nbrs_NoDup G -> nbrs_NoDup (nx_add_node G n).
Proof.
  intros HG m nbrs. rewrite get_nx_add_node.
  destruct (get G m) as [x |] eqn:Hm.
  - intros Heq. inv_ok Heq. eauto.
  - destruct (keqb n m); [| discriminate]. intros Heq. inv_ok Heq. constructor.
Qed.

Lemma nbrs_NoDup_nx_add_edge (G : DiGraph) (e : string * string) :
  nbrs_NoDup G -> nbrs_NoDup (nx_add_edge G e).
Proof.
  destruct e as [a b]. intros HG m nbrs. rewrite get_nx_add_edge.
  destruct (keqb a m).
  - intros Heq. inv_ok Heq. apply NoDup_keys_set.
    unfold get_default. destruct (get G a) as [x |] eqn:Ha; [eauto | constructor].
  - destruct (get G m) as [x |] eqn:Hm.
    + intros Heq. inv_ok Heq. eauto.
    + destruct (keqb b m); [| discriminate]. intros Heq. inv_ok Heq. constructor.
Qed.

Lemma add_edges_from_spec (es : list (string * string)) (G : DiGraph) :
  NoDup (keys G) -> nbrs_NoDup G ->
  let G' := add_edges_from G es in
  NoDup (keys G') /\ nbrs_NoDup G' /\
  (forall u v, has_edge G' u v = true <-> In (u, v) es \/ has_edge G u v = true) /\
  (forall n, In n (keys G') <->
             (exists u v, In (u, v) es /\ (n = u \/ n = v)) \/ In n (keys G)).
Proof.
  revert G. induction es as [| [a b] es IH]; intros G Hnd Hnb; simpl.
  - repeat split; auto; try tauto.
    + intros [(u & v & [] & _) | Hin]; assumption.
  - destruct (IH (nx_add_edge G (a, b))) as (H1 & H2 & H3 & H4).
    + apply NoDup_nx_add_edge; assumption.
    + apply nbrs_NoDup_nx_add_edge; assumption.
    + unfold add_edges_from in *. repeat split; try assumption.
      * intros Hh. apply H3 in Hh. rewrite has_edge_nx_add_edge in Hh.
        destruct Hh as [Hin | [[-> ->] | Hh]]; auto.
      * intros Hh. apply H3. rewrite has_edge_nx_add_edge.
        destruct Hh as [[Heq | Hin] | Hh]; auto.
        inv_ok Heq. auto.
      * intros Hn. apply H4 in Hn. rewrite keys_nx_add_edge in Hn.
        destruct Hn as [(u & v & Hin & Huv) | [-> | [-> | Hn]]]; auto.
        -- left. exists u, v. auto.
        -- left. exists a, b. auto.
        -- left. exists a, b. auto.
      * intros Hn. apply H4. rewrite keys_nx_add_edge.
        destruct Hn as [(u & v & [Heq | Hin] & Huv) | Hn]; auto.
        -- inv_ok Heq. right. tauto.
        -- left. exists u, v. auto.
Qed.

Lemma G_cell_spec {V : Type} (superEdges : dict (string * string) V) :
  let G := G_cell superEdges in
  NoDup (keys G) /\ nbrs_NoDup G /\
  (forall u v, has_edge G u v = true <-> In (u, v) (keys superEdges)) /\
  (forall n, In n (nx_nodes G) <->
             exists u v, In (u, v) (keys superEdges) /\ (n = u \/ n = v)).
Proof.
  destruct (add_edges_from_spec (keys superEdges) [])
    as (H1 & H2 & H3 & H4); [constructor | intros n nbrs; discriminate |].
  unfold G_cell, nx_nodes. repeat split; try assumption.
  - intros Hh. apply H3 in Hh. destruct Hh as [Hin | Hh]; [assumption |].
    discriminate.
  - intros Hin. apply H3. auto.
  - intros Hn. apply H4 in Hn. destruct Hn as [Hn | []]. assumption.
  - intros Hn. apply H4. auto.
Qed.

Lemma add_nodes_from_spec (ns : list string) (G : DiGraph) :
  NoDup (keys G) -> nbrs_NoDup G ->
  let G' := add_nodes_from G ns in
  NoDup (keys G') /\ nbrs_NoDup G' /\
  (forall u v, has_edge G' u v = has_edge G u v) /\
  (forall n, In n (keys G') <-> In n ns \/ In n (keys G)).
Proof.
  revert G. induction ns as [| a ns IH]; intros G Hnd Hnb; simpl.
  - repeat split; auto; tauto.
  - destruct (IH (nx_add_node G a)) as (H1 & H2 & H3 & H4).
    + apply NoDup_nx_add_node; assumption.
    + apply nbrs_NoDup_nx_add_node; assumption.
    + unfold add_nodes_from in *. repeat split; try assumption.
      * intros u v. rewrite H3. unfold has_edge, get_default.
        rewrite get_nx_add_node. destruct (get G u); [reflexivity |].
        destruct (keqb a u); reflexivity.
      * intros Hn. apply H4 in Hn. rewrite keys_nx_add_node in Hn.
        destruct Hn as [Hn | [-> | Hn]]; auto.
      * intros Hn. apply H4. rewrite keys_nx_add_node.
        destruct Hn as [[-> | Hn] | Hn]; auto.
Qed.

Lemma nx_edges_spec (G : DiGraph) (u v : string) :
  NoDup (keys G) -> In (u, v) (nx_edges G) <-> has_edge G u v = true.
Proof.
  intros Hnd. rewrite has_edge_spec. unfold nx_edges. rewrite in_flat_map.
  split.
  - intros ([u' nbrs] & Hin & Hm). simpl in Hm. apply in_map_iff in Hm.
    destruct Hm as (w & Heq & Hw). inv_ok Heq.
    exists nbrs. split; [apply In_get; assumption | assumption].
  - intros (nbrs & Hg & Hin). exists (u, nbrs). split; [apply get_In; auto |].
    simpl. apply in_map_iff. eauto.
Qed.

Lemma reverse_spec (G : DiGraph) :
  NoDup (keys G) ->
  let H := reverse G in
  NoDup (keys H) /\ nbrs_NoDup H /\
  (forall v u, has_edge H v u = true <-> has_edge G u v = true).
Proof.
  intros Hnd. unfold reverse.
  destruct (add_nodes_from_spec (nx_nodes G) [])
    as (H1 & H2 & H3 & _); [constructor | intros n nbrs; discriminate |].
  destruct (add_edges_from_spec
              (map (fun e => (snd e, fst e)) (nx_edges G))
              (add_nodes_from [] (nx_nodes G)) H1 H2) as (H5 & H6 & H7 & _).
  repeat split; try assumption.
  - intros Hh. apply H7 in Hh. destruct Hh as [Hin | Hh].
    + apply in_map_iff in Hin. destruct Hin as ([a b] & Heq & Hin).
      simpl in Heq. inv_ok Heq. apply nx_edges_spec; assumption.
    + rewrite H3 in Hh. discriminate.
  - intros Hh. apply H7. left. apply in_map_iff. exists (u, v).
    split; [reflexivity | apply nx_edges_spec; assumption].
Qed.

(** The incoming list of a node enumerates its parents without repetition. *)
Lemma parents_spec (G : DiGraph) (node : string) :
  NoDup (keys G) ->
  NoDup (parents G node) /\
  forall u, In u (parents G node) <-> has_edge G u node = true.
Proof.
  intros Hnd. destruct (reverse_spec G Hnd) as (H1 & H2 & H3).
  unfold parents, get_default.
  destruct (get (reverse G) node) as [nbrs |] eqn:Hg.
  - split; [eapply H2; eauto |]. intros u. rewrite <- H3, has_edge_spec.
    split; [eauto | intros (n & Hn & Hin); congruence].
  - split; [constructor |]. intros u. rewrite <- H3, has_edge_spec.
    split; [contradiction | intros (n & Hn & _); congruence].
Qed.

Lemma set_fresh {K V : Type} `{Key K} (d : dict K V) (k : K) (v : V) :
  ~ In k (keys d) -> set d k v = d ++ [(k, v)].
Proof.
  induction d as [| [k' v'] d IH]; simpl; intros Hn; [reflexivity |].
  destruct (keqb_spec k k') as [-> | Hne]; [exfalso; auto |].
  rewrite IH by tauto. reflexivity.
Qed.

Lemma fold_set_map {K A V : Type} `{Key K} (f : K * A -> V)
  (items : list (K * A)) (d0 : dict K V) :
  NoDup (keys d0 ++ map fst items) ->
  fold_left (fun d it => set d (fst it) (f it)) items d0 =
  d0 ++ map (fun it => (fst it, f it)) items.
Proof.
  revert d0. induction items as [| it items IH]; intros d0 Hnd; simpl.
  - rewrite app_nil_r. reflexivity.
  - assert (Hfresh : ~ In (fst it) (keys d0)).
    { apply NoDup_remove_2 in Hnd. rewrite in_app_iff in Hnd. tauto. }
    rewrite set_fresh by assumption. rewrite IH.
    + rewrite <- app_assoc. reflexivity.
    + unfold keys. rewrite map_app. simpl. rewrite <- app_assoc. assumption.
Qed.

Lemma get_map_values {K A V : Type} `{Key K} (f : K * A -> V)
  (d : dict K A) (k : K) :
  get (map (fun it => (fst it, f it)) d) k =
  option_map (fun a => f (k, a)) (get d k).
Proof.
  induction d as [| [k' a] d IH]; simpl; [reflexivity |].
  destruct (keqb_spec k k') as [-> | Hne]; [reflexivity | assumption].
Qed.

Lemma cptCombos_get (G : DiGraph) (node : string) :
  NoDup (keys G) ->
  NoDup (keys (cptCombos_cell G)) /\
  get (cptCombos_cell G) node =
  option_map (fun nbrs => bools_of (keys nbrs)) (get (reverse G) node).
Proof.
  intros Hnd. destruct (reverse_spec G Hnd) as (H1 & _ & _).
  unfold cptCombos_cell, adjacency.
  rewrite (fold_set_map
             (fun adj : string * dict string unit =>
                map (combo_of (keys (snd adj)))
                    (product [true; false] (List.length (keys (snd adj)))))
             (reverse G) []) by exact H1.
  simpl. split.
  - unfold keys. rewrite map_map. simpl. exact H1.
  - rewrite get_map_values. reflexivity.
Qed.

(** ** Conditional probability tables *)

Lemma emit_app (leak : series) (a b : list num) :
  emit leak (a ++ b) = emit leak a ++ emit leak b.
Proof. unfold emit. apply flat_map_app. Qed.

Lemma cpt_parent_step_Ok (superEdges : dict (string * string) num)
  (leak : series) (node : string) (parent : expr) (tmp tmp' : num)
  (cpts cpts' : dict string (list num)) :
  cpt_parent_step superEdges leak node parent (tmp, cpts) = Ok (tmp', cpts') ->
  partial_products superEdges node [parent] tmp = [tmp'] /\
  exists l, get cpts node = Some l /\
            cpts' = set cpts node (l ++ emit leak [tmp']).
Proof.
  unfold cpt_parent_step. intros Hs. inv_bind Hs. inv_bind Hs. inv_ok Hs.
  apply subscript_Ok in Hx0. split; [| eauto].
  simpl. destruct (isinstance_Variable parent).
  - inv_bind Hx. inv_ok Hx. apply subscript_Ok in Hx1.
    rewrite (get_default_get _ _ _ _ Hx1). reflexivity.
  - inv_ok Hx. reflexivity.
Qed.

Lemma cpt_parent_loop (superEdges : dict (string * string) num)
  (leak : series) (node : string) (combo : list expr) :
  forall tmp cpts st,
    for_each combo (cpt_parent_step superEdges leak node) (tmp, cpts) = Ok st ->
    (forall n, n <> node -> get (snd st) n = get cpts n) /\
    get (snd st) node =
    option_map
      (fun l => l ++ emit leak (partial_products superEdges node combo tmp))
      (get cpts node).
Proof.
  induction combo as [| parent combo IH]; intros tmp cpts st Hrun.
  - simpl in Hrun. inv_ok Hrun. simpl. split; [reflexivity |].
    destruct (get cpts node); simpl; [rewrite app_nil_r |]; reflexivity.
  - simpl in Hrun. inv_bind Hrun. destruct x as [tmp1 cpts1].
    apply cpt_parent_step_Ok in Hx as (Hpp & l & Hl & ->).
    apply IH in Hrun as [Hother Hnode]. split.
    + intros n Hn. rewrite Hother by assumption.
      apply get_set_neq. congruence.
    + rewrite Hnode, get_set_eq, Hl. simpl in *.
      inv_ok Hpp. rewrite <- app_assoc. reflexivity.
Qed.

Lemma cpt_combo_loop (superEdges : dict (string * string) num)
  (leak : series) (node : string) (combos : list (list expr)) :
  forall cpts cpts',
    for_each combos (cpt_combo_step superEdges leak node) cpts = Ok cpts' ->
    (forall n, n <> node -> get cpts' n = get cpts n) /\
    get cpts' node =
    option_map
      (fun l => l ++ emit leak (all_products superEdges node combos))
      (get cpts node).
Proof.
  induction combos as [| combo combos IH]; intros cpts cpts' Hrun.
  - simpl in Hrun. inv_ok Hrun. split; [reflexivity |].
    destruct (get cpts' node); simpl; [rewrite app_nil_r |]; reflexivity.
  - simpl in Hrun. inv_bind Hrun. unfold cpt_combo_step in Hx.
    inv_bind Hx. inv_ok Hx. apply cpt_parent_loop in Hx0 as [Hother Hnode].
    apply IH in Hrun as [Hother' Hnode']. split.
    + intros n Hn. rewrite Hother', Hother by assumption. reflexivity.
    + rewrite Hnode', Hnode. unfold all_products. simpl.
      destruct (get cpts node); simpl; [| reflexivity].
      rewrite emit_app, app_assoc. reflexivity.
Qed.

Lemma cpts_loop (superEdges : dict (string * string) num) (leak : series)
  (items : dict string (list (list expr))) :
  NoDup (keys items) ->
  forall cpts cpts',
    for_each items
      (fun item cpts =>
         for_each (snd item) (cpt_combo_step superEdges leak (fst item)) cpts)
      cpts = Ok cpts' ->
    forall n,
      get cpts' n =
      option_map
        (fun l => l ++ emit leak (all_products superEdges n
                                    (get_default items n [])))
        (get cpts n).
Proof.
  induction items as [| [node combos] items IH]; intros Hnd cpts cpts' Hrun n.
  - simpl in Hrun. inv_ok Hrun.
    destruct (get cpts' n); simpl; [rewrite app_nil_r |]; reflexivity.
  - simpl in Hrun. inv_bind Hrun. simpl in Hx.
    apply cpt_combo_loop in Hx as [Hother Hnode].
    inversion Hnd as [| ? ? Hfresh Hnd']; subst.
    rewrite (IH Hnd' _ _ Hrun n). unfold get_default. simpl.
    destruct (String.eqb_spec n node) as [-> | Hne].
    + apply get_None in Hfresh. rewrite Hfresh, Hnode. simpl.
      destruct (get cpts node); simpl; [rewrite app_nil_r |]; reflexivity.
    + rewrite Hother by assumption. reflexivity.
Qed.

Lemma fromkeys_In {K V : Type} `{Key K} (ks : list K) (v : V) (k : K) :
  In k ks -> get (fromkeys ks v) k = Some v.
Proof.
  intros Hin. rewrite fromkeys_get. destruct (in_dec _ k ks); tauto.
Qed.

(** The stored table of a node of the node table: the pairs emitted for the
    running products of each of its combinations. *)
Lemma cpts_spec (refs : table ref_row) (nodes : table node_row)
  (edges : table edge_row) (numSamples : nat) (g g1 g2 : rng) (nb : notebook)
  (node : string) :
  prepared refs nodes edges numSamples g g1 g2 nb ->
  In node (index nodes) ->
  get (nb_cpts nb) node =
  Some (emit (nb_leak nb)
          (all_products (nb_superEdges nb) node
             (get_default (nb_cptCombos nb) node []))).
Proof.
  intros Hp Hin. destruct Hp as [_ _ _ _ _ HG Hcc _ Hcpts _ _ _].
  unfold cpts_cell in Hcpts.
  assert (Hnd : NoDup (keys (nb_cptCombos nb))).
  { rewrite Hcc, HG. apply cptCombos_get with (node := node).
    apply (G_cell_spec (nb_superEdges nb)). }
  rewrite (cpts_loop _ _ _ Hnd _ _ Hcpts node).
  rewrite fromkeys_In by assumption. reflexivity.
Qed.

Lemma emit_length (leak : series) (ts : list num) :
  List.length (emit leak ts) = (2 * List.length ts)%nat.
Proof.
  unfold emit. induction ts as [| t ts IH]; simpl; [reflexivity |].
  simpl in IH. rewrite IH. lia.
Qed.

Lemma partial_products_length (superEdges : dict (string * string) num)
  (node : string) (combo : list expr) (tmp : num) :
  List.length (partial_products superEdges node combo tmp) = List.length combo.
Proof.
  revert tmp. induction combo as [| p combo IH]; intros tmp; simpl;
    [reflexivity | rewrite IH; reflexivity].
Qed.

Lemma all_products_length (superEdges : dict (string * string) num)
  (node : string) (combos : list (list expr)) (k : nat) :
  (forall c, In c combos -> List.length c = k) ->
  List.length (all_products superEdges node combos)
  = (List.length combos * k)%nat.
Proof.
  unfold all_products. induction combos as [| c combos IH]; intros Hk; simpl;
    [reflexivity |].
  rewrite length_app, partial_products_length.
  rewrite IH by (intros c' Hc'; apply Hk; right; exact Hc').
  rewrite (Hk c) by (left; reflexivity). reflexivity.
Qed.

Lemma product_length {A : Type} (vals : list A) (k : nat) :
  List.length (product vals k) = (List.length vals ^ k)%nat.
Proof.
  induction k as [| k IH]; simpl; [reflexivity |].
  rewrite <- IH. clear IH. generalize (product vals k) as L. intros L.
  induction vals as [| x vals IHv]; simpl; [reflexivity |].
  rewrite length_app, length_map, IHv. reflexivity.
Qed.

Lemma product_In_length {A : Type} (vals : list A) (k : nat) (t : list A) :
  In t (product vals k) -> List.length t = k.
Proof.
  revert t. induction k as [| k IH]; simpl; intros t Hin.
  - destruct Hin as [<- | []]. reflexivity.
  - apply in_flat_map in Hin as (x & _ & Hin).
    apply in_map_iff in Hin as (t' & <- & Hin). simpl. f_equal. auto.
Qed.

Lemma bools_of_length (incoming : list string) :
  List.length (bools_of incoming) = (2 ^ List.length incoming)%nat /\
  forall c, In c (bools_of incoming) -> List.length c = List.length incoming.
Proof.
  unfold bools_of. split.
  - rewrite length_map, product_length. reflexivity.
  - intros c Hin. apply in_map_iff in Hin as (t & <- & Hin).
    unfold combo_of. rewrite length_map, length_seq.
    eapply product_In_length; eauto.
Qed.

Lemma cptCombos_products_length (superEdges : dict (string * string) num)
  (G : DiGraph) (node : string) :
  NoDup (keys G) ->
  List.length
    (all_products superEdges node (get_default (cptCombos_cell G) node []))
  = (List.length (parents G node) * 2 ^ List.length (parents G node))%nat.
Proof.
  intros Hnd. destruct (cptCombos_get G node Hnd) as [_ Hget].
  unfold get_default, parents. rewrite Hget. unfold get_default.
  destruct (get (reverse G) node) as [nbrs |]; simpl; [| reflexivity].
  destruct (bools_of_length (keys nbrs)) as [Hn Hk].
  rewrite (all_products_length _ _ _ _ Hk), Hn. lia.
Qed.

Lemma NoDup_same_length {A : Type} (l1 l2 : list A) :
  NoDup l1 -> NoDup l2 -> (forall x, In x l1 <-> In x l2) ->
  List.length l1 = List.length l2.
Proof.
  intros H1 H2 Hiff. apply Nat.le_antisymm; apply NoDup_incl_length;
    try assumption; intros x Hx; apply Hiff; assumption.
Qed.

(** C10.  In a run whose preparation cells succeed, take a node of the node
    table and any duplicate-free list [ps] of its parents in the graph
    (empty when the node has no parent or is not in the graph at all).  The
    list stored for the node in [cpts] has exactly [2 * k * 2^k] entries,
    [k] being the number of parents; in particular it is empty when
    [k = 0]. *)
Theorem cpt_entry_count (refs : table ref_row) (nodes : table node_row)
  (edges : table edge_row) (numSamples : nat) (g : rng) (nb : notebook)
  (node : string) (ps : list string) :
  prepare refs nodes edges numSamples g = Ok nb ->
  In node (index nodes) ->
  NoDup ps ->
  (forall u, In u ps <-> has_edge (nb_G nb) u node = true) ->
  exists l, get (nb_cpts nb) node = Some l /\
            List.length l = (2 * List.length ps * 2 ^ List.length ps)%nat /\
            (ps = [] -> l = []).
Proof.
  intros Hp Hin Hnd Hps. apply prepare_Ok in Hp as (g1 & g2 & Hp).
  pose proof (cpts_spec _ _ _ _ _ _ _ _ node Hp Hin) as Hget.
  destruct Hp as [_ _ _ _ _ HG Hcc _ _ _ _ _].
  assert (HndG : NoDup (keys (nb_G nb))).
  { rewrite HG. apply (G_cell_spec (nb_superEdges nb)). }
  destruct (parents_spec (nb_G nb) node HndG) as [Hnd' Hps'].
  assert (Hlen : List.length ps = List.length (parents (nb_G nb) node)).
  { apply NoDup_same_length; try assumption.
    intros u. rewrite Hps, Hps'. reflexivity. }
  eexists. split; [exact Hget |].
  assert (Hcount :
    List.length
      (emit (nb_leak nb)
         (all_products (nb_superEdges nb) node
            (get_default (nb_cptCombos nb) node [])))
    = (2 * List.length ps * 2 ^ List.length ps)%nat).
  { rewrite emit_length, Hcc, cptCombos_products_length by assumption.
    rewrite <- Hlen. lia. }
  split; [exact Hcount |].
  intros ->. simpl in Hcount. apply length_zero_iff_nil. exact Hcount.
Qed.

Lemma cpt_entry_count_witness :
  exists nb l,
    prepare Example.refs Example.nodes Example.edges Example.numSamples
      Example.g = Ok nb /\
    get (nb_cpts nb) "tq"%string = Some l /\ List.length l = 16%nat.
Proof.
  destruct (cpt_entry_count Example.refs Example.nodes Example.edges
              Example.numSamples Example.g
              (match prepare Example.refs Example.nodes Example.edges
                       Example.numSamples Example.g with
               | Ok nb => nb
               | Raise _ =>
                   {| nb_m1 := []; nb_m2 := []; nb_m3 := [];
                      nb_normWeights := []; nb_weights := [];
                      nb_superEdges := []; nb_G := []; nb_cptCombos := [];
                      nb_leak := []; nb_cpts := []; nb_heap := [];
                      nb_bbnNodes := []; nb_bbnEdges := [];
                      nb_dt_base := Bbn_new; nb_rng := Example.g |}
               end)
              "tq"%string ["A"; "B"]%string) as (l & Hl & Hlen & _).
  - vm_compute. reflexivity.
  - vm_compute. auto.
  - repeat constructor; simpl; intuition discriminate.
  - intros u. set (G := nb_G _). vm_compute in G. subst G.
    unfold has_edge, get_default, contains. cbn [get].
    destruct (keqb_spec u "A"%string) as [-> | HA]; [simpl; tauto |].
    destruct (keqb_spec u "tq"%string) as [-> | Ht];
      [simpl; intuition discriminate |].
    destruct (keqb_spec u "B"%string) as [-> | HB]; [simpl; tauto |].
    simpl. intuition congruence.
  - eexists. exists l. split; [vm_compute; reflexivity |]. split; assumption.
Defined.

(** ** Broadcasting *)

Lemma zip_with_length (f : Q -> Q -> Q) (l r : series) (n : nat) :
  List.length l = n -> List.length r = n -> List.length (zip_with f l r) = n.
Proof.
  revert r n. induction l as [| x l IH]; intros [| y r] n Hl Hr; simpl in *;
    try congruence.
  subst n. f_equal. apply IH; congruence.
Qed.

Lemma nth_zip_with (f : Q -> Q -> Q) (l r : series) (s : nat) :
  (s < List.length l)%nat -> (s < List.length r)%nat ->
  nth s (zip_with f l r) 0 = f (nth s l 0) (nth s r 0).
Proof.
  revert r s. induction l as [| x l IH]; intros [| y r] [| s] Hl Hr;
    simpl in *; try lia; [reflexivity |].
  apply IH; lia.
Qed.

Lemma nth_map_Q (f : Q -> Q) (l : series) (s : nat) :
  (s < List.length l)%nat -> nth s (map f l) 0 = f (nth s l 0).
Proof.
  intros Hs. rewrite (nth_indep _ 0 (f 0)) by (rewrite length_map; assumption).
  apply map_nth.
Qed.

Lemma broadcast_has_len (f : Q -> Q -> Q) (a b : num) (n : nat) :
  has_len n a -> has_len n b -> has_len n (broadcast f a b).
Proof.
  destruct a as [x | l], b as [y | r]; simpl; intros Ha Hb; auto.
  - rewrite length_map. assumption.
  - rewrite length_map. assumption.
  - apply zip_with_length; assumption.
Qed.

Lemma broadcast_at (f : Q -> Q -> Q) (a b : num) (n s : nat) :
  (s < n)%nat -> has_len n a -> has_len n b ->
  at_sample (broadcast f a b) s = f (at_sample a s) (at_sample b s).
Proof.
  destruct a as [x | l], b as [y | r]; simpl; intros Hs Ha Hb; auto.
  - apply (nth_map_Q (fun y => f x y)). lia.
  - apply (nth_map_Q (fun x => f x y)). lia.
  - apply nth_zip_with; lia.
Qed.

Lemma item_Series (l : series) (n s : nat) :
  List.length l = n -> (s < n)%nat -> item (Series l) s = Ok (nth s l 0).
Proof.
  intros Hl Hs. simpl. destruct (nth_error l s) as [q |] eqn:Hn.
  - rewrite (nth_error_nth _ _ _ Hn). reflexivity.
  - apply nth_error_None in Hn. lia.
Qed.

Lemma all_len_set {K : Type} `{Key K} (n : nat) (d : dict K num) (k : K)
  (v : num) :
  all_len n d -> has_len n v -> all_len n (set d k v).
Proof.
  intros Hd Hv k' v'. rewrite get_set. destruct (keqb k k').
  - intros Heq. inv_ok Heq. assumption.
  - apply Hd.
Qed.

Lemma has_len_get_default {K : Type} `{Key K} (n : nat) (d : dict K num)
  (k : K) (q : Q) :
  all_len n d -> has_len n (get_default d k (Scalar q)).
Proof.
  intros Hd. unfold get_default. destruct (get d k) eqn:Hg; simpl; eauto.
Qed.

(** ** Aggregating edges *)

Lemma raw_weight_Ok (edges : table edge_row) (m1 m3 : frame) (id : string)
  (w : num) (n s : nat) :
  columns_len n m1 -> columns_len n m3 -> (s < n)%nat ->
  raw_weight edges m1 m3 id = Ok w ->
  has_len n w /\ at_sample w s = raw_at edges m1 m3 s id.
Proof.
  intros H1 H3 Hs Hw. unfold raw_weight in Hw.
  inv_bind Hw. inv_bind Hw. inv_bind Hw. inv_ok Hw.
  apply col_Ok in Hx as (row & Hrow & ->).
  apply subscript_Ok in Hx0, Hx1.
  pose proof (H1 _ _ Hx0) as Hl1. pose proof (H3 _ _ Hx1) as Hl3.
  split.
  - simpl. apply zip_with_length; assumption.
  - simpl. rewrite nth_zip_with by lia.
    unfold raw_at, draw. rewrite Hrow.
    rewrite (get_default_get _ _ _ _ Hx0), (get_default_get _ _ _ _ Hx1).
    reflexivity.
Qed.

Lemma edge_of_Ok (edges : table edge_row) (id : string) (e : string * string) :
  edge_of edges id = Ok e ->
  e = edge_at edges id /\ forall e', edge_is edges e' id = keqb e e'.
Proof.
  unfold edge_of. intros He. inv_bind He. inv_bind He. inv_ok He.
  apply col_Ok in Hx as (row & Hrow & ->).
  apply col_Ok in Hx0 as (row' & Hrow' & ->).
  assert (row' = row) by congruence; subst row'.
  unfold edge_is, edge_at. rewrite Hrow. split; reflexivity.
Qed.

Lemma value_at_set {K : Type} `{Key K} (d : dict K num) (k k' : K) (v : num)
  (s : nat) :
  value_at (set d k v) k' s = if keqb k k' then at_sample v s else value_at d k' s.
Proof.
  unfold value_at, get_default. rewrite get_set. destruct (keqb k k'); reflexivity.
Qed.

(** A loop that adds one term per iteration to the entry of that
    iteration's key accumulates, under every key, the sum of the terms of
    the iterations with that key. *)
Lemma accumulate_loop {A K : Type} `{Key K}
  (body : A -> dict K num -> result (dict K num)) (T : A -> Q)
  (F : K -> A -> bool) (n s : nat) (l : list A) :
  (s < n)%nat ->
  (forall x d d', In x l -> all_len n d -> body x d = Ok d' ->
     exists k t,
       d' = set d k (nadd (get_default d k (Scalar 0)) t) /\
       has_len n t /\ at_sample t s = T x /\ forall e, F e x = keqb k e) ->
  forall d0 d, all_len n d0 -> for_each l body d0 = Ok d ->
    all_len n d /\
    forall e, value_at d e s == value_at d0 e s + qsum (map T (filter (F e) l)).
Proof.
  intros Hs. induction l as [| x l IH]; intros Hbody d0 d Hd0 Hrun.
  - simpl in Hrun. inv_ok Hrun. split; [assumption |].
    intros e. simpl. ring.
  - simpl in Hrun. inv_bind Hrun.
    destruct (Hbody x d0 x0) as (k & t & -> & Ht & HT & HF);
      [left; reflexivity | assumption | assumption |].
    assert (Hlen : has_len n (nadd (get_default d0 k (Scalar 0)) t)).
    { apply broadcast_has_len; [apply has_len_get_default |]; assumption. }
    destruct (IH (fun y d1 d2 Hy => Hbody y d1 d2 (or_intror Hy))
                 _ d (all_len_set _ _ _ _ Hd0 Hlen) Hrun) as [Hall Hval].
    split; [assumption |]. intros e. rewrite Hval, value_at_set. simpl.
    rewrite HF. destruct (keqb_spec k e) as [<- | Hne].
    + unfold nadd. rewrite (broadcast_at _ _ _ n) by
        (try apply has_len_get_default; assumption).
      rewrite HT. simpl. fold (value_at d0 k s). ring.
    + ring.
Qed.

Lemma normWeights_loop (edges : table edge_row) (m1 m3 : frame) (n s : nat)
  (normWeights : dict (string * string) num) :
  columns_len n m1 -> columns_len n m3 -> (s < n)%nat ->
  normWeights_cell edges m1 m3 = Ok normWeights ->
  all_len n normWeights /\
  forall e, value_at normWeights e s
            == qsum (map (raw_at edges m1 m3 s) (ids_of edges e)).
Proof.
  intros H1 H3 Hs Hrun. unfold normWeights_cell in Hrun.
  destruct (accumulate_loop (normWeights_step edges m1 m3)
              (raw_at edges m1 m3 s) (edge_is edges) n s (index edges) Hs)
    with (d0 := @nil (string * string * num)) (d := normWeights)
    as [Hall Hval]; try assumption.
  - intros id d d' _ Hd Hb. unfold normWeights_step in Hb.
    inv_bind Hb. inv_bind Hb. inv_ok Hb.
    apply edge_of_Ok in Hx as [_ HF].
    destruct (raw_weight_Ok _ _ _ _ _ n s H1 H3 Hs Hx0) as [Hlen Hat].
    exists x, x0. auto.
  - intros k v. discriminate.
  - split; [assumption |]. intros e. rewrite Hval.
    unfold value_at, ids_of. simpl. ring.
Qed.

Lemma weights_loop (edges : table edge_row) (m1 m3 : frame) (n s : nat)
  (normWeights : dict (string * string) num) (weights : dict string num) :
  columns_len n m1 -> columns_len n m3 -> (s < n)%nat ->
  all_len n normWeights ->
  weights_cell edges m1 m3 normWeights = Ok weights ->
  (forall id, In id (index edges) -> In id (keys weights)) /\
  all_len n weights /\
  forall id v, get weights id = Some v ->
    at_sample v s = weight_at edges m1 m3 normWeights s id.
Proof.
  intros H1 H3 Hs Hnw Hrun. unfold weights_cell in Hrun. split.
  { apply (for_each_covers (fun x (w : dict string num) => In x (keys w))
             (weights_step edges m1 m3 normWeights) (index edges))
      with (s := []) (s' := weights); [| | assumption].
    - intros x w w' Hb. unfold weights_step in Hb.
      inv_bind Hb. inv_bind Hb. inv_bind Hb. inv_ok Hb.
      apply In_keys_set. auto.
    - intros x y w w' Hy Hb. unfold weights_step in Hb.
      inv_bind Hb. inv_bind Hb. inv_bind Hb. inv_ok Hb.
      apply In_keys_set. auto. }
  revert Hrun.
  apply for_each_inv with
    (P := fun w : dict string num =>
            all_len n w /\
            forall id v, get w id = Some v ->
              at_sample v s = weight_at edges m1 m3 normWeights s id).
  - intros id w w' _ [Hall Hval] Hb. unfold weights_step in Hb.
    inv_bind Hb. inv_bind Hb. inv_bind Hb. inv_ok Hb.
    apply edge_of_Ok in Hx as [-> _]. apply subscript_Ok in Hx1.
    destruct (raw_weight_Ok _ _ _ _ _ n s H1 H3 Hs Hx0) as [Hlen Hat].
    pose proof (Hnw _ _ Hx1) as Hlen1.
    split.
    + apply all_len_set; [assumption |].
      apply broadcast_has_len; assumption.
    + intros id' v. rewrite get_set.
      destruct (keqb_spec id id') as [<- | Hne]; [| apply Hval].
      intros Heq. inv_ok Heq. unfold ndiv.
      rewrite (broadcast_at _ _ _ n) by assumption.
      unfold weight_at, value_at.
      rewrite Hat, (get_default_get _ _ _ _ Hx1). reflexivity.
  - split; intros k v; discriminate.
Qed.

Lemma superEdges_loop (edges : table edge_row) (m1 m2 m3 : frame) (n s : nat)
  (normWeights : dict (string * string) num) (weights : dict string num)
  (superEdges : dict (string * string) num) :
  columns_len n m2 -> (s < n)%nat ->
  all_len n weights ->
  (forall id v, get weights id = Some v ->
     at_sample v s = weight_at edges m1 m3 normWeights s id) ->
  superEdges_cell edges m2 weights = Ok superEdges ->
  all_len n superEdges /\
  forall e, value_at superEdges e s
            == qsum (map (fun id => weight_at edges m1 m3 normWeights s id
                                    * draw m2 id s)
                         (ids_of edges e)).
Proof.
  intros H2 Hs Hw Hwv Hrun. unfold superEdges_cell in Hrun.
  destruct (accumulate_loop (superEdges_step edges m2 weights)
              (fun id => weight_at edges m1 m3 normWeights s id * draw m2 id s)
              (edge_is edges) n s (index edges) Hs)
    with (d0 := @nil (string * string * num)) (d := superEdges)
    as [Hall Hval]; try assumption.
  - intros id d d' _ Hd Hb. unfold superEdges_step in Hb.
    inv_bind Hb. inv_bind Hb. inv_bind Hb. inv_ok Hb.
    apply edge_of_Ok in Hx as [_ HF]. apply subscript_Ok in Hx0, Hx1.
    pose proof (Hw _ _ Hx0) as Hlen. pose proof (H2 _ _ Hx1) as Hlen2.
    exists x, (nmul x0 (Series x1)). split; [reflexivity |].
    split; [apply broadcast_has_len; assumption |].
    split; [| assumption].
    unfold nmul. rewrite (broadcast_at _ _ _ n) by assumption.
    rewrite (Hwv _ _ Hx0). unfold draw.
    rewrite (get_default_get _ _ _ _ Hx1). reflexivity.
  - intros k v. discriminate.
  - split; [assumption |]. intros e. rewrite Hval.
    unfold value_at, ids_of. simpl. ring.
Qed.

Lemma qsum_scale (A : Type) (f : A -> Q) (c : Q) (l : list A) :
  qsum (map (fun x => f x * c) l) == qsum (map f l) * c.
Proof.
  unfold qsum. induction l as [| x l IH]; simpl; [ring |].
  rewrite IH. ring.
Qed.

Lemma qsum_ext (A : Type) (f h : A -> Q) (l : list A) :
  (forall x, In x l -> f x == h x) -> qsum (map f l) == qsum (map h l).
Proof.
  unfold qsum. induction l as [| x l IH]; simpl; intros Hfh; [reflexivity |].
  rewrite IH by auto. rewrite (Hfh x) by auto. reflexivity.
Qed.

Lemma qsum_nonneg (l : list Q) : Forall (fun r => 0 <= r) l -> 0 <= qsum l.
Proof.
  unfold qsum. induction 1 as [| x l Hx _ IH]; simpl; [discriminate | lra].
Qed.

Lemma qsum_nonpos (l : list Q) : Forall (fun r => r <= 0) l -> qsum l <= 0.
Proof.
  unfold qsum. induction 1 as [| x l Hx _ IH]; simpl; [discriminate | lra].
Qed.

(** A combination with non-negative coefficients lies between the smallest
    and the largest point, each scaled by the total weight. *)
Lemma combination_bounds (A : Type) (w x : A -> Q) (lo hi : Q) (l : list A) :
  (forall a, In a l -> 0 <= w a /\ lo <= x a /\ x a <= hi) ->
  lo * qsum (map w l) <= qsum (map (fun a => w a * x a) l) /\
  qsum (map (fun a => w a * x a) l) <= hi * qsum (map w l).
Proof.
  unfold qsum. induction l as [| a l IH]; simpl; intros Hl; [lra |].
  destruct (Hl a) as (Hw & Hlo & Hhi); [auto |].
  destruct IH as [IH1 IH2]; [auto |]. split; nra.
Qed.

Lemma qmin_list_le (l : list Q) (x : Q) : In x l -> qmin_list l <= x.
Proof.
  destruct l as [| y l]; [contradiction |]. simpl.
  revert y x. induction l as [| z l IH]; simpl; intros y x Hin.
  - destruct Hin as [-> | []]. lra.
  - destruct Hin as [-> | [-> | Hin]].
    + eapply Qle_trans; [apply Q.le_min_r |]. apply IH. simpl; auto.
    + apply Q.le_min_l.
    + eapply Qle_trans; [apply Q.le_min_r |]. apply IH. simpl; auto.
Qed.

Lemma qmax_list_ge (l : list Q) (x : Q) : In x l -> x <= qmax_list l.
Proof.
  destruct l as [| y l]; [contradiction |]. simpl.
  revert y x. induction l as [| z l IH]; simpl; intros y x Hin.
  - destruct Hin as [-> | []]. lra.
  - destruct Hin as [-> | [-> | Hin]].
    + eapply Qle_trans; [| apply Q.le_max_r]. apply IH. simpl; auto.
    + apply Q.le_max_l.
    + eapply Qle_trans; [| apply Q.le_max_r]. apply IH. simpl; auto.
Qed.

Lemma Qdiv_nonneg (a b : Q) :
  ~ b == 0 -> (0 <= a /\ 0 <= b) \/ (a <= 0 /\ b <= 0) -> 0 <= a / b.
Proof.
  intros Hb [[Ha Hb'] | [Ha Hb']].
  - unfold Qdiv. apply Qmult_le_0_compat; [assumption |].
    apply Qlt_le_weak, Qinv_lt_0_compat. lra.
  - assert (Heq : a / b == (- a) / (- b)) by (field; assumption).
    rewrite Heq. unfold Qdiv. apply Qmult_le_0_compat; [lra |].
    apply Qlt_le_weak, Qinv_lt_0_compat. lra.
Qed.

Lemma ids_of_edge_at (edges : table edge_row) (e : string * string)
  (id : string) :
  In id (ids_of edges e) -> In id (index edges) /\ edge_at edges id = e.
Proof.
  unfold ids_of. rewrite filter_In. unfold edge_is, edge_at.
  intros [Hin He]. split; [assumption |].
  destruct (get edges id) as [row |]; [| discriminate].
  destruct (keqb_spec (parent_id row, child_id row) e); congruence.
Qed.

Lemma columns_len_set (n : nat) (f : frame) (id : string) (lo hi : Q)
  (g : rng) :
  columns_len n f -> columns_len n (set f id (fst (uniform lo hi n g))).
Proof.
  intros Hf id' s. rewrite get_set. destruct (keqb id id').
  - intros Heq. inv_ok Heq. apply uniform_length.
  - apply Hf.
Qed.

Lemma sample_m1_len (refs : table ref_row) (n : nat) (g g' : rng) (m1 : frame) :
  sample_m1 refs n ([], g) = Ok (m1, g') -> columns_len n m1.
Proof.
  unfold sample_m1. intros Hrun.
  change (columns_len n (fst (m1, g'))). revert Hrun.
  apply for_each_inv with (P := fun st : frame * rng => columns_len n (fst st)).
  - intros x [f0 g0] s' _ Hf Hb. inv_bind Hb. inv_bind Hb.
    simpl in Hb. inv_ok Hb. simpl. apply columns_len_set. assumption.
  - intros id s. discriminate.
Qed.

Lemma sample_m2_m3_len (edges : table edge_row) (n : nat) (g g' : rng)
  (m2 m3 : frame) :
  sample_m2_m3 edges n ([], [], g) = Ok (m2, m3, g') ->
  columns_len n m2 /\ columns_len n m3.
Proof.
  unfold sample_m2_m3. intros Hrun.
  change (columns_len n (fst (fst (m2, m3, g'))) /\
          columns_len n (snd (fst (m2, m3, g')))). revert Hrun.
  apply for_each_inv with
    (P := fun st : frame * frame * rng =>
            columns_len n (fst (fst st)) /\ columns_len n (snd (fst st))).
  - intros x [[f2 f3] g0] s' _ [Hf2 Hf3] Hb. inv_bind Hb. inv_bind Hb.
    simpl in Hb. inv_bind Hb. inv_bind Hb. simpl in Hb. inv_ok Hb. simpl.
    split; apply columns_len_set; assumption.
  - split; intros id s; discriminate.
Qed.

(** What the aggregation cells compute, per sample. *)
Lemma aggregation_spec (refs : table ref_row) (nodes : table node_row)
  (edges : table edge_row) (numSamples : nat) (g g1 g2 : rng) (nb : notebook)
  (s : nat) :
  prepared refs nodes edges numSamples g g1 g2 nb ->
  (s < numSamples)%nat ->
  all_len numSamples (nb_superEdges nb) /\
  (forall e, value_at (nb_normWeights nb) e s
             == qsum (map (raw_at edges (nb_m1 nb) (nb_m3 nb) s)
                          (ids_of edges e))) /\
  (forall id, In id (index edges) ->
     value_at (nb_weights nb) id s
     = weight_at edges (nb_m1 nb) (nb_m3 nb) (nb_normWeights nb) s id) /\
  (forall e, value_at (nb_superEdges nb) e s
             == qsum (map (fun id =>
                             weight_at edges (nb_m1 nb) (nb_m3 nb)
                               (nb_normWeights nb) s id
                             * draw (nb_m2 nb) id s)
                          (ids_of edges e))).
Proof.
  intros Hp Hs. destruct Hp as [H1 H23 Hnw Hw Hse _ _ _ _ _ _ _].
  apply sample_m1_len in H1. apply sample_m2_m3_len in H23 as [H2 H3].
  destruct (normWeights_loop _ _ _ _ s _ H1 H3 Hs Hnw) as [Hnwl Hnwv].
  destruct (weights_loop _ _ _ _ s _ _ H1 H3 Hs Hnwl Hw) as (Hwk & Hwl & Hwv).
  destruct (superEdges_loop _ _ _ _ _ s _ _ _ H2 Hs Hwl Hwv Hse) as [Hsel Hsev].
  repeat split; try assumption.
  intros id Hin. apply Hwk in Hin. apply keys_get in Hin as [v Hv].
  unfold value_at. rewrite (get_default_get _ _ _ _ Hv). apply Hwv. assumption.
Qed.




(** ** Installed probabilities *)

Lemma product_step_len (superEdges : dict (string * string) num)
  (node : string) (n : nat) (p : expr) (tmp : num) :
  all_len n superEdges -> has_len n tmp ->
  has_len n
    (if isinstance_Variable p
     then nmul tmp (nsub (Scalar 1)
                      (get_default superEdges (name p, node) (Scalar 0)))
     else tmp).
Proof.
  intros Hse Htmp. destruct (isinstance_Variable p); [| assumption].
  apply (broadcast_has_len Qmult); [assumption |].
  apply (broadcast_has_len Qminus); [exact I |].
  apply has_len_get_default; assumption.
Qed.

Lemma partial_products_len (superEdges : dict (string * string) num)
  (node : string) (n : nat) (combo : list expr) :
  all_len n superEdges ->
  forall tmp, has_len n tmp ->
    Forall (has_len n) (partial_products superEdges node combo tmp).
Proof.
  intros Hse. induction combo as [| p combo IH]; intros tmp Htmp;
    cbn [partial_products]; constructor.
  - apply product_step_len; assumption.
  - apply IH. apply product_step_len; assumption.
Qed.

Lemma all_products_len (superEdges : dict (string * string) num)
  (node : string) (n : nat) (combos : list (list expr)) :
  all_len n superEdges ->
  Forall (has_len n) (all_products superEdges node combos).
Proof.
  intros Hse. unfold all_products.
  induction combos as [| c combos IH]; simpl; [constructor |].
  apply Forall_app. split; [| assumption].
  apply partial_products_len; [assumption | exact I].
Qed.

Lemma item_leak_times (leak : series) (t : num) (n s : nat) :
  List.length leak = n -> has_len n t -> (s < n)%nat ->
  item (nmul (Series leak) t) s = Ok (nth s leak 0 * at_sample t s) /\
  item (nsub (Scalar 1) (nmul (Series leak) t)) s
  = Ok (1 - nth s leak 0 * at_sample t s).
Proof.
  intros Hl Ht Hs. destruct t as [q | l]; simpl in Ht.
  - unfold nmul, nsub. cbn [broadcast]. split.
    + rewrite (item_Series _ n s) by (rewrite ?length_map; assumption).
      rewrite (nth_map_Q (fun x => x * q)) by lia. reflexivity.
    + rewrite (item_Series _ n s) by (rewrite ?length_map; assumption).
      rewrite (nth_map_Q (fun y => 1 - y)) by (rewrite length_map; lia).
      rewrite (nth_map_Q (fun x => x * q)) by lia. reflexivity.
  - unfold nmul, nsub. cbn [broadcast]. split.
    + rewrite (item_Series _ n s) by (try apply zip_with_length; assumption).
      rewrite nth_zip_with by lia. reflexivity.
    + rewrite (item_Series _ n s)
        by (rewrite ?length_map; try apply zip_with_length; assumption).
      rewrite (nth_map_Q (fun y => 1 - y))
        by (rewrite (zip_with_length _ _ _ n); assumption).
      rewrite nth_zip_with by lia. reflexivity.
Qed.

Lemma comprehension_emit (leak : series) (ts : list num) (n s : nat) :
  List.length leak = n -> Forall (has_len n) ts -> (s < n)%nat ->
  comprehension (fun p => item p s) (emit leak ts)
  = Ok (flat_map (fun t => [1 - nth s leak 0 * t; nth s leak 0 * t])
          (map (fun t => at_sample t s) ts)).
Proof.
  intros Hl Hts Hs. unfold emit.
  induction Hts as [| t ts Ht _ IH]; [reflexivity |].
  destruct (item_leak_times leak t n s Hl Ht Hs) as [Hm Hsub].
  cbn [flat_map map app comprehension].
  rewrite Hsub. cbn [bind]. rewrite Hm. cbn [bind]. rewrite IH. reflexivity.
Qed.

(** What [probs_of] returns for a node of the node table at sample [s]. *)
Lemma probs_of_spec (refs : table ref_row) (nodes : table node_row)
  (edges : table edge_row) (numSamples : nat) (g g1 g2 : rng) (nb : notebook)
  (node : string) (s : nat) :
  prepared refs nodes edges numSamples g g1 g2 nb ->
  (s < numSamples)%nat ->
  In node (index nodes) ->
  probs_of (nb_cpts nb) node s
  = Ok (noisy_pairs (nth s (nb_leak nb) 0)
          (tmps_at (nb_superEdges nb) (nb_cptCombos nb) node s)).
Proof.
  intros Hp Hs Hin.
  pose proof (cpts_spec _ _ _ _ _ _ _ _ node Hp Hin) as Hget.
  destruct (aggregation_spec _ _ _ _ _ _ _ _ s Hp Hs) as (Hse & _).
  destruct Hp as [_ _ _ _ _ _ _ Hleak _ _ _ _].
  assert (Hl : List.length (nb_leak nb) = numSamples).
  { rewrite Hleak. apply uniform_length. }
  unfold probs_of, subscript. rewrite Hget. cbn [bind]. unfold tmps_at.
  pose proof (all_products_len (nb_superEdges nb) node numSamples
                (get_default (nb_cptCombos nb) node []) Hse) as Hts.
  destruct (all_products (nb_superEdges nb) node
              (get_default (nb_cptCombos nb) node [])) as [| t ts].
  - reflexivity.
  - pose proof (comprehension_emit (nb_leak nb) (t :: ts) numSamples s
                  Hl Hts Hs) as Hc.
    destruct (emit (nb_leak nb) (t :: ts)) as [| x l] eqn:He;
      [discriminate He |].
    exact Hc.
Qed.

(** C8.  In a run whose preparation cells succeed, every sample [s] has one
    leak draw [L], the [s]-th entry of the leak array, and the probabilities
    computed at sample [s] for every node of the node table are the pairs
    [1 - L * t], [L * t] over that node's running products [t], which do
    not involve the leak (or the default pair when the node has none): the
    same [L] serves every node. *)
Theorem leak_shared_by_all_nodes (refs : table ref_row)
  (nodes : table node_row) (edges : table edge_row) (numSamples : nat)
  (g : rng) (nb : notebook) (s : nat) :
  prepare refs nodes edges numSamples g = Ok nb ->
  (s < numSamples)%nat ->
  exists L,
    nth_error (nb_leak nb) s = Some L /\
    forall node, In node (index nodes) ->
      probs_of (nb_cpts nb) node s
      = Ok (noisy_pairs L
              (tmps_at (nb_superEdges nb) (nb_cptCombos nb) node s)).
Proof.
  intros Hp Hs. apply prepare_Ok in Hp as (g1 & g2 & Hp).
  exists (nth s (nb_leak nb) 0). split.
  - apply nth_error_nth'. destruct Hp as [_ _ _ _ _ _ _ Hleak _ _ _ _].
    rewrite Hleak. unfold leak_cell. rewrite uniform_length. assumption.
  - intros node Hin. eapply probs_of_spec; eauto.
Qed.

Lemma leak_shared_by_all_nodes_witness :
  exists nb L,
    prepare Example.refs Example.nodes Example.edges Example.numSamples
      Example.g = Ok nb /\
    nth_error (nb_leak nb) 1 = Some L /\
    forall node, In node (index Example.nodes) ->
      probs_of (nb_cpts nb) node 1
      = Ok (noisy_pairs L
              (tmps_at (nb_superEdges nb) (nb_cptCombos nb) node 1)).
Proof.
  eexists.
  match goal with
  | |- exists L, prepare _ _ _ _ _ = Ok ?nb /\ _ =>
      assert (Hnb : prepare Example.refs Example.nodes Example.edges
                      Example.numSamples Example.g = Ok nb)
        by (vm_compute; reflexivity);
      destruct (leak_shared_by_all_nodes Example.refs Example.nodes
                  Example.edges Example.numSamples Example.g nb 1 Hnb)
        as (L & HL & Hall)
  end.
  - unfold Example.numSamples. lia.
  - exists L. split; [exact Hnb |]. split; [exact HL | exact Hall].
Defined.

(** ** The heap of node objects *)

Lemma store_length (h : heap) (r : ref) (n : BbnNode) :
  List.length (store h r n) = List.length h.
Proof.
  revert r. induction h as [| x h IH]; intros [| r]; simpl; auto.
Qed.

Lemma deref_store_eq (h : heap) (r : ref) (n : BbnNode) :
  (r < List.length h)%nat -> deref (store h r n) r = n.
Proof.
  unfold deref. revert r. induction h as [| x h IH]; intros [| r] Hr;
    simpl in *; try lia; [reflexivity |].
  apply IH. lia.
Qed.

Lemma deref_store_neq (h : heap) (r r' : ref) (n : BbnNode) :
  r <> r' -> deref (store h r n) r' = deref h r'.
Proof.
  unfold deref. revert r r'.
  induction h as [| x h IH]; intros [| r] [| r'] Hne; simpl; try reflexivity;
    try congruence.
  apply IH. congruence.
Qed.

Lemma store_out_of_range (h : heap) (r : ref) (n : BbnNode) :
  (List.length h <= r)%nat -> store h r n = h.
Proof.
  revert r. induction h as [| x h IH]; intros [| r] Hr; simpl in *;
    try reflexivity; try lia.
  rewrite IH by lia. reflexivity.
Qed.

Lemma set_probs_length (h : heap) (r : ref) (p : list Q) :
  List.length (set_probs h r p) = List.length h.
Proof. apply store_length. Qed.

Lemma set_probs_variable (h : heap) (r r' : ref) (p : list Q) :
  variable (deref (set_probs h r p) r') = variable (deref h r').
Proof.
  unfold set_probs. destruct (Nat.eq_dec r r') as [<- | Hne].
  - destruct (Nat.lt_ge_cases r (List.length h)) as [Hlt | Hge].
    + rewrite deref_store_eq by assumption. reflexivity.
    + rewrite store_out_of_range by assumption. reflexivity.
  - rewrite deref_store_neq by assumption. reflexivity.
Qed.

Lemma set_probs_probs (h : heap) (r : ref) (p : list Q) :
  (r < List.length h)%nat -> probs (deref (set_probs h r p) r) = p.
Proof.
  intros Hr. unfold set_probs. rewrite deref_store_eq by assumption.
  reflexivity.
Qed.

Lemma set_probs_other (h : heap) (r r' : ref) (p : list Q) :
  r <> r' -> deref (set_probs h r p) r' = deref h r'.
Proof. apply deref_store_neq. Qed.

(** Installing never reshapes the heap or touches a node's variable. *)
Lemma install_frame (cpts : dict string (list num)) (bbnNodes : dict string ref)
  (sample : nat) (h h' : heap) :
  install cpts bbnNodes sample h = Ok h' ->
  List.length h' = List.length h /\
  forall r, variable (deref h' r) = variable (deref h r).
Proof.
  unfold install.
  apply for_each_inv with
    (P := fun h1 : heap =>
            List.length h1 = List.length h /\
            forall r, variable (deref h1 r) = variable (deref h r)).
  - intros it h1 h2 _ [Hlen Hvar] Hb. inv_bind Hb. inv_ok Hb. split.
    + rewrite set_probs_length. assumption.
    + intros r. rewrite set_probs_variable. apply Hvar.
  - split; reflexivity.
Qed.

Lemma install_spec (cpts : dict string (list num)) (sample : nat)
  (items : dict string ref) :
  forall h,
    NoDup (values items) ->
    (forall r, In r (values items) -> (r < List.length h)%nat) ->
    (forall id, In id (keys items) -> exists p, probs_of cpts id sample = Ok p) ->
    exists h',
      install cpts items sample h = Ok h' /\
      (forall id r, In (id, r) items ->
         probs_of cpts id sample = Ok (probs (deref h' r))) /\
      (forall r, ~ In r (values items) -> deref h' r = deref h r).
Proof.
  unfold install.
  induction items as [| [id r] items IH]; intros h Hnd Hrange Hprobs.
  - exists h. simpl. split; [reflexivity |]. split; [contradiction | reflexivity].
  - simpl in Hnd. inversion Hnd as [| ? ? Hfresh Hnd']; subst.
    destruct (Hprobs id) as [p Hp]; [left; reflexivity |].
    destruct (IH (set_probs h r p)) as (h' & Hrun & Hin & Hout).
    + assumption.
    + intros r' Hr'. rewrite set_probs_length. apply Hrange. right. assumption.
    + intros id' Hid'. apply Hprobs. right. assumption.
    + exists h'. simpl. rewrite Hp. simpl. split; [exact Hrun |]. split.
      * intros id' r' [Heq | Hin'].
        -- inv_ok Heq. rewrite (Hout r') by assumption.
           rewrite set_probs_probs by (apply Hrange; left; reflexivity).
           assumption.
        -- apply Hin. assumption.
      * intros r' Hr'. simpl in Hr'. rewrite Hout by tauto.
        apply set_probs_other. tauto.
Qed.

Lemma values_set_In {K V : Type} `{Key K} (d : dict K V) (k : K) (v v' : V) :
  In v' (values (set d k v)) -> v' = v \/ In v' (values d).
Proof.
  induction d as [| [k0 v0] d IH]; simpl.
  - intros [<- | []]. auto.
  - destruct (keqb k k0); simpl.
    + intros [<- | Hin]; auto.
    + intros [<- | Hin]; auto. apply IH in Hin. tauto.
Qed.

Lemma NoDup_values_set {K V : Type} `{Key K} (d : dict K V) (k : K) (v : V) :
  NoDup (values d) -> ~ In v (values d) -> NoDup (values (set d k v)).
Proof.
  induction d as [| [k0 v0] d IH]; simpl; intros Hnd Hfresh.
  - constructor; [simpl; tauto | constructor].
  - inversion Hnd as [| ? ? Hv0 Hnd']; subst.
    destruct (keqb k k0); simpl.
    + constructor; [tauto | assumption].
    + constructor; [| apply IH; tauto].
      intros Hin. apply values_set_In in Hin. destruct Hin as [-> | Hin]; tauto.
Qed.

Lemma map_snd_combine {A B : Type} (l1 : list A) (l2 : list B) :
  List.length l1 = List.length l2 -> map snd (combine l1 l2) = l2.
Proof.
  revert l2. induction l1 as [| a l1 IH]; intros [| b l2] Hlen; simpl in *;
    try congruence.
  f_equal. apply IH. congruence.
Qed.

(** Every node of the table gets its own, allocated, node object. *)
Lemma bbnNodes_cell_spec (nodes : table node_row) :
  let st := bbnNodes_cell nodes in
  NoDup (values (snd st)) /\
  (forall r, In r (values (snd st)) -> (r < List.length (fst st))%nat) /\
  (forall id, In id (keys (snd st)) <-> In id (index nodes)).
Proof.
  unfold bbnNodes_cell.
  assert (Hgen : forall (l : list (nat * (string * node_row)))
                        (st : heap * dict string ref),
    NoDup (values (snd st)) ->
    (forall r, In r (values (snd st)) -> (r < List.length (fst st))%nat) ->
    let st' :=
      fold_left
        (fun st it =>
           let '(h, bbnNodes) := st in
           let '(i, node) := it in
           let n := {| variable := {| var_id := i;
                                      var_name := fst node;
                                      var_values := ["Good"; "Bad"]%string |};
                       probs := [1; 0] |} in
           (h ++ [n], set bbnNodes (fst node) (List.length h)))
        l st in
    NoDup (values (snd st')) /\
    (forall r, In r (values (snd st')) -> (r < List.length (fst st'))%nat) /\
    (forall id, In id (keys (snd st')) <->
                In id (keys (snd st)) \/ In id (map (fun it => fst (snd it)) l))).
  { induction l as [| [i node] l IH]; intros [h bn] Hnd Hrange; simpl.
    - repeat split; auto; tauto.
    - destruct (IH (h ++ [ {| variable := {| var_id := i;
                                             var_name := fst node;
                                             var_values := ["Good"; "Bad"]%string |};
                              probs := [1; 0] |} ],
                    set bn (fst node) (List.length h))) as (H1 & H2 & H3).
      + simpl. apply NoDup_values_set; [assumption |].
        intros Hin. apply Hrange in Hin. simpl in Hin. lia.
      + simpl. intros r Hr. rewrite length_app. simpl.
        apply values_set_In in Hr. destruct Hr as [-> | Hr]; [lia |].
        apply Hrange in Hr. simpl in Hr. lia.
      + split; [exact H1 |]. split; [exact H2 |].
        intros id. rewrite H3. simpl. rewrite In_keys_set.
        intuition congruence. }
  destruct (Hgen (enumerate nodes) ([], [])) as (H1 & H2 & H3);
    [constructor | simpl; contradiction |].
  split; [exact H1 |]. split; [exact H2 |].
  intros id. rewrite H3. simpl. unfold enumerate.
  rewrite <- (map_map snd fst), map_snd_combine by apply length_seq.
  unfold index, keys. tauto.
Qed.

Lemma no_parents_no_products (superEdges : dict (string * string) num)
  (G : DiGraph) (node : string) :
  NoDup (keys G) ->
  (forall u, has_edge G u node = false) ->
  all_products superEdges node (get_default (cptCombos_cell G) node []) = [].
Proof.
  intros Hnd Hno. apply length_zero_iff_nil.
  rewrite cptCombos_products_length by assumption.
  destruct (parents_spec G node Hnd) as [_ Hps].
  destruct (parents G node) as [| u ps]; [reflexivity |].
  assert (Hu : has_edge G u node = true) by (apply Hps; left; reflexivity).
  rewrite Hno in Hu. discriminate.
Qed.

(** After a successful preparation the install loop of any sample succeeds
    on any heap of the right size, and leaves on every node of the table
    what [probs_of] computes for it. *)
Lemma install_total (refs : table ref_row) (nodes : table node_row)
  (edges : table edge_row) (numSamples : nat) (g g1 g2 : rng) (nb : notebook)
  (s : nat) (h : heap) :
  prepared refs nodes edges numSamples g g1 g2 nb ->
  (s < numSamples)%nat ->
  List.length h = List.length (nb_heap nb) ->
  exists h',
    install (nb_cpts nb) (nb_bbnNodes nb) s h = Ok h' /\
    forall node, In node (index nodes) ->
      exists r, get (nb_bbnNodes nb) node = Some r /\
                probs_of (nb_cpts nb) node s = Ok (probs (deref h' r)).
Proof.
  intros Hp Hs Hlen.
  pose proof (bbnNodes_cell_spec nodes) as Hcell.
  pose proof (prep_bbnNodes Hp) as Hbn. rewrite Hbn in Hcell.
  simpl in Hcell. destruct Hcell as (Hnd & Hrange & Hkeys).
  destruct (install_spec (nb_cpts nb) s (nb_bbnNodes nb) h Hnd)
    as (h' & Hrun & Hin & _).
  - intros r Hr. rewrite Hlen. apply Hrange. assumption.
  - intros id Hid. apply Hkeys in Hid. eexists.
    eapply probs_of_spec; eauto.
  - exists h'. split; [exact Hrun |]. intros node Hnode.
    apply Hkeys in Hnode. apply keys_get in Hnode as [r Hr].
    exists r. split; [exact Hr |]. apply Hin. apply get_In. exact Hr.
Qed.

(** C5.  In a run whose preparation cells succeed, for every sample and
    whatever the node objects held before, the install loop succeeds, and
    every node of the node table that has no parent in the graph then
    carries exactly the probabilities [[1; 0]]. *)
Theorem parentless_nodes_get_1_0 (refs : table ref_row)
  (nodes : table node_row) (edges : table edge_row) (numSamples : nat)
  (g : rng) (nb : notebook) (s : nat) (h : heap) :
  prepare refs nodes edges numSamples g = Ok nb ->
  (s < numSamples)%nat ->
  List.length h = List.length (nb_heap nb) ->
  exists h',
    install (nb_cpts nb) (nb_bbnNodes nb) s h = Ok h' /\
    forall node,
      In node (index nodes) ->
      (forall u, has_edge (nb_G nb) u node = false) ->
      exists r, get (nb_bbnNodes nb) node = Some r /\
                probs (deref h' r) = [1; 0].
Proof.
  intros Hp Hs Hlen. apply prepare_Ok in Hp as (g1 & g2 & Hp).
  destruct (install_total _ _ _ _ _ _ _ _ s h Hp Hs Hlen)
    as (h' & Hrun & Hall).
  exists h'. split; [exact Hrun |]. intros node Hnode Hno.
  destruct (Hall node Hnode) as (r & Hr & Hprobs).
  exists r. split; [exact Hr |].
  rewrite (probs_of_spec _ _ _ _ _ _ _ _ node s Hp Hs Hnode) in Hprobs.
  unfold tmps_at in Hprobs.
  rewrite (prep_cptCombos Hp) in Hprobs.
  rewrite no_parents_no_products in Hprobs.
  - simpl in Hprobs. inv_ok Hprobs. symmetry. assumption.
  - rewrite (prep_G Hp). apply (G_cell_spec (nb_superEdges nb)).
  - assumption.
Qed.

Lemma parentless_nodes_get_1_0_witness :
  exists nb h',
    prepare Example.refs Example.nodes Example.edges Example.numSamples
      Example.g = Ok nb /\
    install (nb_cpts nb) (nb_bbnNodes nb) 1 (nb_heap nb) = Ok h' /\
    forall node,
      In node (index Example.nodes) ->
      (forall u, has_edge (nb_G nb) u node = false) ->
      exists r, get (nb_bbnNodes nb) node = Some r /\
                probs (deref h' r) = [1; 0].
Proof.
  eexists.
  match goal with
  | |- exists h', prepare _ _ _ _ _ = Ok ?nb /\ _ =>
      assert (Hnb : prepare Example.refs Example.nodes Example.edges
                      Example.numSamples Example.g = Ok nb)
        by (vm_compute; reflexivity);
      destruct (parentless_nodes_get_1_0 Example.refs Example.nodes
                  Example.edges Example.numSamples Example.g nb 1
                  (nb_heap nb) Hnb)
        as (h' & Hrun & Hall)
  end.
  - unfold Example.numSamples. lia.
  - reflexivity.
  - exists h'. split; [exact Hnb |]. split; [exact Hrun | exact Hall].
Defined.

(** ** The inference loop *)

Section InferenceFacts.
Context {JoinTree : Type}.
Variable InferenceController_apply : Bbn -> heap -> JoinTree.
Variable get_bbn_potential : JoinTree -> BbnNode -> potential.

Lemma sample_step_Ok (cpts : dict string (list num))
  (bbnNodes : dict string ref) (target : ref) (sample : nat) (e e' : env) :
  sample_step InferenceController_apply get_bbn_potential
    cpts bbnNodes target sample e = Ok e' ->
  exists h,
    install cpts bbnNodes sample (env_heap e) = Ok h /\
    env_heap e' = h /\
    env_dt_base e' = env_dt_base e /\
    env_target_probs e' =
      env_target_probs e
        ++ [get_bbn_potential (InferenceController_apply (env_dt_base e) h)
              (deref h target)].
Proof.
  unfold sample_step. intros Hs. inv_bind Hs. inv_ok Hs.
  exists x. simpl. auto.
Qed.


End InferenceFacts.




(** ** Graph construction *)

Lemma self_loop_no_topological_order (G : DiGraph) (u : string) :
  has_edge G u u = true -> ~ exists order, topological_order G order.
Proof.
  intros Hu (order & Hnd & _ & Hfwd).
  destruct (Hfwd u u Hu) as (l1 & l2 & l3 & ->).
  apply NoDup_remove_2 in Hnd. apply Hnd.
  rewrite !in_app_iff. simpl. auto.
Qed.

(** C6, as amended.  Building the graph performs no validation and cannot
    fail: its edges are exactly the (parent, child) pairs that key
    [superEdges], self-loops and cycles included, and its nodes are exactly
    their endpoints, so a graph with a self-loop is built and has no
    topological order.  The target is not looked up in the graph but in the
    dictionary of node objects, when the inference cell starts, and that
    lookup raises [KeyError] exactly when ["tq"] is not in the node table. *)
Theorem graph_built_without_validation {V : Type}
  (superEdges : dict (string * string) V) (nodes : table node_row) :
  let G := G_cell superEdges in
  (forall u v, has_edge G u v = true <-> In (u, v) (keys superEdges)) /\
  (forall n, In n (nx_nodes G) <->
             exists u v, In (u, v) (keys superEdges) /\ (n = u \/ n = v)) /\
  (forall u, In (u, u) (keys superEdges) ->
             ~ exists order, topological_order G order) /\
  (subscript (snd (bbnNodes_cell nodes)) "tq"%string = Raise KeyError <->
   ~ In "tq"%string (index nodes)).
Proof.
  destruct (G_cell_spec superEdges) as (_ & _ & Hedges & Hnodes).
  split; [exact Hedges |]. split; [exact Hnodes |]. split.
  - intros u Hu. apply self_loop_no_topological_order with (u := u).
    apply Hedges. exact Hu.
  - destruct (bbnNodes_cell_spec nodes) as (_ & _ & Hkeys).
    rewrite <- Hkeys. unfold subscript.
    destruct (get (snd (bbnNodes_cell nodes)) "tq"%string) as [r |] eqn:Hg.
    + split; [discriminate |]. intros Hn. exfalso. apply Hn.
      eapply get_Some_keys; eauto.
    + apply get_None in Hg. tauto.
Qed.

(** C6 as stated fails: an edge table whose only edge is the self-loop
    [A -> A], with no node ["tq"] anywhere, passes every cell up to the
    inference loop; the graph it builds has the self-loop, no topological
    order and no target, and the only failure is the [KeyError] of the
    target lookup when the inference cell starts. *)
Lemma graph_self_loop_counterexample :
  exists nb,
    prepare SelfLoop.refs SelfLoop.nodes SelfLoop.edges 1 Example.g = Ok nb /\
    has_edge (nb_G nb) "A" "A" = true /\
    ~ (exists order, topological_order (nb_G nb) order) /\
    ~ In "tq"%string (nx_nodes (nb_G nb)) /\
    inference_cell Unnormalised.InferenceController_apply
      Unnormalised.get_bbn_potential nb 1 = Raise KeyError.
Proof.
  eexists. split; [vm_compute; reflexivity |].
  split; [vm_compute; reflexivity |]. split.
  - apply self_loop_no_topological_order with (u := "A"%string).
    vm_compute. reflexivity.
  - split; [| vm_compute; reflexivity].
    vm_compute. intros [H | []]. discriminate H.
Qed.

(** ** The two slips *)

Lemma fold_add_node_edges (h : heap) (rs : list ref) (b : Bbn) :
  bbn_edges (fold_left (Bbn_add_node h) rs b) = bbn_edges b.
Proof.
  revert b. induction rs as [| r rs IH]; intros b; simpl; [reflexivity |].
  rewrite IH. reflexivity.
Qed.

Lemma fold_discard_method (bbnEdges : list Edge) (b : Bbn) :
  fold_left (fun dt_base edge => let _ := Bbn_add_edge dt_base in dt_base)
            bbnEdges b = b.
Proof.
  induction bbnEdges as [| e es IH]; simpl; [reflexivity | exact IH].
Qed.

(** C2 does not hold of the code: whatever super-edges there are, the
    network handed to inference has no edge, although [bbnEdges] lists one
    per super-edge (two in the example). *)
Theorem dt_base_has_no_edges :
  (forall h bbnNodes bbnEdges,
     bbn_edges (dt_base_cell h bbnNodes bbnEdges) = []) /\
  exists nb,
    prepare Example.refs Example.nodes Example.edges Example.numSamples
      Example.g = Ok nb /\
    keys (nb_superEdges nb) = [("A", "tq"); ("B", "tq")]%string /\
    List.length (nb_bbnEdges nb) = 2%nat /\
    bbn_edges (nb_dt_base nb) = [].
Proof.
  split.
  - intros h bbnNodes bbnEdges. unfold dt_base_cell.
    rewrite fold_discard_method, fold_add_node_edges. reflexivity.
  - eexists. split; [vm_compute; reflexivity |].
    repeat split; vm_compute; reflexivity.
Qed.

(** C1 does not hold of the code when a node has two parents: for ["tq"],
    with parents [A] and [B], sixteen entries are stored instead of the
    eight of one pair per combination, and the first pair, emitted for the
    combination that asserts both parents, carries the product over [A]
    alone. *)
Theorem cpt_pair_per_parent_position :
  exists nb l L,
    prepare Example.refs Example.nodes Example.edges Example.numSamples
      Example.g = Ok nb /\
    get (nb_cptCombos nb) "tq"%string
    = Some [[ExprVariable "A"; ExprVariable "B"];
            [ExprVariable "A"; ExprComplement "B"];
            [ExprComplement "A"; ExprVariable "B"];
            [ExprComplement "A"; ExprComplement "B"]] /\
    get (nb_cpts nb) "tq"%string = Some l /\
    List.length l = 16%nat /\
    nth_error (nb_leak nb) 0 = Some L /\
    let sA := value_at (nb_superEdges nb) ("A", "tq")%string 0 in
    let sB := value_at (nb_superEdges nb) ("B", "tq")%string 0 in
    let first := at_sample (nth 0 l (Scalar 0)) 0 in
    first == 1 - L * (1 - sA) /\
    ~ first == 1 - L * ((1 - sA) * (1 - sB)).
Proof.
  eexists. eexists. eexists. split; [vm_compute; reflexivity |].
  split; [vm_compute; reflexivity |].
  split; [vm_compute; reflexivity |].
  split; [vm_compute; reflexivity |].
  split; [vm_compute; reflexivity |].
  split; [vm_compute; reflexivity | vm_compute; discriminate].
Qed.

(** ** Well-formed inputs run to the inference loop *)

Lemma sample_m1_total (refs : table ref_row) (n : nat) (g : rng) :
  exists m1 g',
    sample_m1 refs n ([], g) = Ok (m1, g') /\
    forall id, In id (index refs) -> In id (keys m1).
Proof.
  destruct (for_each_total (fun _ : frame * rng => True)
              (fun ref_id '(m1, g) =>
                 a <- col refs m1A ref_id ;;
                 b <- col refs m1B ref_id ;;
                 let '(v, g') := uniform a b n g in
                 Ok (set m1 ref_id v, g'))
              (index refs)) with (s := (@nil (string * series), g))
    as ([m1 g'] & Hrun & _); [| exact I |].
  - intros x [f0 g0] Hin _. apply keys_get in Hin as [r Hr].
    unfold col, subscript. rewrite Hr. simpl. eauto.
  - exists m1, g'. split; [exact Hrun |]. intros id Hin.
    apply (for_each_covers (fun x (st : frame * rng) => In x (keys (fst st))))
      with (x := id) in Hrun; [exact Hrun | | | exact Hin].
    + intros x [f0 g0] s' Hb. inv_bind Hb. inv_bind Hb. simpl in Hb.
      inv_ok Hb. simpl. apply In_keys_set. auto.
    + intros x y [f0 g0] s' Hy Hb. inv_bind Hb. inv_bind Hb. simpl in Hb.
      inv_ok Hb. simpl. apply In_keys_set. auto.
Qed.

Lemma sample_m2_m3_total (edges : table edge_row) (n : nat) (g : rng) :
  exists m2 m3 g',
    sample_m2_m3 edges n ([], [], g) = Ok (m2, m3, g') /\
    forall id, In id (index edges) -> In id (keys m2) /\ In id (keys m3).
Proof.
  destruct (for_each_total (fun _ : frame * frame * rng => True)
              (fun edge_id '(m2, m3, g) =>
                 a2 <- col edges m2A edge_id ;;
                 b2 <- col edges m2B edge_id ;;
                 let '(v2, g2) := uniform a2 b2 n g in
                 a3 <- col edges m3A edge_id ;;
                 b3 <- col edges m3B edge_id ;;
                 let '(v3, g3) := uniform a3 b3 n g2 in
                 Ok (set m2 edge_id v2, set m3 edge_id v3, g3))
              (index edges))
    with (s := (@nil (string * series), @nil (string * series), g))
    as ([[m2 m3] g'] & Hrun & _); [| exact I |].
  - intros x [[f2 f3] g0] Hin _. apply keys_get in Hin as [r Hr].
    unfold col, subscript. rewrite Hr. simpl. eauto.
  - exists m2, m3, g'. split; [exact Hrun |]. intros id Hin.
    apply (for_each_covers
             (fun x (st : frame * frame * rng) =>
                In x (keys (fst (fst st))) /\ In x (keys (snd (fst st)))))
      with (x := id) in Hrun; [exact Hrun | | | exact Hin].
    + intros x [[f2 f3] g0] s' Hb. inv_bind Hb. inv_bind Hb. simpl in Hb.
      inv_bind Hb. inv_bind Hb. simpl in Hb. inv_ok Hb. simpl.
      split; apply In_keys_set; auto.
    + intros x y [[f2 f3] g0] s' [Hy2 Hy3] Hb. inv_bind Hb. inv_bind Hb.
      simpl in Hb. inv_bind Hb. inv_bind Hb. simpl in Hb. inv_ok Hb. simpl.
      split; apply In_keys_set; auto.
Qed.

Lemma edge_of_total (edges : table edge_row) (id : string) :
  In id (index edges) -> edge_of edges id = Ok (edge_at edges id).
Proof.
  intros Hin. apply keys_get in Hin as [row Hrow].
  unfold edge_of, edge_at, col, subscript. rewrite Hrow. reflexivity.
Qed.

Lemma raw_weight_total (refs : table ref_row) (nodes : table node_row)
  (edges : table edge_row) (m1 m3 : frame) (id : string) :
  well_formed refs nodes edges ->
  (forall r, In r (index refs) -> In r (keys m1)) ->
  (forall e, In e (index edges) -> In e (keys m3)) ->
  In id (index edges) ->
  exists w, raw_weight edges m1 m3 id = Ok w.
Proof.
  intros Hwf H1 H3 Hin. pose proof Hin as Hin'.
  apply keys_get in Hin as [row Hrow].
  destruct (Hwf id row Hrow) as [Href _].
  apply H1, keys_get in Href as [a Ha].
  apply H3, keys_get in Hin' as [b Hb].
  unfold raw_weight, col, subscript. rewrite Hrow. simpl.
  rewrite Ha. simpl. rewrite Hb. simpl. eauto.
Qed.

Lemma normWeights_total (refs : table ref_row) (nodes : table node_row)
  (edges : table edge_row) (m1 m3 : frame) :
  well_formed refs nodes edges ->
  (forall r, In r (index refs) -> In r (keys m1)) ->
  (forall e, In e (index edges) -> In e (keys m3)) ->
  exists normWeights,
    normWeights_cell edges m1 m3 = Ok normWeights /\
    forall id, In id (index edges) ->
      In (edge_at edges id) (keys normWeights).
Proof.
  intros Hwf H1 H3. unfold normWeights_cell.
  destruct (for_each_total (fun _ : dict (string * string) num => True)
              (normWeights_step edges m1 m3) (index edges))
    with (s := @nil (string * string * num)) as (nw & Hrun & _); [| exact I |].
  - intros id d Hin _. unfold normWeights_step.
    rewrite (edge_of_total _ _ Hin). simpl.
    destruct (raw_weight_total _ _ _ _ _ id Hwf H1 H3 Hin) as [w Hw].
    rewrite Hw. simpl. eauto.
  - exists nw. split; [exact Hrun |]. intros id Hin.
    apply (for_each_covers
             (fun x (d : dict (string * string) num) =>
                In x (index edges) -> In (edge_at edges x) (keys d)))
      with (x := id) in Hrun; auto.
    + intros x d d' Hb Hx. unfold normWeights_step in Hb.
      rewrite (edge_of_total _ _ Hx) in Hb. simpl in Hb.
      inv_bind Hb. inv_ok Hb. apply In_keys_set. auto.
    + intros x y d d' Hy Hb Hyin. unfold normWeights_step in Hb.
      inv_bind Hb. inv_bind Hb. inv_ok Hb. apply In_keys_set. auto.
Qed.

Lemma weights_total (refs : table ref_row) (nodes : table node_row)
  (edges : table edge_row) (m1 m3 : frame)
  (normWeights : dict (string * string) num) :
  well_formed refs nodes edges ->
  (forall r, In r (index refs) -> In r (keys m1)) ->
  (forall e, In e (index edges) -> In e (keys m3)) ->
  (forall id, In id (index edges) -> In (edge_at edges id) (keys normWeights)) ->
  exists weights,
    weights_cell edges m1 m3 normWeights = Ok weights /\
    forall id, In id (index edges) -> In id (keys weights).
Proof.
  intros Hwf H1 H3 Hnw. unfold weights_cell.
  destruct (for_each_total (fun _ : dict string num => True)
              (weights_step edges m1 m3 normWeights) (index edges))
    with (s := @nil (string * num)) as (w & Hrun & _); [| exact I |].
  - intros id d Hin _. unfold weights_step.
    rewrite (edge_of_total _ _ Hin). simpl.
    destruct (raw_weight_total _ _ _ _ _ id Hwf H1 H3 Hin) as [rw Hrw].
    rewrite Hrw. simpl.
    apply Hnw, keys_get in Hin as [nv Hnv].
    unfold subscript. rewrite Hnv. simpl. eauto.
  - exists w. split; [exact Hrun |]. intros id Hin.
    apply (for_each_covers (fun x (d : dict string num) => In x (keys d)))
      with (x := id) in Hrun; auto.
    + intros x d d' Hb. unfold weights_step in Hb.
      inv_bind Hb. inv_bind Hb. inv_bind Hb. inv_ok Hb.
      apply In_keys_set. auto.
    + intros x y d d' Hy Hb. unfold weights_step in Hb.
      inv_bind Hb. inv_bind Hb. inv_bind Hb. inv_ok Hb.
      apply In_keys_set. auto.
Qed.

Lemma superEdges_total (edges : table edge_row) (m2 : frame)
  (weights : dict string num) :
  (forall e, In e (index edges) -> In e (keys m2)) ->
  (forall id, In id (index edges) -> In id (keys weights)) ->
  exists superEdges,
    superEdges_cell edges m2 weights = Ok superEdges /\
    forall k, In k (keys superEdges) ->
      exists id, In id (index edges) /\ edge_at edges id = k.
Proof.
  intros H2 Hw. unfold superEdges_cell.
  destruct (for_each_total
              (fun d : dict (string * string) num =>
                 forall k, In k (keys d) ->
                   exists id, In id (index edges) /\ edge_at edges id = k)
              (superEdges_step edges m2 weights) (index edges))
    with (s := @nil (string * string * num)) as (se & Hrun & Hkeys).
  - intros id d Hin Hd. unfold superEdges_step.
    rewrite (edge_of_total _ _ Hin). simpl.
    pose proof Hin as Hin'.
    apply Hw, keys_get in Hin as [w Hwv]. unfold subscript. rewrite Hwv. simpl.
    pose proof Hin' as Hin''.
    apply H2, keys_get in Hin' as [b Hb]. rewrite Hb. simpl.
    eexists. split; [reflexivity |].
    intros k Hk. apply In_keys_set in Hk. destruct Hk as [-> | Hk]; eauto.
  - simpl. contradiction.
  - exists se. split; assumption.
Qed.

Lemma combo_of_names (incoming : list string) (t : list bool) (p : expr) :
  List.length t = List.length incoming ->
  In p (combo_of incoming t) -> In (name p) incoming.
Proof.
  intros Hlen Hin. unfold combo_of in Hin. apply in_map_iff in Hin.
  destruct Hin as (i & <- & Hi). apply in_seq in Hi.
  assert (Hnth : In (nth i incoming EmptyString) incoming)
    by (apply nth_In; lia).
  destruct (nth i t false); exact Hnth.
Qed.

Lemma cpt_parent_loop_total (superEdges : dict (string * string) num)
  (leak : series) (node : string) (combo : list expr)
  (cpts : dict string (list num)) (tmp : num) :
  (forall p, In p combo -> In (name p, node) (keys superEdges)) ->
  In node (keys cpts) ->
  exists st,
    for_each combo (cpt_parent_step superEdges leak node) (tmp, cpts) = Ok st /\
    forall n, In n (keys cpts) -> In n (keys (snd st)).
Proof.
  intros Hse Hnode.
  apply (for_each_total
           (fun st : num * dict string (list num) =>
              forall n, In n (keys cpts) -> In n (keys (snd st)))).
  - intros p [tmp0 cpts0] Hp Hkeys. unfold cpt_parent_step.
    assert (Htmp : exists tmp',
              (if isinstance_Variable p
               then s <- subscript superEdges (name p, node) ;;
                    Ok (nmul tmp0 (nsub (Scalar 1) s))
               else Ok tmp0) = Ok tmp').
    { destruct (isinstance_Variable p); [| eauto].
      apply Hse, keys_get in Hp as [v Hv].
      unfold subscript. rewrite Hv. simpl. eauto. }
    destruct Htmp as [tmp' ->]. simpl.
    apply Hkeys, keys_get in Hnode as [l Hl]. simpl in Hl.
    unfold subscript. rewrite Hl. simpl. eexists. split; [reflexivity |].
    simpl. intros n Hn. apply In_keys_set. auto.
  - simpl. auto.
Qed.

Lemma cpt_combo_loop_total (nodes : table node_row)
  (superEdges : dict (string * string) num) (leak : series) (node : string)
  (combos : list (list expr)) (cpts : dict string (list num)) :
  (forall c p, In c combos -> In p c -> In (name p, node) (keys superEdges)) ->
  (forall c, In c combos -> c <> [] -> In node (index nodes)) ->
  (forall n, In n (index nodes) -> In n (keys cpts)) ->
  exists cpts',
    for_each combos (cpt_combo_step superEdges leak node) cpts = Ok cpts' /\
    forall n, In n (index nodes) -> In n (keys cpts').
Proof.
  intros Hse Hnode Hkeys.
  apply (for_each_total
           (fun d : dict string (list num) =>
              forall n, In n (index nodes) -> In n (keys d))); [| exact Hkeys].
  intros c d Hc Hd. unfold cpt_combo_step. destruct c as [| p c].
  - simpl. eauto.
  - destruct (cpt_parent_loop_total superEdges leak node (p :: c) d (Scalar 1))
      as (st & Hrun & Hst).
    + intros q Hq. eapply Hse; eauto.
    + apply Hd. apply (Hnode (p :: c)); [assumption | discriminate].
    + rewrite Hrun. simpl. eexists. split; [reflexivity |]. auto.
Qed.

Lemma cpts_total (refs : table ref_row) (nodes : table node_row)
  (edges : table edge_row) (superEdges : dict (string * string) num)
  (leak : series) :
  well_formed refs nodes edges ->
  (forall k, In k (keys superEdges) ->
     exists id, In id (index edges) /\ edge_at edges id = k) ->
  exists cpts,
    cpts_cell nodes (cptCombos_cell (G_cell superEdges)) superEdges leak
    = Ok cpts.
Proof.
  intros Hwf Hkeys. unfold cpts_cell.
  destruct (G_cell_spec superEdges) as (HndG & _ & Hedges & _).
  destruct (for_each_total
              (fun d : dict string (list num) =>
                 forall n, In n (index nodes) -> In n (keys d))
              (fun item cpts =>
                 for_each (snd item)
                   (cpt_combo_step superEdges leak (fst item)) cpts)
              (cptCombos_cell (G_cell superEdges)))
    with (s := @fromkeys string (list num) _ (index nodes) [])
    as (cpts & Hrun & _); [| | eauto].
  - intros [node combos] d Hitem Hd. simpl.
    destruct (cptCombos_get (G_cell superEdges) node HndG) as [Hnd Hget].
    rewrite (In_get _ _ _ Hnd Hitem) in Hget.
    destruct (get (reverse (G_cell superEdges)) node) as [nbrs |] eqn:Hrev;
      [| discriminate]. simpl in Hget. inv_ok Hget.
    assert (Hps : parents (G_cell superEdges) node = keys nbrs).
    { unfold parents. rewrite (get_default_get _ _ _ _ Hrev). reflexivity. }
    destruct (parents_spec (G_cell superEdges) node HndG) as [_ Hpar].
    rewrite Hps in Hpar.
    assert (Hparent : forall u, In u (keys nbrs) ->
              In (u, node) (keys superEdges)).
    { intros u Hu. apply Hedges, Hpar. exact Hu. }
    apply cpt_combo_loop_total; [| | exact Hd].
    + intros c p Hc Hp. apply Hparent.
      unfold bools_of in Hc. apply in_map_iff in Hc as (t & <- & Ht).
      apply combo_of_names in Hp; [exact Hp |].
      eapply product_In_length; eauto.
    + intros c Hc Hne.
      destruct (bools_of_length (keys nbrs)) as [_ Hlen].
      apply Hlen in Hc. destruct (keys nbrs) as [| u ps] eqn:Hk.
      * destruct c; [congruence | discriminate].
      * destruct (Hkeys (u, node)) as (id & Hid & He);
          [apply Hparent; left; reflexivity |].
        apply keys_get in Hid as [row Hrow]. unfold edge_at in He.
        rewrite Hrow in He. inv_ok He. apply (Hwf id row Hrow).
  - intros n Hn. eapply get_Some_keys. apply fromkeys_In. exact Hn.
Qed.

(** Every well-formed input reaches the inference loop: no preparation cell
    raises. *)
Lemma prepare_total (refs : table ref_row) (nodes : table node_row)
  (edges : table edge_row) (numSamples : nat) (g : rng) :
  well_formed refs nodes edges ->
  exists nb, prepare refs nodes edges numSamples g = Ok nb.
Proof.
  intros Hwf. unfold prepare.
  destruct (sample_m1_total refs numSamples g) as (m1 & g1 & H1 & Hk1).
  rewrite H1. cbn [bind].
  destruct (sample_m2_m3_total edges numSamples g1)
    as (m2 & m3 & g2 & H23 & Hk23).
  rewrite H23. cbn [bind].
  destruct (normWeights_total refs nodes edges m1 m3 Hwf Hk1)
    as (nw & Hnw & Hknw); [intros e He; apply Hk23; exact He |].
  rewrite Hnw. cbn [bind].
  destruct (weights_total refs nodes edges m1 m3 nw Hwf Hk1)
    as (w & Hw & Hkw); [intros e He; apply Hk23; exact He | exact Hknw |].
  rewrite Hw. cbn [bind].
  destruct (superEdges_total edges m2 w) as (se & Hse & Hkse);
    [intros e He; apply Hk23; exact He | exact Hkw |].
  rewrite Hse. cbn [bind].
  destruct (leak_cell numSamples g2) as [leak g3].
  destruct (cpts_total refs nodes edges se leak Hwf Hkse) as [cpts Hcpts].
  rewrite Hcpts. cbn [bind].
  destruct (bbnNodes_cell nodes) as [h bbnNodes]. eauto.
Qed.

(** * Further properties of the notebook *)

(** ** Which inputs reach the inference loop *)

Lemma bind_Raise {A B : Type} (r : result A) (k : A -> result B) (e : error) :
  bind r k = Raise e ->
  r = Raise e \/ exists a, r = Ok a /\ k a = Raise e.
Proof.
  destruct r as [a | e']; simpl; intros Hk; [right; eauto | left].
  inv_ok Hk. reflexivity.
Qed.

Lemma for_each_Raise {A S : Type} (body : A -> S -> result S) (l : list A)
  (e : error) :
  forall s, for_each l body s = Raise e ->
            exists x s1, In x l /\ body x s1 = Raise e.
Proof.
  induction l as [| x l IH]; simpl; intros s Hrun; [discriminate |].
  apply bind_Raise in Hrun as [Hx | (s1 & Hx & Hrun)].
  - exists x, s. auto.
  - apply IH in Hrun as (y & s2 & Hy & Hb). exists y, s2. auto.
Qed.

(** Every iteration of a loop that ended normally ended normally, on a state
    satisfying every invariant of the loop. *)
Lemma for_each_Ok_each {A S : Type} (P : S -> Prop)
  (body : A -> S -> result S) (l : list A) :
  (forall x s s', P s -> body x s = Ok s' -> P s') ->
  forall s s', P s -> for_each l body s = Ok s' ->
    forall x, In x l -> exists s1 s2, P s1 /\ body x s1 = Ok s2.
Proof.
  intros Hkeep. induction l as [| a l IH]; simpl; intros s s' Hs Hrun x Hin.
  - contradiction.
  - inv_bind Hrun. destruct Hin as [-> | Hin].
    + exists s, x0. auto.
    + apply (IH x0 s'); [| assumption | assumption].
      apply (Hkeep a s); assumption.
Qed.

Lemma subscript_Raise {K V : Type} `{Key K} (d : dict K V) (k : K) (e : error) :
  subscript d k = Raise e -> e = KeyError /\ ~ In k (keys d).
Proof.
  unfold subscript. destruct (get d k) eqn:Hg; [discriminate |].
  intros He. inv_ok He. split; [reflexivity | apply get_None; assumption].
Qed.

Lemma col_Raise {Row A : Type} (t : table Row) (field : Row -> A) (id : string)
  (e : error) :
  col t field id = Raise e -> e = KeyError.
Proof.
  unfold col. intros Hc. apply bind_Raise in Hc as [Hc | (r & _ & Hc)].
  - apply subscript_Raise in Hc. tauto.
  - discriminate.
Qed.

Ltac only_KeyError H :=
  repeat
    (let a := fresh "a" in
     let Ha := fresh "Ha" in
     apply bind_Raise in H as [H | (a & Ha & H)];
     [first [apply col_Raise in H; exact H
            | apply subscript_Raise in H; exact (proj1 H)
            | idtac] |]);
  try discriminate H.

Lemma edge_of_Raise (edges : table edge_row) (id : string) (e : error) :
  edge_of edges id = Raise e -> e = KeyError.
Proof. unfold edge_of. intros H. only_KeyError H. Qed.

Lemma raw_weight_Raise (edges : table edge_row) (m1 m3 : frame) (id : string)
  (e : error) :
  raw_weight edges m1 m3 id = Raise e -> e = KeyError.
Proof. unfold raw_weight. intros H. only_KeyError H. Qed.

Lemma cpt_parent_step_Raise (superEdges : dict (string * string) num)
  (leak : series) (node : string) (parent : expr)
  (st : num * dict string (list num)) (e : error) :
  cpt_parent_step superEdges leak node parent st = Raise e -> e = KeyError.
Proof.
  destruct st as [tmp cpts]. unfold cpt_parent_step. intros H.
  apply bind_Raise in H as [H | (tmp' & _ & H)].
  - destruct (isinstance_Variable parent); [| discriminate].
    only_KeyError H.
  - only_KeyError H.
Qed.

Lemma cpts_cell_Raise (nodes : table node_row)
  (cptCombos : dict string (list (list expr)))
  (superEdges : dict (string * string) num) (leak : series) (e : error) :
  cpts_cell nodes cptCombos superEdges leak = Raise e -> e = KeyError.
Proof.
  unfold cpts_cell. intros H.
  apply for_each_Raise in H as (item & d & _ & H).
  apply for_each_Raise in H as (combo & d1 & _ & H).
  unfold cpt_combo_step in H. apply bind_Raise in H as [H | (st & _ & H)];
    [| discriminate].
  apply for_each_Raise in H as (p & st & _ & H).
  eapply cpt_parent_step_Raise; eauto.
Qed.


Lemma sample_m1_keys_sub (refs : table ref_row) (n : nat) (g g' : rng)
  (m1 : frame) :
  sample_m1 refs n ([], g) = Ok (m1, g') ->
  forall id, In id (keys m1) -> In id (index refs).
Proof.
  unfold sample_m1. intros Hrun.
  refine (for_each_inv
            (fun st : frame * rng =>
               forall id, In id (keys (fst st)) -> In id (index refs))
            _ _ _ _ (m1, g') _ Hrun).
  - intros x [f0 g0] s' Hx Hf Hb. inv_bind Hb. inv_bind Hb. simpl in Hb.
    inv_ok Hb. simpl. intros id Hid. apply In_keys_set in Hid.
    destruct Hid as [-> | Hid]; [assumption | apply Hf; assumption].
  - simpl. contradiction.
Qed.

Lemma superEdges_covers (edges : table edge_row) (m2 : frame)
  (weights : dict string num) (superEdges : dict (string * string) num) :
  superEdges_cell edges m2 weights = Ok superEdges ->
  forall id, In id (index edges) -> In (edge_at edges id) (keys superEdges).
Proof.
  unfold superEdges_cell. intros Hrun id Hin.
  apply (for_each_covers
           (fun x (d : dict (string * string) num) =>
              In (edge_at edges x) (keys d)))
    with (x := id) in Hrun; auto.
  - intros x d d' Hb. unfold superEdges_step in Hb.
    inv_bind Hb. inv_bind Hb. inv_bind Hb. inv_ok Hb.
    apply edge_of_Ok in Hx as [-> _]. apply In_keys_set. auto.
  - intros x y d d' Hy Hb. unfold superEdges_step in Hb.
    inv_bind Hb. inv_bind Hb. inv_bind Hb. inv_ok Hb.
    apply In_keys_set. auto.
Qed.

Lemma cpt_combo_loop_keys (superEdges : dict (string * string) num)
  (leak : series) (node : string) (combos : list (list expr))
  (cpts cpts' : dict string (list num)) :
  for_each combos (cpt_combo_step superEdges leak node) cpts = Ok cpts' ->
  forall n, In n (keys cpts') -> In n (keys cpts).
Proof.
  intros Hrun n Hn. apply cpt_combo_loop in Hrun as [Hother Hnode].
  apply keys_get in Hn as [l Hl].
  destruct (String.eqb_spec n node) as [-> | Hne].
  - rewrite Hnode in Hl. destruct (get cpts node) eqn:Hg; [| discriminate].
    eapply get_Some_keys; eauto.
  - rewrite Hother in Hl by assumption. eapply get_Some_keys; eauto.
Qed.

(** A table is stored only for nodes of the node table: when the CPT cell
    ends normally, every node that has a combination with at least one
    literal is in the node table. *)
Lemma cpts_cell_Ok_nodes (nodes : table node_row)
  (cptCombos : dict string (list (list expr)))
  (superEdges : dict (string * string) num) (leak : series)
  (cpts : dict string (list num)) (node : string)
  (combos : list (list expr)) (combo : list expr) :
  cpts_cell nodes cptCombos superEdges leak = Ok cpts ->
  In (node, combos) cptCombos -> In combo combos -> combo <> [] ->
  In node (index nodes).
Proof.
  unfold cpts_cell. intros Hrun Hitem Hcombo Hne.
  pose (P := fun d : dict string (list num) =>
               forall n, In n (keys d) -> In n (index nodes)).
  destruct (for_each_Ok_each P
              (fun item cpts =>
                 for_each (snd item)
                   (cpt_combo_step superEdges leak (fst item)) cpts)
              cptCombos) with (s := @fromkeys string (list num) _ (index nodes) [])
                              (s' := cpts) (x := (node, combos))
    as (d1 & d2 & Hd1 & Hinner); try assumption.
  - intros item d d' Hd Hb n Hn. apply Hd.
    eapply cpt_combo_loop_keys; eauto.
  - intros n Hn. apply keys_get in Hn as [l Hl].
    rewrite fromkeys_get in Hl. destruct (in_dec _ n (index nodes));
      [assumption | discriminate].
  - simpl in Hinner.
    destruct (for_each_Ok_each P (cpt_combo_step superEdges leak node) combos)
      with (s := d1) (s' := d2) (x := combo) as (d3 & d4 & Hd3 & Hstep);
      try assumption.
    + intros c d d' Hd Hb n Hn. apply Hd.
      apply (cpt_combo_loop_keys superEdges leak node [c] d d'); [| assumption].
      simpl. rewrite Hb. reflexivity.
    + unfold cpt_combo_step in Hstep. inv_bind Hstep.
      destruct combo as [| p rest]; [congruence |].
      cbn [for_each] in Hx. inv_bind Hx. destruct x0 as [tmp1 d5].
      apply cpt_parent_step_Ok in Hx0 as (_ & l & Hl & _).
      apply Hd3. eapply get_Some_keys; eauto.
Qed.

Lemma prepared_well_formed (refs : table ref_row) (nodes : table node_row)
  (edges : table edge_row) (numSamples : nat) (g g1 g2 : rng) (nb : notebook) :
  prepared refs nodes edges numSamples g g1 g2 nb ->
  well_formed refs nodes edges.
Proof.
  intros Hp id row Hrow.
  assert (Hid : In id (index edges)) by (eapply get_Some_keys; eauto).
  destruct Hp as [H1 _ Hnw _ Hse HG Hcc _ Hcpts _ _ _]. split.
  - apply (sample_m1_keys_sub _ _ _ _ _ H1).
    unfold normWeights_cell in Hnw.
    destruct (for_each_Ok_each (fun _ => True)
                (normWeights_step edges (nb_m1 nb) (nb_m3 nb)) (index edges))
      with (s := @nil (string * string * num)) (s' := nb_normWeights nb)
           (x := id) as (d1 & d2 & _ & Hstep); auto.
    unfold normWeights_step in Hstep. inv_bind Hstep. inv_bind Hstep.
    unfold raw_weight in Hx0. inv_bind Hx0. inv_bind Hx0.
    apply col_Ok in Hx1 as (row' & Hrow' & ->).
    assert (row' = row) by congruence; subst row'.
    apply subscript_Ok in Hx2. eapply get_Some_keys; eauto.
  - pose proof (superEdges_covers _ _ _ _ Hse id Hid) as Hkey.
    unfold edge_at in Hkey. rewrite Hrow in Hkey.
    destruct (G_cell_spec (nb_superEdges nb)) as (HndG & _ & Hedges & _).
    apply Hedges in Hkey. rewrite <- HG in Hkey, HndG.
    destruct (parents_spec (nb_G nb) (child_id row) HndG) as [_ Hpar].
    apply Hpar in Hkey.
    destruct (cptCombos_get (nb_G nb) (child_id row) HndG) as [_ Hget].
    unfold parents, get_default in Hkey.
    destruct (get (reverse (nb_G nb)) (child_id row)) as [nbrs |] eqn:Hrev;
      [| contradiction].
    simpl in Hget. rewrite <- Hcc in Hget. apply get_In in Hget.
    destruct (bools_of_length (keys nbrs)) as [Hcount Hlen].
    destruct (bools_of (keys nbrs)) as [| combo combos] eqn:Hb.
    { simpl in Hcount. pose proof (Nat.pow_nonzero 2 (List.length (keys nbrs))).
      lia. }
    apply (cpts_cell_Ok_nodes _ _ _ _ _ _ _ combo Hcpts Hget);
      [left; reflexivity |].
    intros ->. specialize (Hlen [] (or_introl eq_refl)).
    destruct (keys nbrs); [contradiction | discriminate].
Qed.



(** ** Orders of insertion *)

Lemma existsb_keqb {K : Type} `{Key K} (k : K) (l : list K) :
  existsb (keqb k) l = true <-> In k l.
Proof.
  rewrite existsb_exists. split.
  - intros (x & Hx & Heq). destruct (keqb_spec k x); congruence.
  - intros Hin. exists k. split; [assumption | apply keqb_refl].
Qed.

Lemma contains_existsb {K V : Type} `{Key K} (d : dict K V) (k : K) :
  contains d k = existsb (keqb k) (keys d).
Proof.
  destruct (contains d k) eqn:Hc; symmetry.
  - apply existsb_keqb, contains_true. assumption.
  - destruct (existsb (keqb k) (keys d)) eqn:He; [| reflexivity].
    apply existsb_keqb, contains_true in He. congruence.
Qed.

Lemma keys_set_add_key {K V : Type} `{Key K} (d : dict K V) (k : K) (v : V) :
  keys (set d k v) = add_key (keys d) k.
Proof. rewrite keys_set, contains_existsb. reflexivity. Qed.

Lemma add_key_present {K : Type} `{Key K} (acc : list K) (k : K) :
  In k acc -> add_key acc k = acc.
Proof.
  intros Hin. unfold add_key. apply existsb_keqb in Hin. rewrite Hin.
  reflexivity.
Qed.

Lemma add_key_absent {K : Type} `{Key K} (acc : list K) (k : K) :
  ~ In k acc -> add_key acc k = acc ++ [k].
Proof.
  intros Hin. unfold add_key.
  destruct (existsb (keqb k) acc) eqn:He; [| reflexivity].
  apply existsb_keqb in He. contradiction.
Qed.

Lemma filter_twice {A : Type} (f h : A -> bool) (l : list A) :
  filter f (filter h l) = filter (fun x => h x && f x) l.
Proof.
  induction l as [| x l IH]; simpl; [reflexivity |].
  destruct (h x); simpl; [destruct (f x); rewrite IH; reflexivity | assumption].
Qed.

Lemma fold_add_key_nub {K : Type} `{Key K} (l acc : list K) :
  fold_left add_key l acc
  = acc ++ filter (fun y => negb (existsb (keqb y) acc)) (nub l).
Proof.
  revert acc. induction l as [| x l IH]; intros acc; simpl.
  - rewrite app_nil_r. reflexivity.
  - rewrite IH. unfold add_key.
    destruct (existsb (keqb x) acc) eqn:Hx; cbn [filter nub].
    + cbn [negb]. f_equal. rewrite filter_twice. apply filter_ext.
      intros y. destruct (keqb_spec x y) as [<- | Hne]; simpl.
      * rewrite Hx. reflexivity.
      * reflexivity.
    + cbn [negb]. rewrite <- app_assoc. cbn [app]. do 2 f_equal.
      rewrite filter_twice. apply filter_ext. intros y.
      rewrite existsb_app. cbn [existsb]. rewrite orb_false_r, negb_orb.
      destruct (keqb_spec y x) as [-> | Hne].
      * rewrite keqb_refl. cbn [negb andb]. rewrite andb_false_r. reflexivity.
      * rewrite (keqb_neq x y) by congruence. cbn [negb andb].
        rewrite andb_true_r. reflexivity.
Qed.

Lemma fold_add_key_nil {K : Type} `{Key K} (l : list K) :
  fold_left add_key l [] = nub l.
Proof. rewrite fold_add_key_nub. simpl. apply filter_true. Qed.

Lemma superEdges_loop_keys (edges : table edge_row) (m2 : frame)
  (weights : dict string num) (l : list string) :
  forall d0 d,
    for_each l (superEdges_step edges m2 weights) d0 = Ok d ->
    keys d = fold_left add_key (map (edge_at edges) l) (keys d0).
Proof.
  induction l as [| id l IH]; intros d0 d Hrun; simpl in *.
  - inv_ok Hrun. reflexivity.
  - inv_bind Hrun. rewrite (IH _ _ Hrun). f_equal.
    unfold superEdges_step in Hx. inv_bind Hx. inv_bind Hx. inv_bind Hx.
    inv_ok Hx. apply edge_of_Ok in Hx0 as [-> _]. apply keys_set_add_key.
Qed.

(** X6.  [superEdges] has one entry per distinct (parent, child) pair of the edge
    table, in the order in which the pairs first occur in it. *)
Theorem superEdges_keys_first_occurrence (refs : table ref_row)
  (nodes : table node_row) (edges : table edge_row) (numSamples : nat)
  (g : rng) (nb : notebook) :
  prepare refs nodes edges numSamples g = Ok nb ->
  keys (nb_superEdges nb) = nub (map (edge_at edges) (index edges)).
Proof.
  intros Hp. apply prepare_Ok in Hp as (g1 & g2 & Hp).
  destruct Hp as [_ _ _ _ Hse _ _ _ _ _ _ _]. unfold superEdges_cell in Hse.
  rewrite (superEdges_loop_keys _ _ _ _ _ _ Hse). apply fold_add_key_nil.
Qed.

Lemma superEdges_keys_first_occurrence_witness :
  exists nb,
    prepare Example.refs Example.nodes Example.edges Example.numSamples
      Example.g = Ok nb /\
    keys (nb_superEdges nb)
    = nub (map (edge_at Example.edges) (index Example.edges)).
Proof.
  eexists. split; [vm_compute; reflexivity |].
  apply (superEdges_keys_first_occurrence Example.refs Example.nodes
           Example.edges Example.numSamples Example.g).
  vm_compute. reflexivity.
Defined.

Lemma keys_nx_add_node_add_key (G : DiGraph) (n : string) :
  keys (nx_add_node G n) = add_key (keys G) n.
Proof.
  unfold nx_add_node, add_key. rewrite contains_existsb.
  destruct (existsb (keqb n) (keys G)) eqn:He; [reflexivity |].
  rewrite keys_set, contains_existsb, He. reflexivity.
Qed.

Lemma keys_nx_add_edge_add_key (G : DiGraph) (u v : string) :
  keys (nx_add_edge G (u, v)) = add_key (add_key (keys G) u) v.
Proof.
  unfold nx_add_edge. rewrite keys_set_add_key, !keys_nx_add_node_add_key.
  apply add_key_present.
  unfold add_key at 1. destruct (existsb (keqb v) (add_key (keys G) u)) eqn:Hv.
  - unfold add_key. destruct (existsb (keqb u) (keys G)) eqn:Hu.
    + apply existsb_keqb. assumption.
    + apply in_or_app. right. left. reflexivity.
  - apply in_or_app. left. unfold add_key.
    destruct (existsb (keqb u) (keys G)) eqn:Hu.
    + apply existsb_keqb. assumption.
    + apply in_or_app. right. left. reflexivity.
Qed.

Lemma keys_add_edges_from (es : list (string * string)) (G : DiGraph) :
  keys (add_edges_from G es) = fold_left add_key (endpoints es) (keys G).
Proof.
  unfold add_edges_from. revert G.
  induction es as [| [u v] es IH]; intros G; [reflexivity |].
  cbn [fold_left endpoints flat_map app fst snd].
  rewrite IH, keys_nx_add_edge_add_key. reflexivity.
Qed.

(** X7.  The nodes of the causal graph are the ends of the super-edges, each
    once, in the order in which they first occur when the pairs are read
    parent first. *)
Theorem graph_nodes_first_occurrence {V : Type}
  (superEdges : dict (string * string) V) :
  nx_nodes (G_cell superEdges) = nub (endpoints (keys superEdges)).
Proof.
  unfold nx_nodes, G_cell. rewrite keys_add_edges_from. apply fold_add_key_nil.
Qed.

Lemma get_default_nx_add_node (G : DiGraph) (n v : string) :
  get_default (nx_add_node G n) v [] = get_default G v [].
Proof.
  unfold get_default. rewrite get_nx_add_node.
  destruct (get G v); [reflexivity |]. destruct (keqb n v); reflexivity.
Qed.

Lemma get_default_add_nodes_from (ns : list string) (G : DiGraph) (v : string) :
  get_default (add_nodes_from G ns) v [] = get_default G v [].
Proof.
  unfold add_nodes_from. revert G.
  induction ns as [| n ns IH]; intros G; simpl; [reflexivity |].
  rewrite IH. apply get_default_nx_add_node.
Qed.

Lemma get_default_nx_add_edge (G : DiGraph) (a b v : string) :
  get_default (nx_add_edge G (a, b)) v [] =
  if keqb a v then set (get_default G v []) b tt else get_default G v [].
Proof.
  unfold get_default at 1. rewrite get_nx_add_edge.
  destruct (keqb_spec a v) as [-> | Hne]; [reflexivity |].
  unfold get_default. destruct (get G v); [reflexivity |].
  destruct (keqb b v); reflexivity.
Qed.

Lemma keys_nbrs_add_edges_from (es : list (string * string)) (G : DiGraph)
  (v : string) :
  keys (get_default (add_edges_from G es) v []) =
  fold_left add_key
    (map snd (filter (fun e => keqb (fst e) v) es))
    (keys (get_default G v [])).
Proof.
  unfold add_edges_from. revert G.
  induction es as [| [a b] es IH]; intros G; [reflexivity |].
  cbn [fold_left filter fst]. rewrite IH, get_default_nx_add_edge.
  destruct (keqb a v); [| reflexivity].
  cbn [map snd fold_left]. rewrite keys_set_add_key. reflexivity.
Qed.

Lemma fold_add_key_NoDup {K : Type} `{Key K} (l acc : list K) :
  NoDup (acc ++ l) -> fold_left add_key l acc = acc ++ l.
Proof.
  revert acc. induction l as [| x l IH]; intros acc Hnd; simpl.
  - rewrite app_nil_r. reflexivity.
  - rewrite add_key_absent.
    + rewrite IH; rewrite <- app_assoc; [reflexivity | exact Hnd].
    + apply NoDup_remove_2 in Hnd. intros Hin. apply Hnd.
      apply in_or_app. auto.
Qed.

Lemma incoming_of_item (u v : string) (ks : list string) :
  NoDup ks ->
  map snd
    (filter (fun e : string * string => keqb (fst e) v)
       (map (fun e : string * string => (snd e, fst e))
          (map (fun nbr => (u, nbr)) ks)))
  = if existsb (keqb v) ks then [u] else [].
Proof.
  induction ks as [| k ks IH]; intros Hnd; [reflexivity |].
  inversion Hnd as [| ? ? Hk Hnd']; subst.
  cbn [map filter fst snd existsb].
  destruct (keqb_spec k v) as [-> | Hne].
  - rewrite keqb_refl. cbn [orb map snd]. rewrite (IH Hnd').
    destruct (existsb (keqb v) ks) eqn:He; [| reflexivity].
    apply existsb_keqb in He. contradiction.
  - rewrite (keqb_neq v k) by congruence. cbn [orb]. apply IH. assumption.
Qed.

Lemma incoming_of_items (G : DiGraph) (v : string) (L : list (string * dict string unit)) :
  (forall u nbrs, In (u, nbrs) L ->
     get G u = Some nbrs /\ NoDup (keys nbrs)) ->
  map snd
    (filter (fun e : string * string => keqb (fst e) v)
       (map (fun e : string * string => (snd e, fst e))
          (flat_map
             (fun adj : string * dict string unit =>
                map (fun nbr => (fst adj, nbr)) (keys (snd adj))) L)))
  = filter (fun u => has_edge G u v) (map fst L).
Proof.
  induction L as [| [u nbrs] L IH]; intros HL; [reflexivity |].
  cbn [flat_map map fst snd filter].
  rewrite map_app, filter_app, map_app.
  rewrite IH by (intros u' n' Hin; apply HL; right; exact Hin).
  destruct (HL u nbrs (or_introl eq_refl)) as [Hget Hnd].
  rewrite (incoming_of_item u v (keys nbrs) Hnd).
  unfold has_edge at 2. rewrite (get_default_get _ _ _ _ Hget).
  rewrite contains_existsb. destruct (existsb (keqb v) (keys nbrs)); reflexivity.
Qed.

(** X8.  The parents of a node, as the CPT cells enumerate them, are the nodes of
    the graph that have an edge to it, in the order of the graph's nodes. *)
Theorem parents_in_node_order {V : Type}
  (superEdges : dict (string * string) V) (node : string) :
  let G := G_cell superEdges in
  parents G node = filter (fun u => has_edge G u node) (nx_nodes G).
Proof.
  intros G. destruct (G_cell_spec superEdges) as (Hnd & Hnb & _ & _).
  fold G in Hnd, Hnb. unfold parents, reverse.
  rewrite keys_nbrs_add_edges_from, get_default_add_nodes_from.
  unfold nx_edges. rewrite (incoming_of_items G node G).
  - apply fold_add_key_NoDup. simpl. apply NoDup_filter. exact Hnd.
  - intros u nbrs Hin. assert (Hget : get G u = Some nbrs)
      by (apply In_get; assumption).
    split; [exact Hget | eapply Hnb; eauto].
Qed.

(** ** Positions in a table of combinations *)

Lemma asserted_first_low (k j : nat) :
  (j < 2 ^ k)%nat -> asserted (S k) j 0 = true.
Proof.
  intros Hj. unfold asserted. replace (S k - 1 - 0)%nat with k by lia.
  rewrite Nat.div_small by assumption. reflexivity.
Qed.

Lemma asserted_first_high (k j : nat) :
  (2 ^ k <= j < 2 ^ S k)%nat -> asserted (S k) j 0 = false.
Proof.
  intros [Hlo Hhi]. unfold asserted. replace (S k - 1 - 0)%nat with k by lia.
  assert (Hone : (j / 2 ^ k = 1)%nat).
  { symmetry. apply (Nat.div_unique j (2 ^ k) 1 (j - 2 ^ k)).
    - rewrite Nat.pow_succ_r' in Hhi. lia.
    - lia. }
  rewrite Hone. reflexivity.
Qed.

Lemma asserted_rest_high (k j i : nat) :
  (i < k)%nat -> (2 ^ k <= j)%nat ->
  asserted (S k) j (S i) = asserted k (j - 2 ^ k) i.
Proof.
  intros Hi Hj. unfold asserted.
  replace (S k - 1 - S i)%nat with (k - 1 - i)%nat by lia.
  set (m := (k - 1 - i)%nat).
  assert (Hk : (2 ^ k = 2 ^ (S (k - S m)) * 2 ^ m)%nat).
  { rewrite <- Nat.pow_add_r. f_equal. unfold m. lia. }
  replace j with (2 ^ S (k - S m) * 2 ^ m + (j - 2 ^ k))%nat at 1 by lia.
  rewrite Nat.div_add_l by (apply Nat.pow_nonzero; lia).
  rewrite Nat.even_add, Nat.pow_succ_r', Nat.even_mul. simpl.
  destruct (Nat.even ((j - 2 ^ k) / 2 ^ m)); reflexivity.
Qed.

Lemma nth_error_product (k j : nat) :
  (j < 2 ^ k)%nat ->
  nth_error (product [true; false] k) j = Some (map (asserted k j) (seq 0 k)).
Proof.
  revert j. induction k as [| k IH]; intros j Hj.
  - simpl in Hj. assert (j = 0%nat) by lia. subst j. reflexivity.
  - cbn [product flat_map]. rewrite app_nil_r.
    assert (Hlen : List.length (map (cons true) (product [true; false] k))
                   = (2 ^ k)%nat).
    { rewrite length_map, product_length. reflexivity. }
    cbn [seq map]. rewrite <- seq_shift, map_map.
    destruct (Nat.lt_ge_cases j (2 ^ k)) as [Hlow | Hhigh].
    + rewrite nth_error_app1 by lia. rewrite nth_error_map, (IH j Hlow).
      cbn [option_map]. rewrite asserted_first_low by assumption.
      do 2 f_equal. apply map_ext_in. intros i Hi. apply in_seq in Hi.
      unfold asserted. f_equal. f_equal. f_equal. lia.
    + rewrite nth_error_app2 by lia. rewrite Hlen.
      rewrite Nat.pow_succ_r' in Hj.
      rewrite nth_error_map, (IH (j - 2 ^ k)%nat) by lia.
      cbn [option_map]. rewrite asserted_first_high
        by (rewrite Nat.pow_succ_r'; lia).
      do 2 f_equal. apply map_ext_in. intros i Hi. apply in_seq in Hi.
      symmetry. apply asserted_rest_high; lia.
Qed.

Lemma combo_of_asserted (incoming : list string) (j : nat) :
  let k := List.length incoming in
  combo_of incoming (map (asserted k j) (seq 0 k))
  = map (fun i => literal (asserted k j i) (nth i incoming EmptyString))
        (seq 0 k).
Proof.
  intros k. unfold combo_of. rewrite length_map, length_seq.
  apply map_ext_in. intros i Hi. apply in_seq in Hi.
  rewrite (nth_indep _ false (asserted k j 0))
    by (rewrite length_map, length_seq; lia).
  rewrite map_nth, seq_nth by lia. simpl.
  destruct (asserted k j i); reflexivity.
Qed.

(** X10.  The table of combinations of a node can be indexed by position: a node
    with [k] parents has [2^k] combinations, and combination number [j]
    holds, for the parent at each position [i], its positive literal when
    the binary digit of weight [2^(k-1-i)] of [j] is 0 and its complement
    otherwise. *)
Theorem combination_by_position {V : Type}
  (superEdges : dict (string * string) V) (node : string)
  (combos : list (list expr)) (j : nat) :
  let G := G_cell superEdges in
  let ps := parents G node in
  let k := List.length ps in
  get (cptCombos_cell G) node = Some combos ->
  (j < 2 ^ k)%nat ->
  List.length combos = (2 ^ k)%nat /\
  nth_error combos j
  = Some (map (fun i => literal (asserted k j i) (nth i ps EmptyString))
              (seq 0 k)).
Proof.
  intros G ps k Hget Hj.
  destruct (G_cell_spec superEdges) as (Hnd & _ & _ & _). fold G in Hnd.
  destruct (cptCombos_get G node Hnd) as [_ Hget'].
  rewrite Hget in Hget'.
  assert (Hps : combos = bools_of ps).
  { unfold ps, parents, get_default.
    destruct (get (reverse G) node); simpl in Hget'; [| discriminate].
    inv_ok Hget'. reflexivity. }
  subst combos. split; [apply bools_of_length |].
  unfold bools_of. fold k. rewrite nth_error_map, (nth_error_product k j Hj).
  cbn [option_map]. f_equal. apply combo_of_asserted.
Qed.

Lemma combination_by_position_witness :
  exists combos,
    get (cptCombos_cell
           (G_cell (V := unit) [(("A", "tq"), tt); (("B", "tq"), tt)]%string))
        "tq"%string = Some combos /\
    (2 < 2 ^ 2)%nat /\
    nth_error combos 2 = Some [ExprComplement "A"; ExprVariable "B"].
Proof.
  eexists. split; [vm_compute; reflexivity |]. split; [simpl; lia |].
  refine (proj2 (combination_by_position
                   (V := unit) [(("A", "tq"), tt); (("B", "tq"), tt)]%string
                   "tq"%string _ 2 _ _)).
  - vm_compute. reflexivity.
  - simpl. lia.
Defined.

(** ** The noisy-OR loop, one sample at a time *)

Lemma partial_products_at (superEdges : dict (string * string) num)
  (node : string) (n s : nat) (combo : list expr) :
  (s < n)%nat -> all_len n superEdges ->
  forall tmp, has_len n tmp ->
    map (fun t => at_sample t s) (partial_products superEdges node combo tmp)
    = running_at superEdges node s combo (at_sample tmp s).
Proof.
  intros Hs Hse. induction combo as [| p combo IH]; intros tmp Htmp;
    [reflexivity |].
  cbn [partial_products running_at map].
  pose proof (product_step_len superEdges node n p tmp Hse Htmp) as Hlen.
  rewrite (IH _ Hlen). destruct (isinstance_Variable p); [| reflexivity].
  assert (Hstep :
    at_sample
      (nmul tmp (nsub (Scalar 1)
                   (get_default superEdges (name p, node) (Scalar 0)))) s
    = at_sample tmp s * (1 - value_at superEdges (name p, node) s)).
  { unfold nmul, nsub, value_at.
    assert (Hd : has_len n (get_default superEdges (name p, node) (Scalar 0)))
      by (apply has_len_get_default; assumption).
    assert (Hsub : has_len n
              (broadcast Qminus (Scalar 1)
                 (get_default superEdges (name p, node) (Scalar 0))))
      by (apply broadcast_has_len; [exact I | assumption]).
    rewrite (broadcast_at Qmult _ _ n s Hs Htmp Hsub).
    rewrite (broadcast_at Qminus (Scalar 1) _ n s Hs I Hd). reflexivity. }
  rewrite Hstep. reflexivity.
Qed.

Lemma tmps_at_running (superEdges : dict (string * string) num)
  (cptCombos : dict string (list (list expr))) (node : string) (n s : nat) :
  (s < n)%nat -> all_len n superEdges ->
  tmps_at superEdges cptCombos node s
  = flat_map (fun combo => running_at superEdges node s combo 1)
             (get_default cptCombos node []).
Proof.
  intros Hs Hse. unfold tmps_at, all_products.
  induction (get_default cptCombos node []) as [| c cs IH]; [reflexivity |].
  cbn [flat_map]. rewrite map_app, IH.
  rewrite (partial_products_at superEdges node n s c Hs Hse (Scalar 1) I).
  reflexivity.
Qed.

Lemma probs_of_running (refs : table ref_row) (nodes : table node_row)
  (edges : table edge_row) (numSamples : nat) (g g1 g2 : rng) (nb : notebook)
  (node : string) (s : nat) :
  prepared refs nodes edges numSamples g g1 g2 nb ->
  (s < numSamples)%nat ->
  In node (index nodes) ->
  probs_of (nb_cpts nb) node s
  = Ok (noisy_pairs (nth s (nb_leak nb) 0)
          (flat_map
             (fun combo => running_at (nb_superEdges nb) node s combo 1)
             (get_default (nb_cptCombos nb) node []))).
Proof.
  intros Hp Hs Hin.
  rewrite (probs_of_spec _ _ _ _ _ _ _ _ node s Hp Hs Hin).
  destruct (aggregation_spec _ _ _ _ _ _ _ _ s Hp Hs) as (Hse & _).
  rewrite (tmps_at_running _ _ _ numSamples s Hs Hse). reflexivity.
Qed.

(** X11.  The vectorised CPT cell computes, for every sample, what the scalar
    noisy-OR loop computes from that sample's strengths and leak: the list
    installed on a node at sample [s] is, combination after combination and
    parent position after parent position, the pair [1 - L * t], [L * t] of
    the running product [t] (or the default pair for a node without
    products). *)
Theorem installed_probs_per_sample (refs : table ref_row)
  (nodes : table node_row) (edges : table edge_row) (numSamples : nat)
  (g : rng) (nb : notebook) (node : string) (s : nat) :
  prepare refs nodes edges numSamples g = Ok nb ->
  (s < numSamples)%nat ->
  In node (index nodes) ->
  probs_of (nb_cpts nb) node s
  = Ok (noisy_pairs (nth s (nb_leak nb) 0)
          (flat_map
             (fun combo => running_at (nb_superEdges nb) node s combo 1)
             (get_default (nb_cptCombos nb) node []))).
Proof.
  intros Hp Hs Hin. apply prepare_Ok in Hp as (g1 & g2 & Hp).
  eapply probs_of_running; eauto.
Qed.

Lemma installed_probs_per_sample_witness :
  exists nb,
    prepare Example.refs Example.nodes Example.edges Example.numSamples
      Example.g = Ok nb /\
    probs_of (nb_cpts nb) "tq"%string 1
    = Ok (noisy_pairs (nth 1 (nb_leak nb) 0)
            (flat_map
               (fun combo =>
                  running_at (nb_superEdges nb) "tq"%string 1 combo 1)
               (get_default (nb_cptCombos nb) "tq"%string []))).
Proof.
  eexists. split; [vm_compute; reflexivity |].
  apply (installed_probs_per_sample Example.refs Example.nodes Example.edges
           Example.numSamples Example.g).
  - vm_compute. reflexivity.
  - unfold Example.numSamples. lia.
  - simpl. auto.
Defined.

Lemma nth_error_pairs (L : Q) (ts : list Q) (m : nat) :
  nth_error (flat_map (fun t => [1 - L * t; L * t]) ts) (2 * m)
  = option_map (fun t => 1 - L * t) (nth_error ts m) /\
  nth_error (flat_map (fun t => [1 - L * t; L * t]) ts) (2 * m + 1)
  = option_map (fun t => L * t) (nth_error ts m).
Proof.
  revert m. induction ts as [| t ts IH]; intros m.
  - destruct m; simpl; split; reflexivity.
  - destruct m as [| m].
    + split; reflexivity.
    + replace (2 * S m)%nat with (S (S (2 * m))) by lia.
      replace (S (S (2 * m)) + 1)%nat with (S (S (2 * m + 1))) by lia.
      cbn [flat_map app nth_error]. apply IH.
Qed.

Lemma pairs_length (L : Q) (ts : list Q) :
  List.length (flat_map (fun t => [1 - L * t; L * t]) ts)
  = (2 * List.length ts)%nat.
Proof.
  induction ts as [| t ts IH]; [reflexivity |].
  cbn [flat_map app List.length]. rewrite IH. lia.
Qed.



Lemma combos_of_node (G : DiGraph) (node : string) :
  NoDup (keys G) ->
  get_default (cptCombos_cell G) node [] =
  match get (reverse G) node with
  | Some _ => bools_of (parents G node)
  | None => []
  end.
Proof.
  intros Hnd. destruct (cptCombos_get G node Hnd) as [_ Hget].
  unfold get_default at 1. rewrite Hget. unfold parents, get_default.
  destruct (get (reverse G) node); reflexivity.
Qed.

(** X13.  For a node with exactly one parent the installed list is the noisy-OR
    table of the two combinations: with the parent asserted, [1 - L(1 - s)]
    and [L(1 - s)]; with the parent denied, [1 - L] and [L] (each as the
    code multiplies them out, from the initial product 1). *)
Theorem single_parent_table (refs : table ref_row) (nodes : table node_row)
  (edges : table edge_row) (numSamples : nat) (g : rng) (nb : notebook)
  (node p : string) (s : nat) :
  prepare refs nodes edges numSamples g = Ok nb ->
  (s < numSamples)%nat ->
  In node (index nodes) ->
  parents (nb_G nb) node = [p] ->
  let L := nth s (nb_leak nb) 0 in
  let sp := value_at (nb_superEdges nb) (p, node) s in
  probs_of (nb_cpts nb) node s
  = Ok [1 - L * (1 * (1 - sp)); L * (1 * (1 - sp)); 1 - L * 1; L * 1].
Proof.
  intros Hp Hs Hin Hps L sp. apply prepare_Ok in Hp as (g1 & g2 & Hp).
  rewrite (probs_of_running _ _ _ _ _ _ _ _ node s Hp Hs Hin).
  rewrite (prep_cptCombos Hp), combos_of_node
    by (rewrite (prep_G Hp); apply (G_cell_spec (nb_superEdges nb))).
  rewrite Hps. unfold parents, get_default in Hps.
  destruct (get (reverse (nb_G nb)) node); [| discriminate].
  reflexivity.
Qed.

Lemma single_parent_table_witness :
  exists nb,
    prepare Example.refs
      [("A"%string, {| label := "a"%string |});
       ("tq"%string, {| label := "t"%string |})]
      [("e1"%string, Example.edge "A" "tq" "r1" 0.8 0.8 1 1)]
      1 Example.g = Ok nb /\
    probs_of (nb_cpts nb) "tq"%string 0
    = Ok [1 - nth 0 (nb_leak nb) 0
              * (1 * (1 - value_at (nb_superEdges nb) ("A", "tq")%string 0));
          nth 0 (nb_leak nb) 0
          * (1 * (1 - value_at (nb_superEdges nb) ("A", "tq")%string 0));
          1 - nth 0 (nb_leak nb) 0 * 1;
          nth 0 (nb_leak nb) 0 * 1].
Proof.
  eexists. split; [vm_compute; reflexivity |].
  apply (single_parent_table Example.refs
           [("A"%string, {| label := "a"%string |});
            ("tq"%string, {| label := "t"%string |})]
           [("e1"%string, Example.edge "A" "tq" "r1" 0.8 0.8 1 1)]
           1 Example.g).
  - vm_compute. reflexivity.
  - lia.
  - simpl. auto.
  - vm_compute. reflexivity.
Defined.

Lemma running_at_length (superEdges : dict (string * string) num)
  (node : string) (s : nat) (combo : list expr) (tmp : Q) :
  List.length (running_at superEdges node s combo tmp) = List.length combo.
Proof.
  revert tmp. induction combo as [| p combo IH]; intros tmp; simpl;
    [reflexivity | rewrite IH; reflexivity].
Qed.

Lemma factors_at_cons (superEdges : dict (string * string) num)
  (node : string) (s : nat) (p : expr) (combo : list expr) :
  qprod (factors_at superEdges node s (p :: combo))
  = if isinstance_Variable p
    then (1 - value_at superEdges (name p, node) s)
         * qprod (factors_at superEdges node s combo)
    else qprod (factors_at superEdges node s combo).
Proof.
  unfold factors_at. cbn [filter]. destruct (isinstance_Variable p);
    reflexivity.
Qed.

Lemma running_at_last (superEdges : dict (string * string) num)
  (node : string) (s : nat) (combo : list expr) :
  combo <> [] ->
  forall tmp, exists T,
    nth_error (running_at superEdges node s combo tmp)
      (List.length combo - 1) = Some T /\
    T == tmp * qprod (factors_at superEdges node s combo).
Proof.
  induction combo as [| p combo IH]; intros Hne tmp; [congruence |].
  rewrite factors_at_cons. destruct combo as [| q combo].
  - cbn [running_at List.length nth_error Nat.sub]. eexists.
    split; [reflexivity |].
    change (qprod (factors_at superEdges node s [])) with 1.
    destruct (isinstance_Variable p); rewrite ?Qmult_1_r; reflexivity.
  - destruct (IH ltac:(discriminate)
                (if isinstance_Variable p
                 then tmp * (1 - value_at superEdges (name p, node) s)
                 else tmp)) as (T & HT & Heq).
    exists T. split.
    + cbn [List.length Nat.sub] in *. rewrite Nat.sub_0_r in *.
      cbn [running_at nth_error] in *. exact HT.
    + rewrite Heq. destruct (isinstance_Variable p);
        [symmetry; apply Qmult_assoc | reflexivity].
Qed.

Lemma nth_error_blocks {A B : Type} (f : A -> list B) (k : nat) (cs : list A) :
  (forall c, In c cs -> List.length (f c) = k) ->
  forall j i c, nth_error cs j = Some c -> (i < k)%nat ->
    nth_error (flat_map f cs) (j * k + i) = nth_error (f c) i.
Proof.
  induction cs as [| c0 cs IH]; intros Hk j i c Hj Hi.
  - destruct j; discriminate.
  - cbn [flat_map]. destruct j as [| j].
    + simpl in Hj. inv_ok Hj. simpl.
      apply nth_error_app1. rewrite Hk by (left; reflexivity). assumption.
    + simpl in Hj. rewrite nth_error_app2
        by (rewrite Hk by (left; reflexivity); simpl; lia).
      rewrite Hk by (left; reflexivity).
      replace (S j * k + i - k)%nat with (j * k + i)%nat by (simpl; lia).
      apply IH; auto. intros c' Hc'. apply Hk. right. assumption.
Qed.

(** X14.  Among the pairs stored for a combination, the last one is the noisy-OR
    pair: for combination number [j] of a node with [k >= 1] parents, the
    entries at positions [2(jk + k - 1)] and [2(jk + k - 1) + 1] of the
    installed list are [1 - L * T] and [L * T], where [T] is the product of
    [1 - strength] over the parents the combination asserts. *)
Theorem last_pair_is_noisy_or (refs : table ref_row) (nodes : table node_row)
  (edges : table edge_row) (numSamples : nat) (g : rng) (nb : notebook)
  (node : string) (combos : list (list expr)) (combo : list expr)
  (j s : nat) :
  prepare refs nodes edges numSamples g = Ok nb ->
  (s < numSamples)%nat ->
  In node (index nodes) ->
  get (nb_cptCombos nb) node = Some combos ->
  nth_error combos j = Some combo ->
  combo <> [] ->
  let L := nth s (nb_leak nb) 0 in
  let k := List.length combo in
  exists probs T,
    probs_of (nb_cpts nb) node s = Ok probs /\
    T == qprod (factors_at (nb_superEdges nb) node s combo) /\
    nth_error probs (2 * (j * k + (k - 1))) = Some (1 - L * T) /\
    nth_error probs (2 * (j * k + (k - 1)) + 1) = Some (L * T).
Proof.
  intros Hp Hs Hin Hget Hj Hne L k. apply prepare_Ok in Hp as (g1 & g2 & Hp).
  pose proof (probs_of_running _ _ _ _ _ _ _ _ node s Hp Hs Hin) as Hprobs.
  rewrite (get_default_get _ _ _ _ Hget) in Hprobs.
  assert (Hlen : forall c, In c combos -> List.length c = k).
  { assert (HndG : NoDup (keys (nb_G nb)))
      by (rewrite (prep_G Hp); apply (G_cell_spec (nb_superEdges nb))).
    destruct (cptCombos_get (nb_G nb) node HndG) as [_ Hget'].
    rewrite <- (prep_cptCombos Hp), Hget in Hget'.
    destruct (get (reverse (nb_G nb)) node) as [nbrs |]; [| discriminate].
    simpl in Hget'. inv_ok Hget'.
    destruct (bools_of_length (keys nbrs)) as [_ Hall].
    intros c Hc. unfold k. rewrite (Hall c Hc).
    symmetry. apply Hall. eapply nth_error_In; eauto. }
  assert (Hk : (0 < k)%nat).
  { unfold k. destruct combo; [congruence | simpl; lia]. }
  destruct (running_at_last (nb_superEdges nb) node s combo Hne 1)
    as (T & HT & Heq).
  set (ts := flat_map
               (fun c => running_at (nb_superEdges nb) node s c 1) combos)
    in *.
  assert (Hnth : nth_error ts (j * k + (k - 1)) = Some T).
  { unfold ts. rewrite (nth_error_blocks _ k combos) with (c := combo);
      [exact HT | | assumption | lia].
    intros c Hc. rewrite running_at_length. apply Hlen. assumption. }
  assert (Hts : noisy_pairs L ts
                = flat_map (fun t => [1 - L * t; L * t]) ts).
  { destruct ts; [destruct (j * k + (k - 1))%nat; discriminate | reflexivity]. }
  exists (noisy_pairs L ts), T. split; [exact Hprobs |].
  split; [rewrite Heq; ring |].
  rewrite Hts. destruct (nth_error_pairs L ts (j * k + (k - 1))) as [He Ho].
  rewrite He, Ho, Hnth. split; reflexivity.
Qed.

Lemma last_pair_is_noisy_or_witness :
  exists nb probs T,
    prepare Example.refs Example.nodes Example.edges Example.numSamples
      Example.g = Ok nb /\
    probs_of (nb_cpts nb) "tq"%string 0 = Ok probs /\
    T == qprod (factors_at (nb_superEdges nb) "tq"%string 0
                  [ExprVariable "A"; ExprVariable "B"]) /\
    nth_error probs 2 = Some (1 - nth 0 (nb_leak nb) 0 * T) /\
    nth_error probs 3 = Some (nth 0 (nb_leak nb) 0 * T).
Proof.
  eexists.
  match goal with
  | |- exists probs T, prepare _ _ _ _ _ = Ok ?nb /\ _ =>
      assert (Hnb : prepare Example.refs Example.nodes Example.edges
                      Example.numSamples Example.g = Ok nb)
        by (vm_compute; reflexivity);
      destruct (last_pair_is_noisy_or Example.refs Example.nodes
                  Example.edges Example.numSamples Example.g nb
                  "tq"%string
                  [[ExprVariable "A"; ExprVariable "B"];
                   [ExprVariable "A"; ExprComplement "B"];
                   [ExprComplement "A"; ExprVariable "B"];
                   [ExprComplement "A"; ExprComplement "B"]]
                  [ExprVariable "A"; ExprVariable "B"] 0 0 Hnb)
        as (probs & T & Hprobs & HT & He & Ho)
  end.
  - unfold Example.numSamples. lia.
  - simpl. auto.
  - vm_compute. reflexivity.
  - reflexivity.
  - discriminate.
  - exists probs, T. auto.
Defined.

(** ** Special cases of the aggregation *)

(** X4.  A pair supported by a single edge takes that edge's m2 draw as its
    strength, whatever the edge's m1 and m3 draws, provided their product is
    not zero. *)
Theorem single_stream_strength (refs : table ref_row) (nodes : table node_row)
  (edges : table edge_row) (numSamples : nat) (g : rng) (nb : notebook)
  (e : string * string) (id : string) (s : nat) :
  prepare refs nodes edges numSamples g = Ok nb ->
  (s < numSamples)%nat ->
  ids_of edges e = [id] ->
  ~ raw_at edges (nb_m1 nb) (nb_m3 nb) s id == 0 ->
  value_at (nb_superEdges nb) e s == draw (nb_m2 nb) id s.
Proof.
  intros Hp Hs Hids Hnz. apply prepare_Ok in Hp as (g1 & g2 & Hp).
  destruct (aggregation_spec _ _ _ _ _ _ _ _ s Hp Hs) as (_ & Hnw & _ & Hse).
  rewrite Hse, Hids. cbn [map qsum fold_right].
  assert (He : edge_at edges id = e).
  { apply (ids_of_edge_at edges e id). rewrite Hids. left. reflexivity. }
  unfold weight_at. rewrite He.
  set (r := raw_at edges (nb_m1 nb) (nb_m3 nb) s id) in *.
  assert (HR : value_at (nb_normWeights nb) e s == r).
  { rewrite Hnw, Hids. cbn [map qsum fold_right]. fold r. ring. }
  rewrite HR. field. exact Hnz.
Qed.

Lemma single_stream_strength_witness :
  exists nb,
    prepare Example.refs Example.nodes Example.edges Example.numSamples
      Example.g = Ok nb /\
    value_at (nb_superEdges nb) ("B", "tq")%string 1
    == draw (nb_m2 nb) "e2"%string 1.
Proof.
  eexists. split; [vm_compute; reflexivity |].
  apply (single_stream_strength Example.refs Example.nodes Example.edges
           Example.numSamples Example.g).
  - vm_compute. reflexivity.
  - unfold Example.numSamples. lia.
  - vm_compute. reflexivity.
  - vm_compute. discriminate.
Defined.

(** ** The node objects of the network *)

Lemma deref_app_old (h : heap) (n : BbnNode) (r : ref) :
  (r < List.length h)%nat -> deref (h ++ [n]) r = deref h r.
Proof. intros Hr. unfold deref. apply app_nth1. assumption. Qed.

Lemma deref_app_new (h : heap) (n : BbnNode) :
  deref (h ++ [n]) (List.length h) = n.
Proof.
  unfold deref. rewrite app_nth2 by lia. rewrite Nat.sub_diag. reflexivity.
Qed.

Lemma bbnNodes_cell_objects (nodes : table node_row) :
  let st := bbnNodes_cell nodes in
  (forall r, (r < List.length (fst st))%nat ->
     var_id (variable (deref (fst st) r)) = r /\
     var_values (variable (deref (fst st) r)) = ["Good"; "Bad"]%string /\
     probs (deref (fst st) r) = [1; 0]) /\
  (forall id r, get (snd st) id = Some r ->
     (r < List.length (fst st))%nat /\
     var_name (variable (deref (fst st) r)) = id).
Proof.
  unfold bbnNodes_cell, enumerate.
  pose (Inv := fun st : heap * dict string ref =>
    (forall r, (r < List.length (fst st))%nat ->
       var_id (variable (deref (fst st) r)) = r /\
       var_values (variable (deref (fst st) r)) = ["Good"; "Bad"]%string /\
       probs (deref (fst st) r) = [1; 0]) /\
    (forall id r, get (snd st) id = Some r ->
       (r < List.length (fst st))%nat /\
       var_name (variable (deref (fst st) r)) = id)).
  assert (Hgen : forall (ns : list (string * node_row))
                        (st : heap * dict string ref),
    Inv st ->
    Inv (fold_left
           (fun st it =>
              let '(h, bbnNodes) := st in
              let '(i, node) := it in
              let n := {| variable := {| var_id := i;
                                         var_name := fst node;
                                         var_values := ["Good"; "Bad"]%string |};
                          probs := [1; 0] |} in
              (h ++ [n], set bbnNodes (fst node) (List.length h)))
           (combine (seq (List.length (fst st)) (List.length ns)) ns) st)).
  { induction ns as [| node ns IH]; intros [h bn] Hinv; [exact Hinv |].
    cbn [List.length seq combine fold_left fst].
    set (n := {| variable := {| var_id := List.length h;
                                var_name := fst node;
                                var_values := ["Good"; "Bad"]%string |};
                 probs := [1; 0] |}).
    specialize (IH (h ++ [n], set bn (fst node) (List.length h))).
    cbn [fst] in IH. rewrite length_app in IH. cbn [List.length] in IH.
    rewrite Nat.add_1_r in IH. apply IH. clear IH.
    unfold Inv in Hinv |- *.
    destruct Hinv as [Hobj Hname]. cbn [fst snd] in *. split.
    - intros r Hr. rewrite length_app in Hr. cbn [List.length] in Hr.
      destruct (Nat.eq_dec r (List.length h)) as [-> | Hne].
      + rewrite deref_app_new. auto.
      + rewrite deref_app_old by lia. apply Hobj. lia.
    - intros id r. rewrite get_set, length_app. cbn [List.length].
      destruct (keqb_spec (fst node) id) as [<- | Hne]; intros Hg.
      + inv_ok Hg. rewrite deref_app_new. split; [lia | reflexivity].
      + destruct (Hname id r Hg) as [Hr Hn].
        rewrite deref_app_old by assumption. split; [lia | assumption]. }
  apply (Hgen nodes ([], [])). unfold Inv. split.
  - simpl. intros r Hr. lia.
  - simpl. intros id r Hg. discriminate.
Qed.

Lemma get_Bbn_add_node (h : heap) (b : Bbn) (r0 : ref) (k r : nat) :
  var_id (variable (deref h r0)) = r0 ->
  (forall k r, get (bbn_nodes b) k = Some r -> k = r) ->
  get (bbn_nodes (Bbn_add_node h b r0)) k = Some r <->
  k = r /\ (get (bbn_nodes b) k = Some r \/ r = r0).
Proof.
  intros Hid Hb. unfold Bbn_add_node. cbn [bbn_nodes]. rewrite Hid.
  unfold contains. destruct (get (bbn_nodes b) r0) as [x |] eqn:Hr0.
  - assert (x = r0) by (symmetry; eapply Hb; eauto). subst x. split.
    + intros Hg. split; [eapply Hb; eauto | auto].
    + intros [-> [Hg | ->]]; assumption.
  - rewrite get_set.
    destruct (@keqb_spec nat Key_nat r0 k) as [<- | Hne]; split.
    + intros Hg. inv_ok Hg. auto.
    + intros [<- [Hg | _]]; [congruence | reflexivity].
    + intros Hg. split; [eapply Hb; eauto | auto].
    + intros [-> [Hg | ->]]; [assumption | congruence].
Qed.

Lemma fold_add_node_nodes (h : heap) (rs : list ref) :
  (forall r, In r rs -> var_id (variable (deref h r)) = r) ->
  forall b,
    (forall k r, get (bbn_nodes b) k = Some r -> k = r) ->
    forall k r,
      get (bbn_nodes (fold_left (Bbn_add_node h) rs b)) k = Some r <->
      k = r /\ (get (bbn_nodes b) k = Some r \/ In r rs).
Proof.
  induction rs as [| r0 rs IH]; intros Hid b Hb k r.
  - simpl. split; [intros Hg; split; [eapply Hb; eauto | auto] |].
    intros [_ [Hg | []]]. assumption.
  - assert (Hid0 : var_id (variable (deref h r0)) = r0)
      by (apply Hid; left; reflexivity).
    cbn [fold_left]. rewrite IH.
    + rewrite (get_Bbn_add_node h b r0 k r Hid0 Hb). simpl.
      intuition congruence.
    + intros r1 Hr1. apply Hid. right. assumption.
    + intros k1 r1 Hg.
      apply (get_Bbn_add_node h b r0 k1 r1 Hid0 Hb) in Hg. tauto.
Qed.

Lemma bbnNodes_cell_keys_NoDup (nodes : table node_row) :
  NoDup (keys (snd (bbnNodes_cell nodes))).
Proof.
  unfold bbnNodes_cell. generalize (enumerate nodes) as l.
  assert (Hgen : forall (l : list (nat * (string * node_row)))
                        (st : heap * dict string ref),
    NoDup (keys (snd st)) ->
    NoDup (keys (snd (fold_left
       (fun st it =>
          let '(h, bbnNodes) := st in
          let '(i, node) := it in
          let n := {| variable := {| var_id := i;
                                     var_name := fst node;
                                     var_values := ["Good"; "Bad"]%string |};
                      probs := [1; 0] |} in
          (h ++ [n], set bbnNodes (fst node) (List.length h)))
       l st)))).
  { induction l as [| [i nd] l IH]; intros [h bn] Hn; [exact Hn |].
    cbn [fold_left]. apply IH. simpl. apply NoDup_keys_set. exact Hn. }
  intros l. apply Hgen. constructor.
Qed.

(** X16.  The network handed to the inference library holds the very node objects
    that the install loop assigns to: every node of the node table has one
    object, named after it, with the states Good and Bad, filed in [dt_base]
    under its own numeric id; and [dt_base] holds no other object. *)
Theorem dt_base_shares_node_objects (refs : table ref_row)
  (nodes : table node_row) (edges : table edge_row) (numSamples : nat)
  (g : rng) (nb : notebook) :
  prepare refs nodes edges numSamples g = Ok nb ->
  (forall node, In node (index nodes) ->
     exists r,
       get (nb_bbnNodes nb) node = Some r /\
       var_name (variable (deref (nb_heap nb) r)) = node /\
       var_values (variable (deref (nb_heap nb) r)) = ["Good"; "Bad"]%string /\
       get (bbn_nodes (nb_dt_base nb))
           (var_id (variable (deref (nb_heap nb) r))) = Some r) /\
  (forall k r, get (bbn_nodes (nb_dt_base nb)) k = Some r ->
     exists node, In node (index nodes) /\ get (nb_bbnNodes nb) node = Some r).
Proof.
  intros Hp. apply prepare_Ok in Hp as (g1 & g2 & Hp).
  pose proof (bbnNodes_cell_objects nodes) as Hobj.
  pose proof (bbnNodes_cell_spec nodes) as Hspec.
  rewrite (prep_bbnNodes Hp) in Hobj, Hspec. cbn [fst snd] in Hobj, Hspec.
  destruct Hobj as [Hheap Hname]. destruct Hspec as (_ & Hrange & Hkeys).
  assert (Hdt : forall k r,
            get (bbn_nodes (nb_dt_base nb)) k = Some r <->
            k = r /\ In r (values (nb_bbnNodes nb))).
  { intros k r. rewrite (prep_dt_base Hp). unfold dt_base_cell.
    rewrite fold_discard_method.
    rewrite (fold_add_node_nodes (nb_heap nb) (values (nb_bbnNodes nb))).
    - simpl. intuition discriminate.
    - intros r0 Hr0. apply Hheap. apply Hrange. assumption.
    - simpl. intros k0 r0 Hg. discriminate. }
  split.
  - intros node Hin. apply Hkeys in Hin. apply keys_get in Hin as [r Hr].
    destruct (Hname node r Hr) as [Hlt Hn].
    destruct (Hheap r Hlt) as (Hid & Hvals & _).
    exists r. repeat split; try assumption.
    rewrite Hid. apply Hdt. split; [reflexivity |].
    apply get_In in Hr. apply (in_map snd) in Hr. exact Hr.
  - intros k r Hg. apply Hdt in Hg as [_ Hin].
    apply in_map_iff in Hin as ([node r'] & Heq & Hin). simpl in Heq. subst r'.
    exists node. split.
    + apply Hkeys. apply (in_map fst) in Hin. exact Hin.
    + apply In_get; [| assumption].
      pose proof (bbnNodes_cell_keys_NoDup nodes) as Hnd.
      rewrite (prep_bbnNodes Hp) in Hnd. exact Hnd.
Qed.

Lemma dt_base_shares_node_objects_witness :
  exists nb r,
    prepare Example.refs Example.nodes Example.edges Example.numSamples
      Example.g = Ok nb /\
    get (nb_bbnNodes nb) "tq"%string = Some r /\
    var_name (variable (deref (nb_heap nb) r)) = "tq"%string /\
    get (bbn_nodes (nb_dt_base nb))
        (var_id (variable (deref (nb_heap nb) r))) = Some r.
Proof.
  eexists.
  match goal with
  | |- exists r, prepare _ _ _ _ _ = Ok ?nb /\ _ =>
      assert (Hnb : prepare Example.refs Example.nodes Example.edges
                      Example.numSamples Example.g = Ok nb)
        by (vm_compute; reflexivity);
      destruct (proj1 (dt_base_shares_node_objects Example.refs Example.nodes
                         Example.edges Example.numSamples Example.g nb Hnb)
                      "tq"%string)
        as (r & Hr & Hname & _ & Hdt)
  end.
  - simpl. auto.
  - exists r. auto.
Defined.

(** ** The whole run *)

Lemma p_cell_Ok (target_probs : list potential) :
  Forall (fun t => (2 <= List.length t)%nat) target_probs ->
  exists p,
    p_cell target_probs = Ok p /\
    List.length p = List.length target_probs /\
    Forall (fun v => exists t, In t target_probs /\ nth_error t 1 = Some v) p.
Proof.
  unfold p_cell. induction 1 as [| t ts Ht _ IH].
  - exists []. simpl. auto.
  - destruct IH as (p & Hp & Hlen & Hall).
    destruct (nth_error t 1) as [v |] eqn:Hv.
    + exists (v :: p). cbn [comprehension]. rewrite Hv. cbn [bind].
      rewrite Hp. cbn [bind]. split; [reflexivity |].
      split; [simpl; congruence |]. constructor.
      * exists t. split; [left; reflexivity | assumption].
      * eapply Forall_impl; [| exact Hall].
        intros a (t' & Hin & Ha). exists t'. split; [right |]; assumption.
    + apply nth_error_None in Hv. lia.
Qed.

Section RunFacts.
Context {JoinTree : Type}.
Variable InferenceController_apply : Bbn -> heap -> JoinTree.
Variable get_bbn_potential : JoinTree -> BbnNode -> potential.

Lemma inference_loop_total (refs : table ref_row) (nodes : table node_row)
  (edges : table edge_row) (numSamples : nat) (g g1 g2 : rng) (nb : notebook)
  (target : ref) :
  prepared refs nodes edges numSamples g g1 g2 nb ->
  forall k start e0,
    (start + k <= numSamples)%nat ->
    List.length (env_heap e0) = List.length (nb_heap nb) ->
    exists e1,
      for_each (seq start k)
        (sample_step InferenceController_apply get_bbn_potential
           (nb_cpts nb) (nb_bbnNodes nb) target) e0 = Ok e1 /\
      List.length (env_heap e1) = List.length (nb_heap nb) /\
      exists new,
        env_target_probs e1 = env_target_probs e0 ++ new /\
        List.length new = k /\
        Forall (fun t => exists jt node, t = get_bbn_potential jt node) new.
Proof.
  intros Hp. induction k as [| k IH]; intros start e0 Hle Hlen.
  - exists e0. simpl. split; [reflexivity |]. split; [assumption |].
    exists []. rewrite app_nil_r. auto.
  - destruct (install_total _ _ _ _ _ _ _ _ start (env_heap e0) Hp)
      as (h & Hinst & _); [lia | assumption |].
    cbn [seq for_each]. unfold sample_step at 1. rewrite Hinst. cbn [bind].
    pose proof (install_frame _ _ _ _ _ Hinst) as [Hlen' _].
    destruct (IH (S start)
                {| env_heap := h;
                   env_dt_base := env_dt_base e0;
                   env_target_probs :=
                     env_target_probs e0
                       ++ [get_bbn_potential
                             (InferenceController_apply (env_dt_base e0) h)
                             (deref h target)] |})
      as (e1 & Hrun & Hl1 & new & Hnew & Hcount & Hall);
      [lia | cbn [env_heap]; congruence |].
    exists e1. split; [exact Hrun |]. split; [exact Hl1 |].
    cbn [env_target_probs] in Hnew. rewrite <- app_assoc in Hnew.
    eexists. split; [exact Hnew |]. split; [simpl; lia |].
    constructor; [eauto | exact Hall].
Qed.


End RunFacts.

Lemma well_formed_example :
  well_formed Example.refs Example.nodes Example.edges.
Proof.
  intros id row Hrow. unfold Example.edges in Hrow. simpl in Hrow.
  repeat match type of Hrow with
         | (if ?c then _ else _) = _ => destruct c
         end;
    try discriminate; inv_ok Hrow; simpl; auto 6.
Qed.



(** ** Bounds that make every quantity a probability *)

Lemma draw_within {Row : Type} (t : table Row) (lo hi : Row -> Q) (n s : nat)
  (f : frame) (id : string) (r : Row) :
  column_ok t lo hi n f -> In id (keys f) -> get t id = Some r ->
  lo r <= hi r -> (s < n)%nat ->
  within (lo r) (hi r) (draw f id s).
Proof.
  intros Hc Hin Hr Hle Hs.
  destruct (column_ok_lookup t lo hi n f id r Hc Hin Hr Hle)
    as (col & Hcol & Hlen & Hall).
  unfold draw. rewrite (get_default_get _ _ _ _ Hcol).
  rewrite Forall_forall in Hall. apply Hall. apply nth_In. lia.
Qed.

Lemma qsum_pos (l : list Q) :
  l <> [] -> Forall (fun r => 0 < r) l -> 0 < qsum l.
Proof.
  intros Hne Hall. destruct Hall as [| x l Hx Hall]; [congruence |].
  assert (Hrest : 0 <= qsum l).
  { apply qsum_nonneg. eapply Forall_impl; [| exact Hall].
    intros a Ha. apply Qlt_le_weak. exact Ha. }
  unfold qsum in *. simpl. lra.
Qed.

Lemma strengths_within (refs : table ref_row) (nodes : table node_row)
  (edges : table edge_row) (numSamples : nat) (g g1 g2 : rng) (nb : notebook)
  (e : string * string) (s : nat) :
  unit_variates g ->
  probability_bounds refs edges ->
  prepared refs nodes edges numSamples g g1 g2 nb ->
  (s < numSamples)%nat ->
  within 0 1 (value_at (nb_superEdges nb) e s).
Proof.
  intros Hg [Hb1 Hb23] Hp Hs.
  pose proof (prepared_well_formed _ _ _ _ _ _ _ _ Hp) as Hwf.
  destruct (aggregation_spec _ _ _ _ _ _ _ _ s Hp Hs)
    as (_ & Hnw & _ & Hse).
  destruct Hp as [H1 H23 _ _ _ _ _ _ _ _ _ _].
  apply sample_m1_ok in H1 as (Hg1 & Hc1 & Hk1); [| assumption].
  apply sample_m2_m3_ok in H23 as (_ & Hc2 & Hc3 & Hk23); [| assumption].
  set (ids := ids_of edges e) in *.
  set (raw := raw_at edges (nb_m1 nb) (nb_m3 nb) s) in *.
  set (R := value_at (nb_normWeights nb) e s) in *.
  assert (Hfacts : forall id, In id ids ->
            0 < raw id /\ within 0 1 (draw (nb_m2 nb) id s) /\
            weight_at edges (nb_m1 nb) (nb_m3 nb) (nb_normWeights nb) s id
            = raw id / R).
  { intros id Hin. apply ids_of_edge_at in Hin as [Hin He].
    pose proof Hin as Hrow. apply keys_get in Hrow as [row Hrow].
    destruct (Hwf id row Hrow) as [Href _].
    apply keys_get in Href as [rr Hrr].
    destruct (Hb1 _ _ Hrr) as [Hp1 Hv1].
    destruct (Hb23 _ _ Hrow) as (Hp3 & Hv3 & Hp2 & Hv2 & Hu2).
    assert (Hd1 : within (m1A rr) (m1B rr) (draw (nb_m1 nb) (ref_id row) s)).
    { apply (draw_within refs m1A m1B numSamples); auto.
      apply Hk1. eapply get_Some_keys; eauto. }
    assert (Hd3 : within (m3A row) (m3B row) (draw (nb_m3 nb) id s)).
    { apply (draw_within edges m3A m3B numSamples); auto.
      apply Hk23. assumption. }
    assert (Hd2 : within (m2A row) (m2B row) (draw (nb_m2 nb) id s)).
    { apply (draw_within edges m2A m2B numSamples); auto.
      apply Hk23. assumption. }
    unfold within in *. split; [| split].
    - unfold raw, raw_at. rewrite Hrow. nra.
    - lra.
    - unfold weight_at. rewrite He. reflexivity. }
  assert (Hstrength :
    value_at (nb_superEdges nb) e s
    == qsum (map (fun id => raw id / R * draw (nb_m2 nb) id s) ids)).
  { rewrite Hse. apply qsum_ext. intros id Hin.
    destruct (Hfacts id Hin) as (_ & _ & ->). reflexivity. }
  destruct ids as [| id0 ids'] eqn:Hids.
  { unfold within. rewrite Hstrength. simpl. lra. }
  rewrite <- Hids in *.
  assert (HR : R == qsum (map raw ids)) by apply Hnw.
  assert (HRpos : 0 < R).
  { rewrite HR. apply qsum_pos.
    - rewrite Hids. discriminate.
    - apply Forall_map, Forall_forall. intros id Hin. apply Hfacts. exact Hin. }
  assert (Hsum : qsum (map (fun id => raw id / R) ids) == 1).
  { unfold Qdiv. rewrite qsum_scale. rewrite <- HR. field. lra. }
  destruct (combination_bounds string (fun id => raw id / R)
              (fun id => draw (nb_m2 nb) id s) 0 1 ids) as [Hlo Hhi].
  { intros id Hin. destruct (Hfacts id Hin) as (Hraw & Hm2 & _).
    split; [| exact Hm2].
    apply Qdiv_nonneg; [lra |]. left. split; lra. }
  rewrite Hsum in Hlo, Hhi. unfold within. rewrite Hstrength. split; lra.
Qed.


Lemma running_at_within (superEdges : dict (string * string) num)
  (node : string) (s : nat) (combo : list expr) :
  (forall e, within 0 1 (value_at superEdges e s)) ->
  forall tmp, within 0 1 tmp ->
    Forall (within 0 1) (running_at superEdges node s combo tmp).
Proof.
  intros Hse. induction combo as [| p combo IH]; intros tmp Htmp;
    cbn [running_at]; [constructor |].
  assert (Hstep : within 0 1
            (if isinstance_Variable p
             then tmp * (1 - value_at superEdges (name p, node) s)
             else tmp)).
  { destruct (isinstance_Variable p); [| assumption].
    pose proof (Hse (name p, node)) as Hv. unfold within in *. split; nra. }
  constructor; [exact Hstep | apply IH; exact Hstep].
Qed.


Lemma probability_bounds_example :
  probability_bounds Example.refs Example.edges.
Proof.
  split; intros id row Hrow.
  - unfold Example.refs in Hrow. simpl in Hrow.
    repeat match type of Hrow with
           | (if ?c then _ else _) = _ => destruct c
           end;
      try discriminate; inv_ok Hrow; simpl; split;
      reflexivity || discriminate.
  - unfold Example.edges in Hrow. simpl in Hrow.
    repeat match type of Hrow with
           | (if ?c then _ else _) = _ => destruct c
           end;
      try discriminate; inv_ok Hrow; simpl; repeat split;
      reflexivity || discriminate.
Qed.



(** ** Entries of the table of combinations *)

Lemma fold_add_key_present {K : Type} `{Key K} (l acc : list K) :
  (forall x, In x l -> In x acc) -> fold_left add_key l acc = acc.
Proof.
  induction l as [| x l IH]; intros Hin; simpl; [reflexivity |].
  rewrite add_key_present by (apply Hin; left; reflexivity).
  apply IH. intros y Hy. apply Hin. right. assumption.
Qed.

Lemma keys_add_nodes_from (ns : list string) (G : DiGraph) :
  keys (add_nodes_from G ns) = fold_left add_key ns (keys G).
Proof.
  unfold add_nodes_from. revert G.
  induction ns as [| n ns IH]; intros G; [reflexivity |].
  cbn [fold_left]. rewrite IH, keys_nx_add_node_add_key. reflexivity.
Qed.

(** X9.  The table of combinations has one entry per node of the causal graph,
    in the order of the graph's nodes; nodes that occur in no edge have
    none. *)
Theorem cptCombos_keys_are_graph_nodes {V : Type}
  (superEdges : dict (string * string) V) :
  keys (cptCombos_cell (G_cell superEdges)) = nx_nodes (G_cell superEdges).
Proof.
  destruct (G_cell_spec superEdges) as (Hnd & _ & Hedges & Hnodes).
  set (G := G_cell superEdges) in *.
  destruct (reverse_spec G Hnd) as (HndR & _ & _).
  unfold cptCombos_cell, adjacency.
  rewrite (fold_set_map
             (fun adj : string * dict string unit =>
                map (combo_of (keys (snd adj)))
                    (product [true; false] (List.length (keys (snd adj)))))
             (reverse G) []) by exact HndR.
  cbn [app]. unfold keys at 1. rewrite map_map. cbn [fst].
  change (map (fun x : string * dict string unit => fst x) (reverse G))
    with (keys (reverse G)).
  unfold reverse. rewrite keys_add_edges_from, keys_add_nodes_from.
  cbn [keys map]. rewrite (fold_add_key_NoDup (nx_nodes G) [])
    by (simpl; exact Hnd).
  cbn [app]. apply fold_add_key_present.
  intros x Hx. unfold endpoints in Hx. apply in_flat_map in Hx.
  destruct Hx as ([a b] & Hin & Hx). apply in_map_iff in Hin.
  destruct Hin as ([u v] & Heq & Hin). simpl in Heq.
  injection Heq as Ha Hb. subst a b.
  apply nx_edges_spec in Hin; [| exact Hnd].
  apply Hnodes. exists u, v. split; [apply Hedges; exact Hin |].
  simpl in Hx. intuition congruence.
Qed.

(** ** Nothing is carried from one sample to the next *)

(** X18.  What the install loop of a sample leaves on the node objects does not
    depend on what they held before: from any two heaps of the right size it
    succeeds and puts the same probabilities on every node object. *)
Theorem install_independent_of_history (refs : table ref_row)
  (nodes : table node_row) (edges : table edge_row) (numSamples : nat)
  (g : rng) (nb : notebook) (s : nat) (h1 h2 : heap) :
  prepare refs nodes edges numSamples g = Ok nb ->
  (s < numSamples)%nat ->
  List.length h1 = List.length (nb_heap nb) ->
  List.length h2 = List.length (nb_heap nb) ->
  exists h1' h2',
    install (nb_cpts nb) (nb_bbnNodes nb) s h1 = Ok h1' /\
    install (nb_cpts nb) (nb_bbnNodes nb) s h2 = Ok h2' /\
    forall node r, get (nb_bbnNodes nb) node = Some r ->
      probs (deref h1' r) = probs (deref h2' r).
Proof.
  intros Hp Hs Hl1 Hl2. apply prepare_Ok in Hp as (g1 & g2 & Hp).
  destruct (install_total _ _ _ _ _ _ _ _ s h1 Hp Hs Hl1) as (h1' & Hr1 & Ha1).
  destruct (install_total _ _ _ _ _ _ _ _ s h2 Hp Hs Hl2) as (h2' & Hr2 & Ha2).
  exists h1', h2'. split; [exact Hr1 |]. split; [exact Hr2 |].
  intros node r Hget.
  pose proof (bbnNodes_cell_spec nodes) as Hcell.
  rewrite (prep_bbnNodes Hp) in Hcell. simpl in Hcell.
  destruct Hcell as (_ & _ & Hkeys).
  assert (Hin : In node (index nodes))
    by (apply Hkeys; eapply get_Some_keys; eauto).
  destruct (Ha1 node Hin) as (r1 & Hg1 & Hp1).
  destruct (Ha2 node Hin) as (r2 & Hg2 & Hp2).
  assert (r1 = r) by congruence. assert (r2 = r) by congruence. subst r1 r2.
  rewrite Hp1 in Hp2. inv_ok Hp2. assumption.
Qed.

Lemma install_independent_of_history_witness :
  exists nb h1' h2',
    prepare Example.refs Example.nodes Example.edges Example.numSamples
      Example.g = Ok nb /\
    install (nb_cpts nb) (nb_bbnNodes nb) 1 (nb_heap nb) = Ok h1' /\
    install (nb_cpts nb) (nb_bbnNodes nb) 1
      [null_node; null_node; null_node] = Ok h2' /\
    forall node r, get (nb_bbnNodes nb) node = Some r ->
      probs (deref h1' r) = probs (deref h2' r).
Proof.
  eexists.
  match goal with
  | |- exists h1' h2', prepare _ _ _ _ _ = Ok ?nb /\ _ =>
      assert (Hnb : prepare Example.refs Example.nodes Example.edges
                      Example.numSamples Example.g = Ok nb)
        by (vm_compute; reflexivity);
      destruct (install_independent_of_history Example.refs Example.nodes
                  Example.edges Example.numSamples Example.g nb 1
                  (nb_heap nb) [null_node; null_node; null_node] Hnb)
        as (h1' & h2' & Hr1 & Hr2 & Hall)
  end.
  - unfold Example.numSamples. lia.
  - reflexivity.
  - reflexivity.
  - exists h1', h2'. auto.
Defined.

(** ** Where the draws come from *)

Lemma sample_m1_rng (refs : table ref_row) (n : nat) (l : list string) :
  forall f g f' g',
    for_each l
      (fun ref_id '(m1, g) =>
         a <- col refs m1A ref_id ;;
         b <- col refs m1B ref_id ;;
         let '(v, g') := uniform a b n g in
         Ok (set m1 ref_id v, g'))
      (f, g) = Ok (f', g') ->
    forall i, g' i = g (n * List.length l + i)%nat.
Proof.
  induction l as [| x l IH]; intros f g f' g' Hrun i.
  - simpl in Hrun. inv_ok Hrun. cbn [List.length].
    rewrite Nat.mul_0_r. reflexivity.
  - cbn [for_each] in Hrun. inv_bind Hrun. destruct x0 as [f1 g1].
    inv_bind Hx. inv_bind Hx. simpl in Hx. inv_ok Hx.
    rewrite (IH _ _ _ _ Hrun i). cbn [List.length]. f_equal. nia.
Qed.

Lemma sample_m2_m3_rng (edges : table edge_row) (n : nat) (l : list string) :
  forall f2 f3 g f2' f3' g',
    for_each l
      (fun edge_id '(m2, m3, g) =>
         a2 <- col edges m2A edge_id ;;
         b2 <- col edges m2B edge_id ;;
         let '(v2, g2) := uniform a2 b2 n g in
         a3 <- col edges m3A edge_id ;;
         b3 <- col edges m3B edge_id ;;
         let '(v3, g3) := uniform a3 b3 n g2 in
         Ok (set m2 edge_id v2, set m3 edge_id v3, g3))
      (f2, f3, g) = Ok (f2', f3', g') ->
    forall i, g' i = g (n * (2 * List.length l) + i)%nat.
Proof.
  induction l as [| x l IH]; intros f2 f3 g f2' f3' g' Hrun i.
  - simpl in Hrun. inv_ok Hrun. cbn [List.length].
    rewrite Nat.mul_0_r. reflexivity.
  - cbn [for_each] in Hrun. inv_bind Hrun. destruct x0 as [[f21 f31] g1].
    inv_bind Hx. inv_bind Hx. simpl in Hx. inv_bind Hx. inv_bind Hx.
    simpl in Hx. inv_ok Hx.
    rewrite (IH _ _ _ _ _ _ Hrun i). cbn [List.length]. f_equal. nia.
Qed.



(** ** The edge objects of the network *)

(** X17.  The edge objects built for the network are the edges of the causal
    graph: an edge object is in [bbnEdges] exactly when it is directed and
    the graph has an edge between the nodes it names. *)
Theorem bbnEdges_are_graph_edges {V : Type}
  (superEdges : dict (string * string) V) (e : Edge) :
  In e (bbnEdges_cell superEdges) <->
  edge_type e = DIRECTED /\
  has_edge (G_cell superEdges) (edge_i e) (edge_j e) = true.
Proof.
  destruct (G_cell_spec superEdges) as (_ & _ & Hedge & _).
  unfold bbnEdges_cell. rewrite in_map_iff. split.
  - intros ([u v] & <- & Hin). cbn [edge_type edge_i edge_j fst snd].
    split; [reflexivity |]. apply Hedge. exact Hin.
  - intros (Hty & Hh). apply Hedge in Hh.
    exists (edge_i e, edge_j e). split; [| exact Hh].
    destruct e as [i j ty]. cbn [edge_type edge_i edge_j fst snd] in *.
    subst ty. reflexivity.
Qed.
